(** * RomSorter: a shallow embedding of [rom_sorter.py]

    The development follows the layout of the script: string helpers of the
    Python runtime, the name normalizer, the rank vector builder, a model of
    the file system, the duplicate cleaner, the relocator and the
    orchestrator; the theorems come after the definitions.

    Conventions of the model.
    - A Python [str] is a [string] whose characters are the code points
      U+0000..U+00FF; on these, [str.lower], [str.isspace] and the classes of
      the [re] module are written out exactly.
    - A path is the list of its components, relative to the root of the
      modelled tree (the working directory of the script).
    - A directory keeps its entries in listing order (the order in which
      [os.scandir] returns them), as an association list. *)

From Stdlib Require Import Ascii.
From stdpp Require Import base option list strings gmap.
From Stdlib Require Import Permutation.

(** ** Python string primitives *)

Module Py.

Definition code (c : ascii) : nat := nat_of_ascii c.

Definition in_range (lo hi : nat) (c : ascii) : bool :=
  (lo <=? code c) && (code c <=? hi).

(** [str.isspace] on one character, which is also the class [\s] of [re] and
    the set that [str.strip] removes. *)
Definition isspace (c : ascii) : bool :=
  in_range 9 13 c || in_range 28 32 c || (code c =? 133) || (code c =? 160).

(** The class [0-9]. *)
Definition isdigit (c : ascii) : bool := in_range 48 57 c.

(** The class [a-zA-Z]. *)
Definition isalpha (c : ascii) : bool := in_range 65 90 c || in_range 97 122 c.

(** [str.lower] on one character: the letters [A-Z] and the upper-case
    letters U+00C0..U+00DE (but not the multiplication sign U+00D7). *)
Definition lower_char (c : ascii) : ascii :=
  if in_range 65 90 c || (in_range 192 222 c && negb (code c =? 215))
  then ascii_of_nat (code c + 32) else c.

Fixpoint lower (s : string) : string :=
  match s with
  | EmptyString => EmptyString
  | String c r => String (lower_char c) (lower r)
  end.

(** [s.lstrip()]. *)
Fixpoint lstrip (s : string) : string :=
  match s with
  | EmptyString => EmptyString
  | String c r => if isspace c then lstrip r else s
  end.

(** [s.rstrip()]: a white-space character is dropped when nothing but
    white space follows it. *)
Fixpoint rstrip (s : string) : string :=
  match s with
  | EmptyString => EmptyString
  | String c r =>
      match rstrip r with
      | EmptyString => if isspace c then EmptyString else String c EmptyString
      | r' => String c r'
      end
  end.

(** [s.strip()]. *)
Definition strip (s : string) : string := rstrip (lstrip s).

(** [s.startswith(p)]. *)
Fixpoint startswith (s p : string) {struct p} : bool :=
  match p, s with
  | EmptyString, _ => true
  | String _ _, EmptyString => false
  | String a p', String b s' => Ascii.eqb a b && startswith s' p'
  end.

(** [s.endswith(p)]: some tail of [s] is [p]. *)
Fixpoint endswith (s p : string) : bool :=
  String.eqb s p
  || match s with
     | EmptyString => false
     | String _ r => endswith r p
     end.

(** [p in s] on strings: [p] starts at some position of [s]. *)
Fixpoint contains (s p : string) : bool :=
  startswith s p
  || match s with
     | EmptyString => false
     | String _ r => contains r p
     end.

(** [s.rfind(c)] for a one-character [c]: the index of the last
    occurrence, [None] for Python's [-1]. *)
Fixpoint rfind (s : string) (c : ascii) : option nat :=
  match s with
  | EmptyString => None
  | String a r =>
      match rfind r c with
      | Some i => Some (S i)
      | None => if Ascii.eqb a c then Some 0 else None
      end
  end.

(** The slices [s[:i]] and [s[i:]]. *)
Fixpoint take (i : nat) (s : string) : string :=
  match i, s with
  | S j, String c r => String c (take j r)
  | _, _ => EmptyString
  end.

Fixpoint drop (i : nat) (s : string) : string :=
  match i, s with
  | S j, String _ r => drop j r
  | _, _ => s
  end.

(** Comparison [a > b] of two lists of integers: the first position where
    they differ decides; a proper extension is greater than its prefix. *)
Fixpoint list_gt (a b : list nat) : bool :=
  match a, b with
  | [], _ => false
  | _ :: _, [] => true
  | x :: a', y :: b' => (y <? x) || ((x =? y) && list_gt a' b')
  end.

End Py.

(** ** [pathlib]: the name, stem and suffix of a path *)

Definition path := list string.

Module Pathlib.

(** [p.name]: the last component, empty for the empty path. *)
Definition name (p : path) : string := List.last p EmptyString.

(** [p.parent]. *)
Definition parent (p : path) : path := removelast p.

(** [p / n]. *)
Definition child (p : path) (n : string) : path := p ++ [n].

(** The position of the dot that starts the suffix of a file name: the last
    dot, provided it is neither the first nor the last character
    ([0 < i < len(name) - 1], the rule of [pathlib] up to Python 3.13). The
    names come from directory listings, so they are single components. *)
Definition suffix_index (n : string) : option nat :=
  match Py.rfind n "."%char with
  | Some i => if (0 <? i) && (i <? String.length n - 1) then Some i else None
  | None => None
  end.

(** [PurePath(n).suffix]. *)
Definition suffix (n : string) : string :=
  match suffix_index n with
  | Some i => Py.drop i n
  | None => EmptyString
  end.

(** [PurePath(n).stem]. *)
Definition stem (n : string) : string :=
  match suffix_index n with
  | Some i => Py.take i n
  | None => n
  end.

End Pathlib.

(** ** The name normalizer *)

Module Normalizer.

(** The closing character of the three bracket pairs of the first
    pattern, [\(.*?\)|\{.*?}|\[.*?]]. *)
Definition closer (c : ascii) : option ascii :=
  if Ascii.eqb c "("%char then Some ")"%char
  else if Ascii.eqb c "{"%char then Some "}"%char
  else if Ascii.eqb c "["%char then Some "]"%char
  else None.

(** Whether [.*?] followed by the closer [cl] matches at the head of [s]:
    [cl] occurs before any line feed, which [.] does not match. *)
Fixpoint closes (cl : ascii) (s : string) : bool :=
  match s with
  | EmptyString => false
  | String c r =>
      if Ascii.eqb c cl then true
      else if Ascii.eqb c "010"%char then false
      else closes cl r
  end.

(** The text after the shortest such match: what follows the first [cl]. *)
Fixpoint after_close (cl : ascii) (s : string) : string :=
  match s with
  | EmptyString => s
  | String c r => if Ascii.eqb c cl then r else after_close cl r
  end.

(** [re.sub(r'\(.*?\)|\{.*?}|\[.*?]', '', s)]: scanning from the left, a
    bracket that is closed on its line is dropped together with everything
    up to its first closer; any other character is kept. *)
Fixpoint remove_bracketed (s : string) : string :=
  match s with
  | EmptyString => EmptyString
  | String c r =>
      match closer c with
      | Some cl =>
          if closes cl r then remove_bracketed (after_close cl r)
          else String c (remove_bracketed r)
      | None => String c (remove_bracketed r)
      end
  end.

(** The class [[0-9\s\-]] of the second pattern. *)
Definition is_prefix_char (c : ascii) : bool :=
  Py.isdigit c || Py.isspace c || Ascii.eqb c "-"%char.

(** [re.sub(r'^[0-9\s\-]+', '', s)]: the pattern is anchored at the start of
    the string, so only the leading run is removed. *)
Fixpoint remove_numeric_prefix (s : string) : string :=
  match s with
  | EmptyString => EmptyString
  | String c r => if is_prefix_char c then remove_numeric_prefix r else s
  end.

(** The class [[\s_\-:]] of the third pattern. *)
Definition is_separator (c : ascii) : bool :=
  Py.isspace c || Ascii.eqb c "_"%char || Ascii.eqb c "-"%char || Ascii.eqb c ":"%char.

(** [re.sub(r'[\s_\-:]+', ' ', s)]: every maximal run of separators becomes
    one space. [in_run] tells that the previous character was a separator,
    whose run has already produced its space. *)
Fixpoint replace_separators_from (in_run : bool) (s : string) : string :=
  match s with
  | EmptyString => EmptyString
  | String c r =>
      if is_separator c
      then (if in_run then replace_separators_from true r
            else String " "%char (replace_separators_from true r))
      else String c (replace_separators_from false r)
  end.

Definition replace_separators (s : string) : string :=
  replace_separators_from false s.

(** The characters that the fourth pattern, [[^a-zA-Z0-9\s']], keeps. *)
Definition is_kept (c : ascii) : bool :=
  Py.isalpha c || Py.isdigit c || Py.isspace c || Ascii.eqb c "'"%char.

(** [re.sub(r"[^a-zA-Z0-9\s']", '', s)]. *)
Fixpoint remove_special (s : string) : string :=
  match s with
  | EmptyString => EmptyString
  | String c r =>
      if is_kept c then String c (remove_special r) else remove_special r
  end.

Definition normalize_name (name : string) : string :=
  let name := Py.strip (remove_bracketed name) in
  let name := Py.strip (remove_numeric_prefix name) in
  let name := replace_separators name in
  let name := remove_special name in
  Py.strip (Py.lower name).

End Normalizer.

(** ** The rank vector builder *)

Definition get_rom_rank_vector (filename : string) (ranking_criteria : list string)
  : list nat :=
  List.map (fun criterion => if Py.contains filename criterion then 1 else 0)
           ranking_criteria.

(** ** The file system *)

Module Fs.

(** A file carries its content, which the script never reads; it tells
    files apart when they are moved. *)
#[warnings="-register-all"]
Inductive node : Type :=
| File (content : string)
| Dir (entries : list (string * node)).

Definition entries := list (string * node).

(** The first entry of a listing with a given name. *)
Fixpoint assoc (k : string) (es : entries) : option node :=
  match es with
  | [] => None
  | (n, v) :: r => if String.eqb n k then Some v else assoc k r
  end.

(** The listing without its first entry named [k]. *)
Fixpoint remove_entry (k : string) (es : entries) : entries :=
  match es with
  | [] => []
  | (n, v) :: r => if String.eqb n k then r else (n, v) :: remove_entry k r
  end.

(** The listing with [f] applied to its first entry named [k]; there is no
    result when the entry is missing or [f] has none. *)
Fixpoint alter_entry (k : string) (f : node -> option node) (es : entries)
  : option entries :=
  match es with
  | [] => None
  | (n, v) :: r =>
      if String.eqb n k
      then match f v with Some v' => Some ((n, v') :: r) | None => None end
      else match alter_entry k f r with
           | Some r' => Some ((n, v) :: r')
           | None => None
           end
  end.

(** The node that a path names. *)
Fixpoint lookup (p : path) (t : node) : option node :=
  match p with
  | [] => Some t
  | c :: p' =>
      match t with
      | Dir es => match assoc c es with Some v => lookup p' v | None => None end
      | File _ => None
      end
  end.

Definition exists_ (p : path) (t : node) : bool :=
  match lookup p t with Some _ => true | None => false end.

Definition is_dir (p : path) (t : node) : bool :=
  match lookup p t with Some (Dir _) => true | _ => false end.

Definition is_file (p : path) (t : node) : bool :=
  match lookup p t with Some (File _) => true | _ => false end.

(** The tree with the listing of the directory at [p] replaced by [f] of
    it; no result when [p] is not a directory or [f] has none. *)
Fixpoint update_dir (p : path) (f : entries -> option entries) (t : node)
  : option node :=
  match t with
  | File _ => None
  | Dir es =>
      match p with
      | [] => match f es with Some es' => Some (Dir es') | None => None end
      | c :: p' =>
          match alter_entry c (update_dir p' f) es with
          | Some es' => Some (Dir es')
          | None => None
          end
      end
  end.

(** A path split into its parent and its last component. *)
Fixpoint split_last (p : path) : option (path * string) :=
  match p with
  | [] => None
  | [n] => Some ([], n)
  | c :: p' =>
      match split_last p' with
      | Some (d, n) => Some (c :: d, n)
      | None => None
      end
  end.

(** The change that [os.remove] makes to the listing of the directory of the
    file, whose name is [n]: none when the entry is missing or a directory. *)
Definition unlink_entry (n : string) (es : entries) : option entries :=
  match assoc n es with
  | Some (File _) => Some (remove_entry n es)
  | _ => None
  end.

(** [os.remove(p)]: unlinks a file; fails on a directory or a missing
    path. *)
Definition unlink (p : path) (t : node) : option node :=
  match split_last p with
  | Some (d, n) => update_dir d (unlink_entry n) t
  | None => None
  end.

(** [os.rename(src, dst)] towards a path that does not exist, the only use
    the script makes of it: the node leaves the listing of its directory
    and ends the listing of the directory of [dst]. It fails when [src] is
    missing or when the parent of [dst] is not a directory, which includes
    a destination inside the moved directory. The model also fails on an
    existing [dst]. *)
Definition rename (src dst : path) (t : node) : option node :=
  match lookup src t, split_last src, split_last dst with
  | Some v, Some (sd, sn), Some (dd, dn) =>
      match update_dir sd (fun es => Some (remove_entry sn es)) t with
      | Some t1 =>
          update_dir dd (fun es => match assoc dn es with
                                   | None => Some (es ++ [(dn, v)])
                                   | Some _ => None
                                   end) t1
      | None => None
      end
  | _, _, _ => None
  end.

(** [Path.mkdir(parents=True, exist_ok=True)]: follows the path through
    existing directories and creates the missing ones, each at the end of
    the listing of its parent. It fails when a component is a file. *)
Fixpoint mkdir (p : path) (t : node) : option node :=
  match t with
  | File _ => None
  | Dir es =>
      match p with
      | [] => Some t
      | c :: p' =>
          match assoc c es with
          | Some _ =>
              match alter_entry c (mkdir p') es with
              | Some es' => Some (Dir es')
              | None => None
              end
          | None =>
              match mkdir p' (Dir []) with
              | Some v => Some (Dir (es ++ [(c, v)]))
              | None => None
              end
          end
      end
  end.

(** The tree after a series of [os.remove] calls, each of which may fail and
    then changes nothing. *)
Definition unlink_all (ps : list path) (t : node) : node :=
  fold_left (fun t p => match unlink p t with Some t' => t' | None => t end) ps t.

(** A well-formed tree: no directory lists a name twice. *)
Fixpoint wf (t : node) : Prop :=
  match t with
  | File _ => True
  | Dir es =>
      NoDup (List.map fst es)
      /\ fold_right (fun e rest => wf (snd e) /\ rest) True es
  end.

(** The names of the sub-directories and of the other entries of a
    listing, as [os.walk] reports them. *)
Definition dirnames (es : entries) : list string :=
  List.map fst (List.filter (fun e => match snd e with Dir _ => true | File _ => false end) es).

Definition filenames (es : entries) : list string :=
  List.map fst (List.filter (fun e => match snd e with Dir _ => false | File _ => true end) es).

(** [os.walk(top)], top-down: the triple of a directory comes before the
    triples of its sub-directories, which follow in listing order. *)
Fixpoint walk (dirpath : path) (t : node) : list (path * list string * list string) :=
  match t with
  | File _ => []
  | Dir es =>
      (dirpath, dirnames es, filenames es)
        :: flat_map (fun e => walk (dirpath ++ [fst e]) (snd e)) es
  end.

(** [Path.rglob('*')] from a directory, in the order of the selectors of
    [pathlib] up to Python 3.12: the entries of the directory, then
    in the same way those of each sub-directory, top-down in listing
    order. *)
Fixpoint rglob (dirpath : path) (t : node) : list path :=
  match t with
  | File _ => []
  | Dir es =>
      List.map (fun e => dirpath ++ [fst e]) es
        ++ flat_map (fun e => rglob (dirpath ++ [fst e]) (snd e)) es
  end.

End Fs.

(** ** The log and the calls that change the file system *)

Inductive level := DEBUG | INFO | WARNING | ERROR.

(** The action names of [handle_file_move]. *)
Inductive action := MOVE | ARCHIVE.

(** An [OSError] of one of the three mutating calls, with the path it is
    about. *)
Inductive exn := OSError (p : path).

(** One constructor per message of the script, with the values that its
    format string takes. *)
Inductive message :=
| MsgStart
| MsgDryRunMode (enabled : bool)
| MsgSourceNotFound (source_dir : path)
| MsgScanningIn (source_dir : path)
| MsgExcludingDirs (excluded_dirs : list string)
| MsgExcludingExts (excluded_extensions : list string)
| MsgCleanupStart
| MsgDryRunDelete (file_path : path)
| MsgDelete (file_path : path)
| MsgDeleteFailed (e : exn)
| MsgCleanupFinished
| MsgSkipping (a : action) (dest_path : path)
| MsgDryRunMove (a : action) (source_path dest_path : path)
| MsgMove (a : action) (source_path dest_path : path)
| MsgMoveFailed (a : action) (e : exn)
| MsgScanningFor (source_dir : path)
| MsgSkipType (filepath : path)
| MsgSkipDir (filepath : path)
| MsgFound (games : nat)
| MsgSingle (game_name ext : string)
| MsgGroup (game_name ext : string) (versions : nat)
| MsgFoundRom (name : string) (rank_vector : list nat)
| MsgBest (game_name ext name : string) (best_rank_vector : option (list nat))
| MsgNoBest (game_name ext : string)
| MsgFinished.

(** What a run leaves behind, in order: the records handed to the logger and
    the calls of [os.remove], [shutil.move] and [Path.mkdir]. *)
Inductive event :=
| Log (l : level) (m : message)
| OsRemove (p : path)
| ShutilMove (src dst : path)
| PathMkdir (p : path).

Record world := World { fs : Fs.node; trace : list event }.

(** ** Computations over the world that may raise *)

Inductive outcome (A : Type) :=
| Returned (a : A)
| Raised (e : exn).
Arguments Returned {A} a.
Arguments Raised {A} e.

Definition M (A : Type) : Type := world -> outcome A * world.

Definition ret {A} (a : A) : M A := fun w => (Returned a, w).

Definition bind {A B} (m : M A) (k : A -> M B) : M B :=
  fun w =>
    match m w with
    | (Returned a, w') => k a w'
    | (Raised e, w') => (Raised e, w')
    end.

Declare Scope io_scope.
Delimit Scope io_scope with io.
Notation "x <- m ;; k" := (bind m (fun x => k))
  (at level 100, m at next level, k at level 200, right associativity) : io_scope.
Notation "m ;; k" := (bind m (fun _ => k))
  (at level 100, k at level 200, right associativity) : io_scope.
Local Open Scope io_scope.

Definition raise {A} (e : exn) : M A := fun w => (Raised e, w).

(** [try: m except Exception as e: h e]. *)
Definition try_except {A} (m : M A) (h : exn -> M A) : M A :=
  fun w =>
    match m w with
    | (Returned a, w') => (Returned a, w')
    | (Raised e, w') => h e w'
    end.

Definition emit (e : event) : M unit :=
  fun w => (Returned tt, World (fs w) (trace w ++ [e])).

Definition log (l : level) (m : message) : M unit := emit (Log l m).

(** A query of the file system. *)
Definition ask {A} (f : Fs.node -> A) : M A := fun w => (Returned (f (fs w)), w).

(** A call that changes the file system: recorded, then performed; when it
    fails the tree is as before and the error is raised. *)
Definition mutate (e : event) (p : path) (f : Fs.node -> option Fs.node) : M unit :=
  emit e ;;
  (fun w =>
     match f (fs w) with
     | Some t => (Returned tt, World t (trace w))
     | None => (Raised (OSError p), w)
     end).

Definition os_remove (p : path) : M unit := mutate (OsRemove p) p (Fs.unlink p).

Definition shutil_move (src dst : path) : M unit :=
  mutate (ShutilMove src dst) src (Fs.rename src dst).

Definition mkdir_parents_exist_ok (p : path) : M unit :=
  mutate (PathMkdir p) p (Fs.mkdir p).

(** [os.walk(top)]; nothing is yielded when [top] is not a directory. The
    generator lists a directory when it reaches it; the loop of the cleaner
    only unlinks files of the directory in hand, so the listings are those
    of the tree at the start of the loop. *)
Definition os_walk (top : path) : M (list (path * list string * list string)) :=
  ask (fun t => match Fs.lookup top t with
                | Some v => Fs.walk top v
                | None => []
                end).

(** [top.rglob('*')]. *)
Definition path_rglob (top : path) : M (list path) :=
  ask (fun t => match Fs.lookup top t with
                | Some v => Fs.rglob top v
                | None => []
                end).

(** [for x in xs: body x]. *)
Fixpoint for_each {A} (xs : list A) (body : A -> M unit) : M unit :=
  match xs with
  | [] => ret tt
  | x :: r => body x ;; for_each r body
  end.

(** A loop that updates a local variable: [for x in xs: acc = body acc x]. *)
Fixpoint for_fold {A S} (xs : list A) (body : S -> A -> M S) (acc : S) : M S :=
  match xs with
  | [] => ret acc
  | x :: r => acc' <- body acc x ;; for_fold r body acc'
  end.

(** ** The duplicate cleaner *)

Module Cleaner.

(** The set comprehension of the cleaner: the stems of the names that end
    in [.zip] once lowered. *)
Definition zip_basenames (filenames : list string) : gset string :=
  list_to_set
    (List.map Pathlib.stem
       (List.filter (fun f => Py.endswith (Py.lower f) ".zip") filenames)).

(** The test under which a name joins [files_to_remove]. *)
Definition is_duplicate (zips : gset string) (excluded_extensions : list string)
           (f : string) : bool :=
  let basename := Pathlib.stem f in
  let ext := Py.lower (Pathlib.suffix f) in
  bool_decide (basename ∈ zips)
  && negb (String.eqb ext ".zip")
  && negb (bool_decide (ext ∈ excluded_extensions)).

Definition files_to_remove (dirpath : path) (filenames : list string)
           (excluded_extensions : list string) : list path :=
  List.map (Pathlib.child dirpath)
    (List.filter (is_duplicate (zip_basenames filenames) excluded_extensions)
       filenames).

Definition remove_file (dry_run : bool) (file_path : path) : M unit :=
  if dry_run then log INFO (MsgDryRunDelete file_path)
  else try_except
         (log INFO (MsgDelete file_path) ;; os_remove file_path)
         (fun e => log ERROR (MsgDeleteFailed e)).

(** The body of the loop over [os.walk]. *)
Definition clean_directory (dry_run : bool) (excluded_extensions : list string)
           (step : path * list string * list string) : M unit :=
  let '(dirpath, _, filenames) := step in
  if bool_decide (zip_basenames filenames = ∅) then ret tt
  else for_each (files_to_remove dirpath filenames excluded_extensions)
                (remove_file dry_run).

Definition cleanup_unzipped_duplicates (source_dir : path) (dry_run : bool)
           (excluded_extensions : list string) : M unit :=
  log INFO MsgCleanupStart ;;
  steps <- os_walk source_dir ;;
  for_each steps (clean_directory dry_run excluded_extensions) ;;
  log INFO MsgCleanupFinished.

End Cleaner.

(** ** The relocator *)

Definition action_of (is_archive : bool) : action :=
  if is_archive then ARCHIVE else MOVE.

Definition handle_file_move (source_path dest_path : path) (dry_run : bool)
           (is_archive : bool) : M unit :=
  let action := action_of is_archive in
  present <- ask (Fs.exists_ dest_path) ;;
  if present then log WARNING (MsgSkipping action dest_path)
  else if dry_run then log INFO (MsgDryRunMove action source_path dest_path)
  else try_except
         (log INFO (MsgMove action source_path dest_path) ;;
          shutil_move source_path dest_path)
         (fun e => log ERROR (MsgMoveFailed action e)).

(** ** The orchestrator *)

(** The keys of the configuration that [process_roms] reads. The three
    directories are held as paths; [excluded_dirs] and
    [excluded_extensions] are empty when the file leaves them out. *)
Record Config := {
  rom_source_dir : path;
  rom_destination_dir : path;
  archive_dir : path;
  ranking_criteria : list string;
  excluded_dirs : list string;
  excluded_extensions : list string
}.

(** [CONFIG_DEFAULTS]. *)
Definition CONFIG_DEFAULTS : Config := {|
  rom_source_dir := ["roms"];
  rom_destination_dir := ["sorted"];
  archive_dir := ["archive"];
  ranking_criteria := ["[!]"];
  excluded_dirs := ["images"];
  excluded_extensions := [".png"; ".jpg"]
|}.

Module Sorter.

(** [roms_by_game]: a dictionary from (normalized name, extension) to the
    paths of the group, in insertion order. *)
Definition groups := list ((string * string) * list path).

(** [roms_by_game[key].append(filepath)], after the key was given the empty
    list when it was new. *)
Fixpoint add_to_group (key : string * string) (filepath : path)
         (roms_by_game : groups) : groups :=
  match roms_by_game with
  | [] => [(key, [filepath])]
  | (k, paths) :: r =>
      if decide (k = key) then (k, paths ++ [filepath]) :: r
      else (k, paths) :: add_to_group key filepath r
  end.

(** [any(part.lower() in excluded_dirs for part in filepath.parent.parts)]. *)
Definition in_excluded_dir (excluded_dirs : list string) (filepath : path) : bool :=
  existsb (fun part => bool_decide (Py.lower part ∈ excluded_dirs))
          (Pathlib.parent filepath).

Definition game_key (filepath : path) : string * string :=
  let base_name := Pathlib.stem (Pathlib.name filepath) in
  let extension := Pathlib.suffix (Pathlib.name filepath) in
  (Normalizer.normalize_name base_name, extension).

(** The body of the scanning loop. *)
Definition scan_file (excluded_dirs excluded_extensions : list string)
           (roms_by_game : groups) (filepath : path) : M groups :=
  regular <- ask (Fs.is_file filepath) ;;
  if regular then
    if bool_decide (Py.lower (Pathlib.suffix (Pathlib.name filepath))
                      ∈ excluded_extensions)
    then log DEBUG (MsgSkipType filepath) ;; ret roms_by_game
    else if in_excluded_dir excluded_dirs filepath
    then log DEBUG (MsgSkipDir filepath) ;; ret roms_by_game
    else ret (add_to_group (game_key filepath) filepath roms_by_game)
  else ret roms_by_game.

(** The two variables of the ranking loop, [best_rom] and
    [best_rank_vector]. *)
Definition best := (option path * option (list nat))%type.

(** [best_rom is None or rank_vector > best_rank_vector]; the comparison
    is not evaluated while [best_rom] is [None]. *)
Definition improves (rank_vector : list nat) (b : best) : bool :=
  match b with
  | (None, _) => true
  | (Some _, Some best_rank_vector) => Py.list_gt rank_vector best_rank_vector
  | (Some _, None) => false
  end.

Definition rank_step (criteria : list string) (b : best) (rom_path : path) : best :=
  let rank_vector := get_rom_rank_vector (Pathlib.name rom_path) criteria in
  if improves rank_vector b then (Some rom_path, Some rank_vector) else b.

(** The ranking loop, with its debug records. *)
Definition rank_group (criteria : list string) (rom_paths : list path) : M best :=
  for_fold rom_paths
    (fun b rom_path =>
       log DEBUG (MsgFoundRom (Pathlib.name rom_path)
                    (get_rom_rank_vector (Pathlib.name rom_path) criteria)) ;;
       ret (rank_step criteria b rom_path))
    (None, None).

(** The body of the loop over [roms_by_game.items()]. The test [if best_rom]
    is the test that [best_rom] is not [None]: a [Path] is always true. *)
Definition process_group (config : Config) (dry_run : bool)
           (group : (string * string) * list path) : M unit :=
  let '((game_name, ext), rom_paths) := group in
  let dest_dir := rom_destination_dir config in
  match rom_paths with
  | [rom_path] =>
      log INFO (MsgSingle game_name ext) ;;
      handle_file_move rom_path (Pathlib.child dest_dir (Pathlib.name rom_path))
                       dry_run false
  | _ =>
      log DEBUG (MsgGroup game_name ext (length rom_paths)) ;;
      b <- rank_group (ranking_criteria config) rom_paths ;;
      match b with
      | (Some best_rom, best_rank_vector) =>
          log INFO (MsgBest game_name ext (Pathlib.name best_rom) best_rank_vector) ;;
          handle_file_move best_rom
                           (Pathlib.child dest_dir (Pathlib.name best_rom))
                           dry_run false ;;
          for_each rom_paths
            (fun rom_path =>
               if decide (rom_path <> best_rom)
               then handle_file_move rom_path
                      (Pathlib.child (archive_dir config) (Pathlib.name rom_path))
                      dry_run true
               else ret tt)
      | (None, _) => log WARNING (MsgNoBest game_name ext)
      end
  end.

Definition process_roms (config : Config) (dry_run : bool) : M unit :=
  log INFO MsgStart ;;
  log INFO (MsgDryRunMode dry_run) ;;
  let source_dir := rom_source_dir config in
  let dest_dir := rom_destination_dir config in
  let archive_dir := archive_dir config in
  source_is_dir <- ask (Fs.is_dir source_dir) ;;
  if negb source_is_dir then log ERROR (MsgSourceNotFound source_dir)
  else
    mkdir_parents_exist_ok dest_dir ;;
    mkdir_parents_exist_ok archive_dir ;;
    log INFO (MsgScanningIn source_dir) ;;
    let excluded_dirs := List.map Py.lower (excluded_dirs config) in
    let excluded_extensions := List.map Py.lower (excluded_extensions config) in
    log INFO (MsgExcludingDirs excluded_dirs) ;;
    log INFO (MsgExcludingExts excluded_extensions) ;;
    Cleaner.cleanup_unzipped_duplicates source_dir dry_run excluded_extensions ;;
    log INFO (MsgScanningFor source_dir) ;;
    found <- path_rglob source_dir ;;
    roms_by_game <- for_fold found (scan_file excluded_dirs excluded_extensions) [] ;;
    log INFO (MsgFound (length roms_by_game)) ;;
    for_each roms_by_game (process_group config dry_run) ;;
    log INFO MsgFinished.

End Sorter.

(** ** Notions used to state the properties *)

Module Spec.

(** [p] is a literal substring of [s]. *)
Definition substring (p s : string) : Prop :=
  exists pre post, s = pre +:+ p +:+ post.

(** [s] ends in [p]. *)
Definition ends_in (s p : string) : Prop := exists pre, s = pre +:+ p.

(** Every character of a string passes a test. *)
Fixpoint all_chars (P : ascii -> bool) (s : string) : bool :=
  match s with
  | EmptyString => true
  | String c r => P c && all_chars P r
  end.

(** The characters a normalized name is made of: lower-case letters,
    digits, the apostrophe and the space. *)
Definition normal_char (c : ascii) : bool :=
  Py.in_range 97 122 c || Py.isdigit c || Ascii.eqb c "'"%char
  || Ascii.eqb c " "%char.

Definition starts_with_digit (s : string) : bool :=
  match s with
  | String c _ => Py.isdigit c
  | EmptyString => false
  end.

Definition has_double_space (s : string) : bool := Py.contains s "  ".

(** The string does not start with white space. *)
Definition no_lead (s : string) : bool :=
  match s with
  | String c _ => negb (Py.isspace c)
  | EmptyString => true
  end.

(** What the fourth pattern lets through of the output of the third: kept
    characters among which the space is the only separator. *)
Definition settled_char (c : ascii) : bool :=
  Normalizer.is_kept c && (negb (Normalizer.is_separator c) || Ascii.eqb c " "%char).

(** The lexicographic order on lists of integers, position 0 the most
    significant; a proper prefix comes before its extensions. *)
Inductive lex_lt : list nat -> list nat -> Prop :=
| lex_lt_nil y b : lex_lt [] (y :: b)
| lex_lt_head x y a b : x < y -> lex_lt (x :: a) (y :: b)
| lex_lt_tail x a b : lex_lt a b -> lex_lt (x :: a) (x :: b).

Definition lex_le (a b : list nat) : Prop := a = b \/ lex_lt a b.

(** [v] is the rank vector of a file name for a criteria list: as long as the
    list, with 1 at the positions of the criteria that are substrings of the
    name and 0 at the others. *)
Definition rank_vector_of (filename : string) (criteria : list string)
           (v : list nat) : Prop :=
  length v = length criteria
  /\ forall i criterion, criteria !! i = Some criterion ->
       (substring criterion filename /\ v !! i = Some 1)
       \/ (~ substring criterion filename /\ v !! i = Some 0).

(** The rank vector that the loop computes for a member of a group. *)
Definition rank_of (criteria : list string) (rom_path : path) : list nat :=
  get_rom_rank_vector (Pathlib.name rom_path) criteria.

(** What the two variables of the ranking loop hold once the members [seen]
    have been visited: nothing before the first member, then the first
    member of [seen] whose rank vector no other exceeds. *)
Definition best_after (criteria : list string) (seen : list path)
           (b : Sorter.best) : Prop :=
  (seen = [] /\ b = (None, None))
  \/ exists i winner,
      b = (Some winner, Some (rank_of criteria winner))
      /\ seen !! i = Some winner
      /\ (forall p, p ∈ seen ->
            lex_le (rank_of criteria p) (rank_of criteria winner))
      /\ (forall j p, j < i -> seen !! j = Some p ->
            lex_lt (rank_of criteria p) (rank_of criteria winner)).

(** A specification of a computation: run from any world, it changes the
    tree within [R], adds to the trace only events that satisfy [P], and
    returns only values that satisfy [Q]. *)
Definition satisfies {A} (R : Fs.node -> Fs.node -> Prop) (P : event -> Prop)
           (Q : A -> Prop) (m : M A) : Prop :=
  forall w, exists evs,
    trace (m w).2 = trace w ++ evs
    /\ Forall P evs
    /\ R (fs w) (fs (m w).2)
    /\ forall a, (m w).1 = Returned a -> Q a.

(** What the cleaner does with a file to remove: it calls [os.remove] in a
    live pass and records the intended removal in a dry pass. *)
Definition removal_event (dry_run : bool) (p : path) : event :=
  if dry_run then Log INFO (MsgDryRunDelete p) else OsRemove p.

Definition removal_of (dry_run : bool) (e : event) : option path :=
  match dry_run, e with
  | false, OsRemove p => Some p
  | true, Log INFO (MsgDryRunDelete p) => Some p
  | _, _ => None
  end.

(** The paths removed, or in a dry pass announced, in a list of events. *)
Definition removals_in (dry_run : bool) (evs : list event) : list path :=
  omap (removal_of dry_run) evs.

(** The paths handed to [os.remove] in a list of events. *)
Definition removals (evs : list event) : list path := removals_in false evs.

(** The (source, destination) pairs handed to [shutil.move]. *)
Definition moves (evs : list event) : list (path * path) :=
  omap (fun e => match e with ShutilMove s d => Some (s, d) | _ => None end) evs.

(** An event that is a call of [os.remove] or [shutil.move]. *)
Definition is_removal_or_move (e : event) : Prop :=
  match e with
  | OsRemove _ | ShutilMove _ _ => True
  | _ => False
  end.

(** The record of the branch that finds no best version. *)
Definition is_no_best (e : event) : Prop :=
  exists game_name ext, e = Log WARNING (MsgNoBest game_name ext).

Definition is_log (e : event) : Prop :=
  match e with
  | Log _ _ => True
  | _ => False
  end.

(** The events of the cleaning, scanning and relocating part of a run: never
    the record of the branch without a best version and, in a dry run,
    records only. *)
Definition quiet (dry_run : bool) (e : event) : Prop :=
  ~ is_no_best e /\ (dry_run = true -> is_log e).

(** What that part of a run may do to the tree: nothing in a dry run. *)
Definition frame (dry_run : bool) (t t' : Fs.node) : Prop :=
  dry_run = true -> t = t'.

(** The part of [process_roms] that follows the duplicate cleaner. *)
Definition after_cleanup (config : Config) (dry_run : bool) : M unit :=
  (let source_dir := rom_source_dir config in
   let excluded_dirs := List.map Py.lower (excluded_dirs config) in
   let excluded_extensions := List.map Py.lower (excluded_extensions config) in
   log INFO (MsgScanningFor source_dir) ;;
   found <- path_rglob source_dir ;;
   roms_by_game <- for_fold found (Sorter.scan_file excluded_dirs excluded_extensions) [] ;;
   log INFO (MsgFound (length roms_by_game)) ;;
   for_each roms_by_game (Sorter.process_group config dry_run) ;;
   log INFO MsgFinished)%io.

(** The part of [process_roms] that follows the creation of the destination
    and archive directories. *)
Definition after_setup (config : Config) (dry_run : bool) : M unit :=
  (let source_dir := rom_source_dir config in
   log INFO (MsgScanningIn source_dir) ;;
   let excluded_dirs := List.map Py.lower (excluded_dirs config) in
   let excluded_extensions := List.map Py.lower (excluded_extensions config) in
   log INFO (MsgExcludingDirs excluded_dirs) ;;
   log INFO (MsgExcludingExts excluded_extensions) ;;
   Cleaner.cleanup_unzipped_duplicates source_dir dry_run excluded_extensions ;;
   after_cleanup config dry_run)%io.

(** The triples that [os.walk] yields from a directory of a tree. *)
Definition walked (top : path) (t : Fs.node) : list (path * list string * list string) :=
  match Fs.lookup top t with
  | Some v => Fs.walk top v
  | None => []
  end.

(** A file name has a sibling archive in a listing: a name of the listing
    that ends in [.zip], whatever the case, and has the same stem. *)
Definition has_zip_sibling (filenames : list string) (f : string) : Prop :=
  exists z, z ∈ filenames /\ ends_in (Py.lower z) ".zip"
            /\ Pathlib.stem z = Pathlib.stem f.

(** The condition under which the cleaner is to delete the file [f] of a
    listing. *)
Definition is_zip_duplicate (filenames excluded_extensions : list string)
           (f : string) : Prop :=
  f ∈ filenames
  /\ has_zip_sibling filenames f
  /\ Py.lower (Pathlib.suffix f) <> ".zip"
  /\ Py.lower (Pathlib.suffix f) ∉ excluded_extensions.

(** A computation that always returns, whose removals are those of the
    paths [ps], in this order, and which changes the tree by these removals
    only. *)
Definition runs_removing (dry_run : bool) (m : M unit) (ps : list path) : Prop :=
  forall w, exists evs,
    m w = (Returned tt,
           World (if dry_run then fs w else Fs.unlink_all ps (fs w))
                 (trace w ++ evs))
    /\ removals_in dry_run evs = ps.

(** Every group that the scan builds has a member. *)
Definition all_nonempty (roms_by_game : Sorter.groups) : Prop :=
  Forall (fun g => g.2 <> []) roms_by_game.

(** The end-to-end scenario: the three files of the source directory, the
    tree for a listing of them next to other entries of the working
    directory, the empty destination and archive directories, and the tree
    expected after a live run. *)
Definition scenario_files : Fs.entries :=
  [("Game (USA).zip", Fs.File "usa, zipped");
   ("Game (USA).bin", Fs.File "usa, unzipped");
   ("Game [!].zip", Fs.File "verified, zipped")].

Definition scenario_tree (listing others : Fs.entries) : Fs.node :=
  Fs.Dir (("roms", Fs.Dir listing) :: others).

Definition scenario_empty_dirs : Fs.entries :=
  [("sorted", Fs.Dir []); ("archive", Fs.Dir [])].

Definition scenario_result : Fs.node :=
  Fs.Dir [("roms", Fs.Dir []);
          ("sorted", Fs.Dir [("Game [!].zip", Fs.File "verified, zipped")]);
          ("archive", Fs.Dir [("Game (USA).zip", Fs.File "usa, zipped")])].

(** The trace of the scenario up to the end of the cleaner pass. *)
Definition scenario_cleaning : list event :=
  [Log INFO MsgStart; Log INFO (MsgDryRunMode false);
   PathMkdir ["sorted"]; PathMkdir ["archive"];
   Log INFO (MsgScanningIn ["roms"]);
   Log INFO (MsgExcludingDirs ["images"]);
   Log INFO (MsgExcludingExts [".png"; ".jpg"]);
   Log INFO MsgCleanupStart;
   Log INFO (MsgDelete ["roms"; "Game (USA).bin"]);
   OsRemove ["roms"; "Game (USA).bin"];
   Log INFO MsgCleanupFinished].

End Spec.

(** ** Further notions *)

Module Notions.

(** A character that opens none of the three bracket pairs. *)
Definition not_opener (c : ascii) : bool :=
  match Normalizer.closer c with Some _ => false | None => true end.

(** A character that the body of a tag closed by [cl] may hold: neither [cl]
    nor a line feed. *)
Definition tag_char (cl c : ascii) : bool :=
  negb (Ascii.eqb c cl) && negb (Ascii.eqb c "010"%char).

(** A run of release tags: each one some white space, an opening bracket, a
    body and the matching closing bracket, as in [" (USA) [!]"], possibly
    followed by more white space. *)
Inductive tags : string -> Prop :=
| tags_end ws : Spec.all_chars Py.isspace ws = true -> tags ws
| tags_more ws op cl body rest :
    Spec.all_chars Py.isspace ws = true ->
    Normalizer.closer op = Some cl ->
    Spec.all_chars (tag_char cl) body = true ->
    tags rest ->
    tags (ws +:+ String op (body +:+ String cl rest)).

(** The paths that a pass of the cleaner removes from a tree. *)
Definition cleaned (source_dir : path) (excluded : list string) (t : Fs.node)
  : list path :=
  flat_map (fun step => Cleaner.files_to_remove step.1.1 step.2 excluded)
           (Spec.walked source_dir t).

(** Well-formedness of a tree, as a test. *)
Fixpoint wfb (t : Fs.node) : bool :=
  match t with
  | Fs.File _ => true
  | Fs.Dir es =>
      bool_decide (NoDup (List.map fst es)) && forallb (fun e => wfb (snd e)) es
  end.

(** An event of the cleaner that is in order for a source directory: a
    record, or the removal of a path below that directory. *)
Definition cleaner_event (source_dir : path) (e : event) : Prop :=
  Spec.is_log e \/ exists rel f, e = OsRemove ((source_dir ++ rel) ++ [f]).

(** What a path names in a tree, leaving the listings of directories aside:
    nothing, a file with its content, or a directory. *)
Inductive kind := Missing | IsFile (content : string) | IsDir.

Definition kind_of (o : option Fs.node) : kind :=
  match o with
  | None => Missing
  | Some (Fs.File c) => IsFile c
  | Some (Fs.Dir _) => IsDir
  end.

Definition kind_at (p : path) (t : Fs.node) : kind := kind_of (Fs.lookup p t).

(** A computation that returns from every world: it never raises. *)
Definition returns {A} (m : M A) : Prop :=
  forall w, exists a w', m w = (Returned a, w').

(** The test that the scanning loop makes before it files a path: a regular
    file whose extension and directories are not excluded. *)
Definition kept (excluded_dirs excluded_extensions : list string) (t : Fs.node)
           (filepath : path) : bool :=
  Fs.is_file filepath t
  && negb (bool_decide (Py.lower (Pathlib.suffix (Pathlib.name filepath))
                          ∈ excluded_extensions))
  && negb (Sorter.in_excluded_dir excluded_dirs filepath).

(** What one round of the scanning loop does to [roms_by_game]. *)
Definition scan_step (excluded_dirs excluded_extensions : list string) (t : Fs.node)
           (roms_by_game : Sorter.groups) (filepath : path) : Sorter.groups :=
  if kept excluded_dirs excluded_extensions t filepath
  then Sorter.add_to_group (Sorter.game_key filepath) filepath roms_by_game
  else roms_by_game.

(** [roms_by_game.get(key, [])]. *)
Fixpoint group_of (key : string * string) (roms_by_game : Sorter.groups) : list path :=
  match roms_by_game with
  | [] => []
  | (k, paths) :: r => if decide (k = key) then paths else group_of key r
  end.

(** The kept paths of a list that have a given key, in the order of the
    list. *)
Definition members (excluded_dirs excluded_extensions : list string) (t : Fs.node)
           (key : string * string) (found : list path) : list path :=
  List.filter (fun p => kept excluded_dirs excluded_extensions t p
                        && bool_decide (Sorter.game_key p = key)) found.

(** What the dictionary keeps true through the scan: no key twice and no
    group without a member. *)
Definition well_grouped (g : Sorter.groups) : Prop :=
  NoDup (List.map fst g) /\ Spec.all_nonempty g.

(** A path below a directory: the directory, then further components, the
    last of which names the entry. *)
Definition below (dir p : path) : Prop := exists rel f, p = (dir ++ rel) ++ [f].

(** A path that the scan of a run may put in a group: it lies below the
    source directory, its extension is not excluded and no directory on
    the way to it is. *)
Definition movable (config : Config) (p : path) : Prop :=
  below (rom_source_dir config) p
  /\ (Py.lower (Pathlib.suffix (Pathlib.name p))
        ∉ List.map Py.lower (excluded_extensions config))
  /\ Sorter.in_excluded_dir (List.map Py.lower (excluded_dirs config)) p = false.

(** An event that is in order for a configuration: a record; the creation
    of the destination or of the archive directory; the removal of a path
    below the source directory; the move of a path that the scan may group
    to the entry of its own name in the destination or in the archive
    directory. *)
Definition in_order (config : Config) (e : event) : Prop :=
  match e with
  | Log _ _ => True
  | PathMkdir p => p = rom_destination_dir config \/ p = archive_dir config
  | OsRemove p => below (rom_source_dir config) p
  | ShutilMove s d =>
      movable config s
      /\ (d = Pathlib.child (rom_destination_dir config) (Pathlib.name s)
          \/ d = Pathlib.child (archive_dir config) (Pathlib.name s))
  end.

(** Groups all of whose members the scan may group. *)
Definition all_movable (config : Config) (g : Sorter.groups) : Prop :=
  Forall (fun group => Forall (movable config) group.2) g.

End Notions.

(** * Properties *)

(** ** Strings *)

Section StringFacts.

Lemma ascii_eqb_true (a b : ascii) : Ascii.eqb a b = true <-> a = b.
Proof. apply Ascii.eqb_eq. Qed.

Lemma append_nil (s : string) : "" +:+ s = s.
Proof. reflexivity. Qed.

Lemma append_cons (c : ascii) (a b : string) :
  String c a +:+ b = String c (a +:+ b).
Proof. reflexivity. Qed.

Lemma append_empty_r (s : string) : s +:+ "" = s.
Proof.
  induction s as [|c r IH]; [reflexivity | now rewrite append_cons, IH].
Qed.

Lemma append_assoc (a b c : string) : (a +:+ b) +:+ c = a +:+ b +:+ c.
Proof.
  induction a as [|x a IH]; [reflexivity | now rewrite !append_cons, IH].
Qed.

Lemma startswith_spec (s p : string) :
  Py.startswith s p = true <-> exists post, s = p +:+ post.
Proof.
  revert s; induction p as [|a p IH]; intros s; simpl.
  - split; [intros _; now exists s | reflexivity].
  - destruct s as [|b s].
    + split; [discriminate | intros [post H]; discriminate].
    + rewrite andb_true_iff, ascii_eqb_true, IH. split.
      * intros [-> [post ->]]. now exists post.
      * intros [post H]. rewrite append_cons in H. injection H as -> ->.
        split; [reflexivity | now exists post].
Qed.

Lemma contains_spec (s p : string) :
  Py.contains s p = true <-> Spec.substring p s.
Proof.
  unfold Spec.substring. induction s as [|c s IH]; simpl.
  - rewrite orb_false_r, startswith_spec. split.
    + intros [post H]. now exists "", post.
    + intros [[|x pre] [post H]]; [now exists post | discriminate].
  - rewrite orb_true_iff, startswith_spec, IH. split.
    + intros [[post H] | [pre [post H]]].
      * now exists "", post.
      * exists (String c pre), post. now rewrite append_cons, H.
    + intros [[|x pre] [post H]].
      * left. now exists post.
      * right. rewrite append_cons in H. injection H as -> H.
        now exists pre, post.
Qed.

Lemma contains_cons (c : ascii) (r p : string) :
  Py.contains (String c r) p = Py.startswith (String c r) p || Py.contains r p.
Proof. reflexivity. Qed.

Lemma endswith_unfold (s p : string) :
  Py.endswith s p
  = (String.eqb s p
     || match s with EmptyString => false | String _ r => Py.endswith r p end).
Proof. destruct s; reflexivity. Qed.

Lemma endswith_spec (s p : string) :
  Py.endswith s p = true <-> Spec.ends_in s p.
Proof.
  unfold Spec.ends_in. induction s as [|c s IH]; rewrite endswith_unfold.
  - rewrite orb_false_r, String.eqb_eq. split.
    + intros <-. now exists "".
    + intros [[|x pre] H]; [exact H | discriminate].
  - rewrite orb_true_iff, String.eqb_eq, IH. split.
    + intros [<- | [pre ->]]; [now exists "" | now exists (String c pre)].
    + intros [[|x pre] H]; [now left | right].
      rewrite append_cons in H. injection H as -> H. now exists pre.
Qed.

Lemma all_chars_impl (P Q : ascii -> bool) (s : string) :
  (forall c, P c = true -> Q c = true) ->
  Spec.all_chars P s = true -> Spec.all_chars Q s = true.
Proof.
  intros HPQ. induction s as [|c r IH]; simpl; [reflexivity |].
  rewrite !andb_true_iff. intros [Hc Hr]. auto.
Qed.

Lemma all_chars_lstrip (P : ascii -> bool) (s : string) :
  Spec.all_chars P s = true -> Spec.all_chars P (Py.lstrip s) = true.
Proof.
  induction s as [|c r IH]; simpl; [reflexivity |].
  rewrite andb_true_iff. intros [Hc Hr].
  destruct (Py.isspace c); [auto | simpl; now rewrite Hc, Hr].
Qed.

Lemma all_chars_rstrip (P : ascii -> bool) (s : string) :
  Spec.all_chars P s = true -> Spec.all_chars P (Py.rstrip s) = true.
Proof.
  induction s as [|c r IH]; simpl; [reflexivity |].
  rewrite andb_true_iff. intros [Hc Hr]. specialize (IH Hr).
  destruct (Py.rstrip r) as [|a r'].
  - destruct (Py.isspace c); simpl; [reflexivity | now rewrite Hc].
  - change (P c && Spec.all_chars P (String a r') = true). now rewrite Hc.
Qed.

Lemma all_chars_strip (P : ascii -> bool) (s : string) :
  Spec.all_chars P s = true -> Spec.all_chars P (Py.strip s) = true.
Proof. intros H. now apply all_chars_rstrip, all_chars_lstrip. Qed.

Lemma all_chars_lower (P Q : ascii -> bool) (s : string) :
  (forall c, P c = true -> Q (Py.lower_char c) = true) ->
  Spec.all_chars P s = true -> Spec.all_chars Q (Py.lower s) = true.
Proof.
  intros HPQ. induction s as [|c r IH]; simpl; [reflexivity |].
  rewrite !andb_true_iff. intros [Hc Hr]. auto.
Qed.

Lemma no_lead_lstrip (s : string) : Spec.no_lead (Py.lstrip s) = true.
Proof.
  induction s as [|c r IH]; simpl; [reflexivity |].
  destruct (Py.isspace c) eqn:E; [exact IH | simpl; now rewrite E].
Qed.

Lemma no_lead_rstrip (s : string) :
  Spec.no_lead s = true -> Spec.no_lead (Py.rstrip s) = true.
Proof.
  destruct s as [|c r]; simpl; [reflexivity |]. intros H.
  destruct (Py.rstrip r); [|exact H].
  destruct (Py.isspace c) eqn:E; [discriminate | simpl; now rewrite E].
Qed.

Lemma lstrip_no_lead (s : string) : Spec.no_lead s = true -> Py.lstrip s = s.
Proof.
  destruct s as [|c r]; simpl; [reflexivity |].
  destruct (Py.isspace c); [discriminate | reflexivity].
Qed.

Lemma rstrip_idempotent (s : string) : Py.rstrip (Py.rstrip s) = Py.rstrip s.
Proof.
  induction s as [|c r IH]; simpl; [reflexivity |].
  destruct (Py.rstrip r) as [|a r'] eqn:E.
  - destruct (Py.isspace c) eqn:Ec; simpl; [reflexivity | now rewrite Ec].
  - change (Py.rstrip (String c (String a r'))) with
      (match Py.rstrip (String a r') with
       | EmptyString => if Py.isspace c then EmptyString else String c EmptyString
       | r0 => String c r0
       end).
    now rewrite IH.
Qed.

(** [strip] leaves a string that it does not change any more. *)
Lemma strip_no_lead (s : string) : Spec.no_lead (Py.strip s) = true.
Proof. apply no_lead_rstrip, no_lead_lstrip. Qed.

Lemma strip_fixed (s : string) :
  Spec.no_lead s = true -> Py.rstrip s = s -> Py.strip s = s.
Proof. intros H1 H2. unfold Py.strip. now rewrite lstrip_no_lead. Qed.

Lemma strip_idempotent (s : string) : Py.strip (Py.strip s) = Py.strip s.
Proof.
  apply strip_fixed; [apply strip_no_lead | apply rstrip_idempotent].
Qed.

End StringFacts.

(** ** The name normalizer *)

Section NormalizerFacts.

Import Normalizer.

Ltac by_cases c := destruct c as [[] [] [] [] [] [] [] []]; vm_compute; congruence.

Lemma lower_settled_normal (c : ascii) :
  Spec.settled_char c = true -> Spec.normal_char (Py.lower_char c) = true.
Proof. by_cases c. Qed.

Lemma normal_no_closer (c : ascii) : Spec.normal_char c = true -> closer c = None.
Proof. by_cases c. Qed.

Lemma normal_prefix_char (c : ascii) :
  Spec.normal_char c = true -> Py.isdigit c = false -> Py.isspace c = false ->
  is_prefix_char c = false.
Proof. by_cases c. Qed.

Lemma normal_separator (c : ascii) :
  Spec.normal_char c = true -> is_separator c = Ascii.eqb c " "%char.
Proof. by_cases c. Qed.

Lemma normal_kept (c : ascii) : Spec.normal_char c = true -> is_kept c = true.
Proof. by_cases c. Qed.

Lemma normal_lower (c : ascii) : Spec.normal_char c = true -> Py.lower_char c = c.
Proof. by_cases c. Qed.

Lemma settled_after_patterns (b : bool) (s : string) :
  Spec.all_chars Spec.settled_char (remove_special (replace_separators_from b s)) = true.
Proof.
  revert b; induction s as [|c r IH]; intros b; simpl; [reflexivity |].
  destruct (is_separator c) eqn:Es.
  - destruct b; [apply IH |]. simpl. apply IH.
  - simpl. destruct (is_kept c) eqn:Ek; [|apply IH].
    simpl. unfold Spec.settled_char at 1. rewrite Ek, Es. simpl. apply IH.
Qed.

(** A normalized name is made of lower-case letters, digits, apostrophes
    and single spaces only. *)
Lemma normalize_name_chars (s : string) :
  Spec.all_chars Spec.normal_char (normalize_name s) = true.
Proof.
  unfold normalize_name, replace_separators.
  apply all_chars_strip, (all_chars_lower Spec.settled_char).
  - apply lower_settled_normal.
  - apply settled_after_patterns.
Qed.

Lemma remove_bracketed_normal (s : string) :
  Spec.all_chars Spec.normal_char s = true -> remove_bracketed s = s.
Proof.
  induction s as [|c r IH]; simpl; [reflexivity |].
  rewrite andb_true_iff. intros [Hc Hr].
  rewrite (normal_no_closer c Hc). now rewrite IH.
Qed.

Lemma remove_numeric_prefix_normal (s : string) :
  Spec.all_chars Spec.normal_char s = true ->
  Spec.no_lead s = true -> Spec.starts_with_digit s = false ->
  remove_numeric_prefix s = s.
Proof.
  destruct s as [|c r]; simpl; [reflexivity |].
  rewrite andb_true_iff, negb_true_iff. intros [Hc _] Hs Hd.
  now rewrite (normal_prefix_char c Hc Hd Hs).
Qed.

Lemma replace_separators_normal (b : bool) (s : string) :
  Spec.all_chars Spec.normal_char s = true ->
  Spec.has_double_space s = false ->
  negb b || negb (Py.startswith s " ") = true ->
  replace_separators_from b s = s.
Proof.
  unfold Spec.has_double_space.
  revert b; induction s as [|c r IH]; intros b; simpl; [reflexivity |].
  rewrite andb_true_iff. intros [Hc Hr].
  rewrite (normal_separator c Hc), orb_false_iff. intros [Hst Hco] Hb.
  destruct (Ascii.eqb_spec c " "%char) as [->|Hne].
  - destruct b; [simpl in Hb; discriminate |].
    rewrite IH; auto. simpl in Hst. simpl. now rewrite Hst.
  - rewrite IH; auto.
Qed.

Lemma remove_special_normal (s : string) :
  Spec.all_chars Spec.normal_char s = true -> remove_special s = s.
Proof.
  induction s as [|c r IH]; simpl; [reflexivity |].
  rewrite andb_true_iff. intros [Hc Hr].
  rewrite (normal_kept c Hc). now rewrite IH.
Qed.

Lemma lower_normal (s : string) :
  Spec.all_chars Spec.normal_char s = true -> Py.lower s = s.
Proof.
  induction s as [|c r IH]; simpl; [reflexivity |].
  rewrite andb_true_iff. intros [Hc Hr].
  rewrite (normal_lower c Hc). now rewrite IH.
Qed.

(** The fixed points of the normalizer among the strings it can return. *)
Lemma normalize_name_fixed (o : string) :
  Spec.all_chars Spec.normal_char o = true ->
  Spec.no_lead o = true -> Py.rstrip o = o ->
  Spec.starts_with_digit o = false -> Spec.has_double_space o = false ->
  normalize_name o = o.
Proof.
  intros Hall Hlead Hr Hd Hs. unfold normalize_name, replace_separators.
  rewrite (remove_bracketed_normal o Hall), (strip_fixed o Hlead Hr).
  rewrite (remove_numeric_prefix_normal o Hall Hlead Hd), (strip_fixed o Hlead Hr).
  rewrite (replace_separators_normal false o Hall Hs eq_refl).
  rewrite (remove_special_normal o Hall), (lower_normal o Hall).
  apply (strip_fixed o Hlead Hr).
Qed.

Lemma normal_space (c : ascii) :
  Spec.normal_char c = true -> Py.isspace c = Ascii.eqb c " "%char.
Proof. by_cases c. Qed.

Lemma prefix_char_digit (c : ascii) :
  is_prefix_char c = false -> Py.isdigit c = false /\ Py.isspace c = false.
Proof.
  unfold is_prefix_char. rewrite !orb_false_iff. tauto.
Qed.

Lemma separator_not_digit (c : ascii) : is_separator c = true -> Py.isdigit c = false.
Proof. by_cases c. Qed.

Lemma rstrip_prefix (s : string) : exists ws, s = Py.rstrip s +:+ ws.
Proof.
  induction s as [|c r [ws IH]]; [now exists "" |]. simpl.
  destruct (Py.rstrip r) as [|a r'] eqn:E.
  - destruct (Py.isspace c).
    + now exists (String c r).
    + exists ws. rewrite append_cons. now rewrite <- IH.
  - exists ws. rewrite append_cons. now rewrite <- IH.
Qed.

Lemma lstrip_suffix (s : string) : exists ws, s = ws +:+ Py.lstrip s.
Proof.
  induction s as [|c r [ws IH]]; [now exists "" |]. simpl.
  destruct (Py.isspace c).
  - exists (String c ws). rewrite append_cons. now rewrite <- IH.
  - now exists "".
Qed.

Lemma has_double_space_strip (s : string) :
  Spec.has_double_space s = false -> Spec.has_double_space (Py.strip s) = false.
Proof.
  unfold Spec.has_double_space, Py.strip. intros H.
  destruct (Py.contains (Py.rstrip (Py.lstrip s)) "  ") eqn:E; [|reflexivity].
  apply contains_spec in E as (pre & post & E).
  destruct (rstrip_prefix (Py.lstrip s)) as (ws1 & H1).
  destruct (lstrip_suffix s) as (ws2 & H2).
  assert (Hc : Py.contains s "  " = true).
  { apply contains_spec. exists (ws2 +:+ pre), (post +:+ ws1).
    rewrite H2 at 1. rewrite H1 at 1. rewrite E. now rewrite !append_assoc. }
  congruence.
Qed.

Lemma starts_with_digit_rstrip (s : string) :
  Spec.starts_with_digit s = false -> Spec.starts_with_digit (Py.rstrip s) = false.
Proof.
  destruct s as [|c r]; simpl; [reflexivity |]. intros H.
  destruct (Py.rstrip r); [|exact H].
  destruct (Py.isspace c); [reflexivity | exact H].
Qed.

Lemma starts_with_digit_strip (s : string) :
  Spec.no_lead s = true -> Spec.starts_with_digit s = false ->
  Spec.starts_with_digit (Py.strip s) = false.
Proof.
  intros Hl Hd. unfold Py.strip. rewrite (lstrip_no_lead s Hl).
  now apply starts_with_digit_rstrip.
Qed.

Lemma all_chars_tail_of_prefix (P : ascii -> bool) (s : string) :
  Spec.all_chars P s = true -> Spec.all_chars P (remove_numeric_prefix s) = true.
Proof.
  induction s as [|c r IH]; simpl; [reflexivity |].
  rewrite andb_true_iff. intros [Hc Hr].
  destruct (is_prefix_char c); [auto | simpl; now rewrite Hc, Hr].
Qed.

Lemma remove_numeric_prefix_head (s : string) :
  Spec.starts_with_digit (remove_numeric_prefix s) = false
  /\ Spec.no_lead (remove_numeric_prefix s) = true.
Proof.
  induction s as [|c r IH]; simpl; [now split |].
  destruct (is_prefix_char c) eqn:E; [exact IH |].
  apply prefix_char_digit in E as [Hd Hs]. simpl. now rewrite Hd, Hs.
Qed.

Lemma all_chars_replace_separators (P : ascii -> bool) (b : bool) (s : string) :
  P " "%char = true -> Spec.all_chars P s = true ->
  Spec.all_chars P (replace_separators_from b s) = true.
Proof.
  intros Hsp. revert b; induction s as [|c r IH]; intros b; simpl; [reflexivity |].
  rewrite andb_true_iff. intros [Hc Hr].
  destruct (is_separator c); [destruct b |]; simpl; rewrite ?Hsp, ?Hc; simpl; auto.
Qed.

(** The third pattern never leaves two spaces in a row, nor a space right
    after a run that it is replacing. *)
Lemma replace_separators_single (b : bool) (s : string) :
  Spec.has_double_space (replace_separators_from b s) = false
  /\ (b = true -> Py.startswith (replace_separators_from b s) " " = false).
Proof.
  unfold Spec.has_double_space.
  revert b; induction s as [|c r IH]; intros b; simpl;
    [split; [reflexivity | now destruct b] |].
  destruct (is_separator c) eqn:Es.
  - destruct b.
    + apply IH.
    + destruct (IH true) as [H1 H2]. split; [|discriminate].
      rewrite contains_cons, H1, orb_false_r.
      change (Ascii.eqb " " " " && Py.startswith (replace_separators_from true r) " "
              = false).
      now rewrite (H2 eq_refl).
  - destruct (IH false) as [H1 _].
    assert (Hc : Ascii.eqb " "%char c = false).
    { destruct (Ascii.eqb_spec " "%char c) as [<-|]; [|reflexivity].
      vm_compute in Es. discriminate. }
    split; [|intros _].
    + rewrite contains_cons, H1, orb_false_r.
      change (Ascii.eqb " " c && Py.startswith (replace_separators_from false r) " "
              = false).
      now rewrite Hc.
    + change (Ascii.eqb " " c && true = false). now rewrite Hc.
Qed.

Lemma replace_separators_head (s : string) :
  Spec.all_chars Spec.normal_char s = true ->
  Spec.no_lead s = true -> Spec.starts_with_digit s = false ->
  Spec.no_lead (replace_separators_from false s) = true
  /\ Spec.starts_with_digit (replace_separators_from false s) = false.
Proof.
  destruct s as [|c r]; simpl; [now split |].
  rewrite andb_true_iff, negb_true_iff. intros [Hc _] Hs Hd.
  rewrite (normal_separator c Hc), <- (normal_space c Hc), Hs. simpl.
  now rewrite Hs, Hd.
Qed.

(** A name that has been normalized once normalizes to a name that neither
    starts with a digit nor has two spaces in a row. *)
Lemma normalize_name_settles (s : string) :
  Spec.starts_with_digit (normalize_name (normalize_name s)) = false
  /\ Spec.has_double_space (normalize_name (normalize_name s)) = false.
Proof.
  pose proof (normalize_name_chars s) as Hall.
  set (o := normalize_name s) in *.
  assert (Hlead : Spec.no_lead o = true) by (unfold o, normalize_name; apply strip_no_lead).
  assert (Hr : Py.rstrip o = o)
    by (unfold o, normalize_name, Py.strip; apply rstrip_idempotent).
  unfold normalize_name, replace_separators.
  rewrite (remove_bracketed_normal o Hall), (strip_fixed o Hlead Hr).
  set (x := Py.strip (remove_numeric_prefix o)).
  assert (Hx : Spec.all_chars Spec.normal_char x = true)
    by (apply all_chars_strip, all_chars_tail_of_prefix, Hall).
  assert (Hxl : Spec.no_lead x = true) by apply strip_no_lead.
  assert (Hxd : Spec.starts_with_digit x = false).
  { destruct (remove_numeric_prefix_head o) as [Hd Hl].
    now apply starts_with_digit_strip. }
  set (y := replace_separators_from false x).
  assert (Hy : Spec.all_chars Spec.normal_char y = true)
    by (now apply all_chars_replace_separators).
  destruct (replace_separators_head x Hx Hxl Hxd) as [Hyl Hyd]. fold y in Hyl, Hyd.
  destruct (replace_separators_single false x) as [Hys _]. fold y in Hys.
  rewrite (remove_special_normal y Hy), (lower_normal y Hy). split.
  - now apply starts_with_digit_strip.
  - now apply has_double_space_strip.
Qed.

(** X1: from the second application on, the normalizer returns its argument. *)
Theorem normalize_name_idempotent_from_second (s : string) :
  normalize_name (normalize_name (normalize_name s))
  = normalize_name (normalize_name s).
Proof.
  destruct (normalize_name_settles s) as [Hd Hs].
  apply normalize_name_fixed; auto.
  - apply normalize_name_chars.
  - unfold normalize_name at 1. apply strip_no_lead.
  - unfold normalize_name at 1 3, Py.strip. apply rstrip_idempotent.
Qed.

(** C3 (as the specification states it, refuted): the third example does
    not normalize to ["sonic the hedgehog2"]; the colon is a separator and
    leaves a space. *)
Lemma normalize_name_sonic_example_fails :
  ~ (normalize_name "Super Mario Bros. (USA) [!]" = "super mario bros"
     /\ normalize_name "001 - Legend of Zelda" = "legend of zelda"
     /\ normalize_name "Sonic_The-Hedgehog:2" = "sonic the hedgehog2").
Proof. intros (_ & _ & H). vm_compute in H. discriminate H. Qed.

(** C3 (amended): the three example names normalize to
    ["super mario bros"], ["legend of zelda"] and ["sonic the hedgehog 2"]. *)
Theorem normalize_name_examples :
  normalize_name "Super Mario Bros. (USA) [!]" = "super mario bros"
  /\ normalize_name "001 - Legend of Zelda" = "legend of zelda"
  /\ normalize_name "Sonic_The-Hedgehog:2" = "sonic the hedgehog 2".
Proof. repeat split; vm_compute; reflexivity. Qed.

(** C2 (as the specification states it, refuted): characters removed by the
    fourth pattern can bring two spaces together, which a second pass
    collapses. *)
Lemma normalize_name_not_idempotent :
  normalize_name (normalize_name "Mario & Luigi") <> normalize_name "Mario & Luigi".
Proof. vm_compute. discriminate. Qed.

(** They can also uncover a numeric prefix, which a second pass removes. *)
Example normalize_name_uncovers_prefix :
  normalize_name "#1 Racer" = "1 racer" /\ normalize_name "1 racer" = "racer".
Proof. split; vm_compute; reflexivity. Qed.

(** C2 (amended): normalizing twice gives the same as normalizing once for
    every name whose normalized form neither starts with a digit nor
    contains two spaces in a row. *)
Theorem normalize_name_idempotent_on_settled (s : string) :
  Spec.starts_with_digit (normalize_name s) = false ->
  Spec.has_double_space (normalize_name s) = false ->
  normalize_name (normalize_name s) = normalize_name s.
Proof.
  intros Hd Hs. apply normalize_name_fixed; auto.
  - apply normalize_name_chars.
  - unfold normalize_name. apply strip_no_lead.
  - unfold normalize_name, Py.strip. apply rstrip_idempotent.
Qed.

Lemma normalize_name_idempotent_on_settled_witness :
  normalize_name (normalize_name "Super Mario Bros. (USA) [!]")
  = normalize_name "Super Mario Bros. (USA) [!]".
Proof.
  apply (normalize_name_idempotent_on_settled "Super Mario Bros. (USA) [!]");
    vm_compute; reflexivity.
Defined.

End NormalizerFacts.

(** ** The rank vector and the choice of the best version *)

Section RankingFacts.

Lemma get_rom_rank_vector_spec (filename : string) (criteria : list string) :
  Spec.rank_vector_of filename criteria (get_rom_rank_vector filename criteria).
Proof.
  unfold Spec.rank_vector_of, get_rom_rank_vector. split.
  - apply length_map.
  - intros i criterion Hi. rewrite list_lookup_fmap, Hi. simpl.
    destruct (Py.contains filename criterion) eqn:E.
    + left. split; [now apply contains_spec | reflexivity].
    + right. split; [|reflexivity].
      intros H. apply contains_spec in H. congruence.
Qed.

Lemma list_gt_spec (a b : list nat) : Py.list_gt a b = true <-> Spec.lex_lt b a.
Proof.
  revert b; induction a as [|x a IH]; intros [|y b]; simpl.
  - split; [discriminate | inversion 1].
  - split; [discriminate | inversion 1].
  - split; [constructor | reflexivity].
  - rewrite orb_true_iff, andb_true_iff, Nat.ltb_lt, Nat.eqb_eq, IH. split.
    + intros [H | [-> H]]; [now apply Spec.lex_lt_head | now apply Spec.lex_lt_tail].
    + inversion 1; subst; [now left | now right].
Qed.

Lemma list_gt_false (a b : list nat) : Py.list_gt a b = false -> Spec.lex_le a b.
Proof.
  unfold Spec.lex_le.
  revert b; induction a as [|x a IH]; intros [|y b]; simpl; try discriminate.
  - now left.
  - intros _. right. constructor.
  - rewrite orb_false_iff, andb_false_iff, Nat.ltb_ge, Nat.eqb_neq.
    intros [Hle [Hne | Hgt]].
    + right. apply Spec.lex_lt_head. lia.
    + destruct (decide (x = y)) as [->|Hne].
      * destruct (IH b Hgt) as [-> | Hlt]; [now left | right].
        now apply Spec.lex_lt_tail.
      * right. apply Spec.lex_lt_head. lia.
Qed.

Lemma lex_lt_trans (a b c : list nat) :
  Spec.lex_lt a b -> Spec.lex_lt b c -> Spec.lex_lt a c.
Proof.
  intros Hab; revert c; induction Hab; intros c Hbc; inversion Hbc; subst.
  - constructor.
  - constructor.
  - apply Spec.lex_lt_head. lia.
  - now apply Spec.lex_lt_head.
  - now apply Spec.lex_lt_head.
  - apply Spec.lex_lt_tail. now apply IHHab.
Qed.

Lemma lex_le_lt_trans (a b c : list nat) :
  Spec.lex_le a b -> Spec.lex_lt b c -> Spec.lex_lt a c.
Proof. intros [-> | H] Hbc; [exact Hbc | now apply (lex_lt_trans a b c)]. Qed.

Lemma lex_le_trans (a b c : list nat) :
  Spec.lex_le a b -> Spec.lex_le b c -> Spec.lex_le a c.
Proof.
  intros Hab [<- | Hbc]; [exact Hab | right; now apply (lex_le_lt_trans a b c)].
Qed.

Variable criteria : list string.

Abbreviation rank_of := (Spec.rank_of criteria).
Abbreviation best_after := (Spec.best_after criteria).

Lemma best_after_step (seen : list path) (b : Sorter.best) (rom_path : path) :
  best_after seen b ->
  best_after (seen ++ [rom_path]) (Sorter.rank_step criteria b rom_path).
Proof.
  intros Hb. unfold Sorter.rank_step. fold (rank_of rom_path). right.
  destruct Hb as [[-> ->] | (i & winner & -> & Hi & Hmax & Hfirst)].
  - simpl. exists 0, rom_path. repeat split.
    + intros p Hp. apply list_elem_of_singleton in Hp as ->. now left.
    + intros j p Hj. lia.
  - simpl. destruct (Py.list_gt (rank_of rom_path) (rank_of winner)) eqn:E.
    + apply list_gt_spec in E. exists (length seen), rom_path. repeat split.
      * rewrite lookup_app_r by lia. now rewrite Nat.sub_diag.
      * intros p Hp. apply elem_of_app in Hp as [Hp | Hp].
        -- right. apply (lex_le_lt_trans _ (rank_of winner)); auto.
        -- apply list_elem_of_singleton in Hp as ->. now left.
      * intros j p Hj Hp. rewrite lookup_app_l in Hp by lia.
        apply (lex_le_lt_trans _ (rank_of winner)); [|exact E].
        apply Hmax. apply list_elem_of_lookup. now exists j.
    + apply list_gt_false in E. exists i, winner. repeat split.
      * apply lookup_app_l_Some. exact Hi.
      * intros p Hp. apply elem_of_app in Hp as [Hp | Hp]; [now apply Hmax |].
        apply list_elem_of_singleton in Hp as ->. exact E.
      * intros j p Hj Hp. apply (Hfirst j p Hj).
        apply lookup_lt_Some in Hi. rewrite lookup_app_l in Hp by lia. exact Hp.
Qed.

Lemma best_after_fold (rom_paths seen : list path) (b : Sorter.best) :
  best_after seen b ->
  best_after (seen ++ rom_paths) (fold_left (Sorter.rank_step criteria) rom_paths b).
Proof.
  revert seen b; induction rom_paths as [|p l IH]; intros seen b Hb; simpl.
  - now rewrite app_nil_r.
  - replace (seen ++ p :: l) with ((seen ++ [p]) ++ l) by now rewrite <- app_assoc.
    apply IH. now apply best_after_step.
Qed.

(** The ranking loop returns the fold of its pure step and only adds debug
    records. *)
Lemma rank_group_run (rom_paths : list path) (b : Sorter.best) (w : world) :
  for_fold rom_paths
    (fun b rom_path =>
       log DEBUG (MsgFoundRom (Pathlib.name rom_path) (rank_of rom_path)) ;;
       ret (Sorter.rank_step criteria b rom_path))%io b w
  = (Returned (fold_left (Sorter.rank_step criteria) rom_paths b),
     World (fs w)
       (trace w ++ List.map (fun p => Log DEBUG (MsgFoundRom (Pathlib.name p) (rank_of p)))
                            rom_paths)).
Proof.
  revert b w; induction rom_paths as [|p l IH]; intros b w; simpl.
  - rewrite app_nil_r. now destruct w.
  - unfold bind at 1. unfold bind at 1. unfold log, emit, ret. simpl.
    rewrite IH. simpl. now rewrite <- app_assoc.
Qed.

End RankingFacts.

(** ** Reasoning about computations *)

Section Triples.

Context {R : Fs.node -> Fs.node -> Prop} `{!PreOrder R}.
Context {P : event -> Prop}.

Lemma satisfies_ret {A} (Q : A -> Prop) (a : A) :
  Q a -> Spec.satisfies R P Q (ret a).
Proof.
  intros HQ w. exists []. simpl. rewrite app_nil_r.
  split; [reflexivity | split; [constructor | split; [reflexivity |]]].
  intros a' [= <-]. exact HQ.
Qed.

Lemma satisfies_bind {A B} (Q : A -> Prop) (Q' : B -> Prop) (m : M A) (k : A -> M B) :
  Spec.satisfies R P Q m ->
  (forall a, Q a -> Spec.satisfies R P Q' (k a)) ->
  Spec.satisfies R P Q' (bind m k).
Proof.
  intros Hm Hk w. destruct (Hm w) as (evs & Ht & HP & HR & HQ).
  unfold bind. destruct (m w) as [[a|e] w1]; simpl in *.
  - destruct (Hk a (HQ a eq_refl) w1) as (evs' & Ht' & HP' & HR' & HQ').
    exists (evs ++ evs'). rewrite Ht', Ht, app_assoc.
    split; [reflexivity | split; [now apply Forall_app | split; [|exact HQ']]].
    now transitivity (fs w1).
  - exists evs. split; [exact Ht | split; [exact HP | split; [exact HR |]]].
    discriminate.
Qed.

Lemma satisfies_weaken {A} (Q Q' : A -> Prop) (m : M A) :
  (forall a, Q a -> Q' a) -> Spec.satisfies R P Q m -> Spec.satisfies R P Q' m.
Proof.
  intros HQQ Hm w. destruct (Hm w) as (evs & Ht & HP & HR & HQ).
  exists evs. split; [exact Ht | split; [exact HP | split; [exact HR |]]].
  intros a Ha. apply HQQ, HQ, Ha.
Qed.

Lemma satisfies_emit (e : event) :
  P e -> Spec.satisfies R P (fun _ => True) (emit e).
Proof.
  intros He w. exists [e]. simpl.
  split; [reflexivity | split; [now constructor | split; [reflexivity | auto]]].
Qed.

Lemma satisfies_log (l : level) (m : message) :
  P (Log l m) -> Spec.satisfies R P (fun _ => True) (log l m).
Proof. apply satisfies_emit. Qed.

Lemma satisfies_ask {A} (f : Fs.node -> A) :
  Spec.satisfies R P (fun _ => True) (ask f).
Proof.
  intros w. exists []. simpl. rewrite app_nil_r.
  split; [reflexivity | split; [constructor | split; [reflexivity | auto]]].
Qed.

Lemma satisfies_mutate (e : event) (p : path) (f : Fs.node -> option Fs.node) :
  P e -> (forall t t', f t = Some t' -> R t t') ->
  Spec.satisfies R P (fun _ => True) (mutate e p f).
Proof.
  intros He Hf w. exists [e]. unfold mutate, bind, emit. simpl.
  destruct (f (fs w)) as [t|] eqn:E; simpl;
    (split; [reflexivity | split; [now constructor | split; [| auto]]]).
  - now apply Hf.
  - reflexivity.
Qed.

Lemma satisfies_try_except {A} (Q : A -> Prop) (m : M A) (h : exn -> M A) :
  Spec.satisfies R P Q m -> (forall e, Spec.satisfies R P Q (h e)) ->
  Spec.satisfies R P Q (try_except m h).
Proof.
  intros Hm Hh w. destruct (Hm w) as (evs & Ht & HP & HR & HQ).
  unfold try_except. destruct (m w) as [[a|e] w1]; simpl in *.
  - exists evs. split; [exact Ht | split; [exact HP | split; [exact HR | exact HQ]]].
  - destruct (Hh e w1) as (evs' & Ht' & HP' & HR' & HQ').
    exists (evs ++ evs'). rewrite Ht', Ht, app_assoc.
    split; [reflexivity | split; [now apply Forall_app | split; [|exact HQ']]].
    now transitivity (fs w1).
Qed.

Lemma satisfies_for_each {A} (xs : list A) (body : A -> M unit) :
  (forall x, x ∈ xs -> Spec.satisfies R P (fun _ => True) (body x)) ->
  Spec.satisfies R P (fun _ => True) (for_each xs body).
Proof.
  induction xs as [|x r IH]; intros Hb; simpl.
  - now apply satisfies_ret.
  - apply (satisfies_bind (fun _ => True)).
    + apply Hb. left.
    + intros _ _. apply IH. intros y Hy. apply Hb. now right.
Qed.

Lemma satisfies_for_fold {A S} (I : S -> Prop) (xs : list A)
      (body : S -> A -> M S) (acc : S) :
  I acc -> (forall s x, I s -> Spec.satisfies R P I (body s x)) ->
  Spec.satisfies R P I (for_fold xs body acc).
Proof.
  intros Hacc Hb. revert acc Hacc. induction xs as [|x r IH]; intros acc Hacc; simpl.
  - now apply satisfies_ret.
  - apply (satisfies_bind I); auto.
Qed.

End Triples.

(** ** What each part of a run emits and changes *)

#[global] Instance frame_preorder (dry_run : bool) : PreOrder (Spec.frame dry_run).
Proof.
  split.
  - intros t _. reflexivity.
  - intros t1 t2 t3 H12 H23 Hd. now rewrite (H12 Hd), (H23 Hd).
Qed.

Section RunFacts.

Lemma process_roms_unfold (config : Config) (dry_run : bool) :
  Sorter.process_roms config dry_run
  = (log INFO MsgStart ;;
     log INFO (MsgDryRunMode dry_run) ;;
     source_is_dir <- ask (Fs.is_dir (rom_source_dir config)) ;;
     if negb source_is_dir then log ERROR (MsgSourceNotFound (rom_source_dir config))
     else
       mkdir_parents_exist_ok (rom_destination_dir config) ;;
       mkdir_parents_exist_ok (archive_dir config) ;;
       Spec.after_setup config dry_run)%io.
Proof. reflexivity. Qed.

Ltac quiet_log :=
  split; [intros (? & ? & ?); discriminate | intros _; exact I].
Ltac quiet_live :=
  split; [intros (? & ? & ?); discriminate | discriminate].

Lemma handle_file_move_quiet (source_path dest_path : path) (dry_run is_archive : bool) :
  Spec.satisfies (Spec.frame dry_run) (Spec.quiet dry_run) (fun _ => True)
    (handle_file_move source_path dest_path dry_run is_archive).
Proof.
  unfold handle_file_move.
  apply (satisfies_bind (fun _ => True)); [apply satisfies_ask |].
  intros [|] _; [apply satisfies_log; quiet_log |].
  destruct dry_run; [apply satisfies_log; quiet_log |].
  apply satisfies_try_except.
  - apply (satisfies_bind (fun _ => True)); [apply satisfies_log; quiet_live |].
    intros _ _. apply satisfies_mutate; [quiet_live | discriminate].
  - intros e. apply satisfies_log; quiet_live.
Qed.

Lemma remove_file_quiet (dry_run : bool) (file_path : path) :
  Spec.satisfies (Spec.frame dry_run) (Spec.quiet dry_run) (fun _ => True)
    (Cleaner.remove_file dry_run file_path).
Proof.
  unfold Cleaner.remove_file.
  destruct dry_run; [apply satisfies_log; quiet_log |].
  apply satisfies_try_except.
  - apply (satisfies_bind (fun _ => True)); [apply satisfies_log; quiet_live |].
    intros _ _. apply satisfies_mutate; [quiet_live | discriminate].
  - intros e. apply satisfies_log; quiet_live.
Qed.

Lemma cleanup_quiet (source_dir : path) (dry_run : bool) (excluded : list string) :
  Spec.satisfies (Spec.frame dry_run) (Spec.quiet dry_run) (fun _ => True)
    (Cleaner.cleanup_unzipped_duplicates source_dir dry_run excluded).
Proof.
  unfold Cleaner.cleanup_unzipped_duplicates.
  apply (satisfies_bind (fun _ => True)); [apply satisfies_log; quiet_log |].
  intros _ _. apply (satisfies_bind (fun _ => True)); [apply satisfies_ask |].
  intros steps _. apply (satisfies_bind (fun _ => True)).
  - apply satisfies_for_each. intros [[dirpath dirs] filenames] _.
    unfold Cleaner.clean_directory. case_bool_decide.
    + now apply satisfies_ret.
    + apply satisfies_for_each. intros file_path _. apply remove_file_quiet.
  - intros _ _. apply satisfies_log; quiet_log.
Qed.

Lemma add_to_group_nonempty (key : string * string) (filepath : path)
      (roms_by_game : Sorter.groups) :
  Spec.all_nonempty roms_by_game ->
  Spec.all_nonempty (Sorter.add_to_group key filepath roms_by_game).
Proof.
  unfold Spec.all_nonempty. induction 1 as [|[k l] r Hl Hr IH]; simpl.
  - repeat constructor. discriminate.
  - case_decide; constructor; simpl; auto. now destruct l.
Qed.

Lemma scan_file_quiet (dry_run : bool) (excluded_dirs excluded_extensions : list string)
      (roms_by_game : Sorter.groups) (filepath : path) :
  Spec.all_nonempty roms_by_game ->
  Spec.satisfies (Spec.frame dry_run) (Spec.quiet dry_run) Spec.all_nonempty
    (Sorter.scan_file excluded_dirs excluded_extensions roms_by_game filepath).
Proof.
  intros Hne. unfold Sorter.scan_file.
  apply (satisfies_bind (fun _ => True)); [apply satisfies_ask |].
  intros [|] _; [|now apply satisfies_ret].
  case_bool_decide.
  - apply (satisfies_bind (fun _ => True)); [apply satisfies_log; quiet_log |].
    intros _ _. now apply satisfies_ret.
  - destruct (Sorter.in_excluded_dir _ _).
    + apply (satisfies_bind (fun _ => True)); [apply satisfies_log; quiet_log |].
      intros _ _. now apply satisfies_ret.
    + apply satisfies_ret. now apply add_to_group_nonempty.
Qed.

Lemma rank_group_quiet (dry_run : bool) (criteria : list string) (rom_paths : list path) :
  rom_paths <> [] ->
  Spec.satisfies (Spec.frame dry_run) (Spec.quiet dry_run)
    (fun b => exists winner v, b = (Some winner, v))
    (Sorter.rank_group criteria rom_paths).
Proof.
  intros Hne w. unfold Sorter.rank_group.
  pose proof (rank_group_run criteria rom_paths (None, None) w) as Hrun.
  unfold Spec.rank_of in Hrun. rewrite Hrun. simpl. eexists.
  split; [reflexivity | split; [| split]].
  - apply Forall_forall. intros e He. apply list_elem_of_In, in_map_iff in He.
    destruct He as (p & <- & _). quiet_log.
  - intros _. reflexivity.
  - intros b [= <-].
    destruct (best_after_fold criteria rom_paths [] (None, None)) as [[H _] | H].
    + now left.
    + simpl in H. contradiction.
    + destruct H as (i & winner & -> & _). now exists winner, (Some (Spec.rank_of criteria winner)).
Qed.

Lemma process_group_quiet (config : Config) (dry_run : bool)
      (key : string * string) (rom_paths : list path) :
  rom_paths <> [] ->
  Spec.satisfies (Spec.frame dry_run) (Spec.quiet dry_run) (fun _ => True)
    (Sorter.process_group config dry_run (key, rom_paths)).
Proof.
  intros Hne. destruct key as [game_name ext]. unfold Sorter.process_group.
  assert (Hmulti : Spec.satisfies (Spec.frame dry_run) (Spec.quiet dry_run) (fun _ => True)
    (log DEBUG (MsgGroup game_name ext (length rom_paths)) ;;
     b <- Sorter.rank_group (ranking_criteria config) rom_paths ;;
     match b with
     | (Some best_rom, best_rank_vector) =>
         log INFO (MsgBest game_name ext (Pathlib.name best_rom) best_rank_vector) ;;
         handle_file_move best_rom
           (Pathlib.child (rom_destination_dir config) (Pathlib.name best_rom))
           dry_run false ;;
         for_each rom_paths
           (fun rom_path =>
              if decide (rom_path <> best_rom)
              then handle_file_move rom_path
                     (Pathlib.child (archive_dir config) (Pathlib.name rom_path))
                     dry_run true
              else ret tt)
     | (None, _) => log WARNING (MsgNoBest game_name ext)
     end)%io).
  { apply (satisfies_bind (fun _ => True)); [apply satisfies_log; quiet_log |].
    intros _ _. eapply satisfies_bind; [now apply rank_group_quiet |].
    intros b (winner & v & ->).
    apply (satisfies_bind (fun _ => True)); [apply satisfies_log; quiet_log |].
    intros _ _.
    apply (satisfies_bind (fun _ => True)); [apply handle_file_move_quiet |].
    intros _ _. apply satisfies_for_each. intros rom_path _.
    case_decide; [apply handle_file_move_quiet | now apply satisfies_ret]. }
  destruct rom_paths as [|p [|q r]]; [contradiction | | exact Hmulti].
  apply (satisfies_bind (fun _ => True)); [apply satisfies_log; quiet_log |].
  intros _ _. apply handle_file_move_quiet.
Qed.

Lemma after_cleanup_quiet (config : Config) (dry_run : bool) :
  Spec.satisfies (Spec.frame dry_run) (Spec.quiet dry_run) (fun _ => True)
    (Spec.after_cleanup config dry_run).
Proof.
  unfold Spec.after_cleanup.
  apply (satisfies_bind (fun _ => True)); [apply satisfies_log; quiet_log |].
  intros _ _. apply (satisfies_bind (fun _ => True)); [apply satisfies_ask |].
  intros found _. apply (satisfies_bind Spec.all_nonempty).
  - apply satisfies_for_fold; [constructor |].
    intros s x Hs. now apply scan_file_quiet.
  - intros roms_by_game Hne.
    apply (satisfies_bind (fun _ => True)); [apply satisfies_log; quiet_log |].
    intros _ _. apply (satisfies_bind (fun _ => True)).
    + apply satisfies_for_each. intros [key rom_paths] Hin.
      apply process_group_quiet.
      unfold Spec.all_nonempty in Hne. rewrite Forall_forall in Hne.
      apply (Hne (key, rom_paths) Hin).
    + intros _ _. apply satisfies_log; quiet_log.
Qed.

Lemma after_setup_quiet (config : Config) (dry_run : bool) :
  Spec.satisfies (Spec.frame dry_run) (Spec.quiet dry_run) (fun _ => True)
    (Spec.after_setup config dry_run).
Proof.
  unfold Spec.after_setup.
  apply (satisfies_bind (fun _ => True)); [apply satisfies_log; quiet_log |].
  intros _ _. apply (satisfies_bind (fun _ => True)); [apply satisfies_log; quiet_log |].
  intros _ _. apply (satisfies_bind (fun _ => True)); [apply satisfies_log; quiet_log |].
  intros _ _. apply (satisfies_bind (fun _ => True)); [apply cleanup_quiet |].
  intros _ _. apply after_cleanup_quiet.
Qed.

End RunFacts.

(** ** The best version of a group *)

Section SelectionTheorems.

(** C4: in a group of at least two members the ranking loop selects the first
    member, in discovery order, whose rank vector is the lexicographic
    maximum of the group; the rank vector of a member has 1 exactly at the
    criteria that are substrings of its raw file name. *)
Theorem winner_is_first_lexicographic_maximum
        (criteria : list string) (rom_paths : list path) (w : world) :
  2 <= length rom_paths ->
  exists i winner w',
    Sorter.rank_group criteria rom_paths w
    = (Returned (Some winner, Some (Spec.rank_of criteria winner)), w')
    /\ rom_paths !! i = Some winner
    /\ (forall p, p ∈ rom_paths ->
          Spec.rank_vector_of (Pathlib.name p) criteria (Spec.rank_of criteria p)
          /\ Spec.lex_le (Spec.rank_of criteria p) (Spec.rank_of criteria winner))
    /\ (forall j p, j < i -> rom_paths !! j = Some p ->
          Spec.lex_lt (Spec.rank_of criteria p) (Spec.rank_of criteria winner)).
Proof.
  intros Hlen.
  pose proof (rank_group_run criteria rom_paths (None, None) w) as Hrun.
  destruct (best_after_fold criteria rom_paths [] (None, None)) as [[H _] | H].
  - now left.
  - simpl in H. subst rom_paths. simpl in Hlen. lia.
  - destruct H as (i & winner & Hb & Hi & Hmax & Hfirst). simpl in Hi, Hmax, Hfirst.
    exists i, winner. eexists. split; [|split; [exact Hi | split]].
    + unfold Sorter.rank_group. unfold Spec.rank_of in Hrun. rewrite Hrun.
      now rewrite Hb.
    + intros p Hp. split; [apply get_rom_rank_vector_spec | now apply Hmax].
    + exact Hfirst.
Qed.

Lemma winner_is_first_lexicographic_maximum_witness :
  exists i winner w',
    Sorter.rank_group ["[!]"] [["roms"; "Game (USA).zip"]; ["roms"; "Game [!].zip"]]
                      (World (Fs.Dir []) [])
    = (Returned (Some winner, Some (Spec.rank_of ["[!]"] winner)), w')
    /\ [["roms"; "Game (USA).zip"]; ["roms"; "Game [!].zip"]] !! i = Some winner
    /\ (forall p, p ∈ [["roms"; "Game (USA).zip"]; ["roms"; "Game [!].zip"]] ->
          Spec.rank_vector_of (Pathlib.name p) ["[!]"] (Spec.rank_of ["[!]"] p)
          /\ Spec.lex_le (Spec.rank_of ["[!]"] p) (Spec.rank_of ["[!]"] winner))
    /\ (forall j p, j < i ->
          [["roms"; "Game (USA).zip"]; ["roms"; "Game [!].zip"]] !! j = Some p ->
          Spec.lex_lt (Spec.rank_of ["[!]"] p) (Spec.rank_of ["[!]"] winner)).
Proof.
  apply (winner_is_first_lexicographic_maximum
           ["[!]"] [["roms"; "Game (USA).zip"]; ["roms"; "Game [!].zip"]]
           (World (Fs.Dir []) [])).
  simpl. lia.
Defined.

(** The loop on the two members of the end-to-end scenario. *)
Example rank_group_scenario :
  (Sorter.rank_group ["[!]"] [["roms"; "Game (USA).zip"]; ["roms"; "Game [!].zip"]]
                     (World (Fs.Dir []) [])).1
  = Returned (Some ["roms"; "Game [!].zip"], Some [1]).
Proof. vm_compute. reflexivity. Qed.

(** Ties go to the member met first. *)
Example rank_group_tie :
  (Sorter.rank_group ["[!]"] [["a"; "Game (E).zip"]; ["b"; "Game (U).zip"]]
                     (World (Fs.Dir []) [])).1
  = Returned (Some ["a"; "Game (E).zip"], Some [0]).
Proof. vm_compute. reflexivity. Qed.

(** C9: for a group that has a member the ranking loop ends with a best
    version, and processing the group never logs that no best version could
    be determined: such a record in the trace was there before. *)
Theorem best_version_always_found
        (config : Config) (dry_run : bool) (key : string * string)
        (rom_paths : list path) (w : world) :
  rom_paths <> [] ->
  (exists winner v w',
      Sorter.rank_group (ranking_criteria config) rom_paths w
      = (Returned (Some winner, v), w'))
  /\ forall e, Spec.is_no_best e ->
       e ∈ trace (Sorter.process_group config dry_run (key, rom_paths) w).2 ->
       e ∈ trace w.
Proof.
  intros Hne. split.
  - destruct (rank_group_quiet dry_run (ranking_criteria config) rom_paths Hne w)
      as (evs & _ & _ & _ & HQ).
    destruct (Sorter.rank_group (ranking_criteria config) rom_paths w) as [[b|e] w'] eqn:E.
    + destruct (HQ b eq_refl) as (winner & v & ->). now exists winner, v, w'.
    + exfalso. unfold Sorter.rank_group in E.
      pose proof (rank_group_run (ranking_criteria config) rom_paths (None, None) w) as Hrun.
      unfold Spec.rank_of in Hrun. rewrite Hrun in E. discriminate E.
  - intros e He Hin.
    destruct (process_group_quiet config dry_run key rom_paths Hne w)
      as (evs & Ht & HP & _ & _).
    rewrite Ht in Hin. apply elem_of_app in Hin as [Hin | Hin]; [exact Hin |].
    rewrite Forall_forall in HP. destruct (HP e Hin) as [Hno _]. contradiction.
Qed.

Lemma best_version_always_found_witness :
  (exists winner v w',
      Sorter.rank_group (ranking_criteria CONFIG_DEFAULTS) [["roms"; "Game [!].zip"]]
                        (World (Fs.Dir []) [])
      = (Returned (Some winner, v), w'))
  /\ forall e, Spec.is_no_best e ->
       e ∈ trace (Sorter.process_group CONFIG_DEFAULTS false
                    (("game", ".zip"), [["roms"; "Game [!].zip"]])
                    (World (Fs.Dir []) [])).2 ->
       e ∈ trace (World (Fs.Dir []) []).
Proof.
  apply (best_version_always_found CONFIG_DEFAULTS false ("game", ".zip")
           [["roms"; "Game [!].zip"]] (World (Fs.Dir []) [])).
  discriminate.
Defined.

(** The defensive branch is what an empty group would take. *)
Example empty_group_takes_the_defensive_branch :
  trace (Sorter.process_group CONFIG_DEFAULTS false (("game", ".zip"), [])
           (World (Fs.Dir []) [])).2
  = [Log DEBUG (MsgGroup "game" ".zip" 0); Log WARNING (MsgNoBest "game" ".zip")].
Proof. vm_compute. reflexivity. Qed.

End SelectionTheorems.

(** ** The relocator and the missing source directory *)

Section RelocationTheorems.

(** C6: when the destination path exists, a relocation request of either
    kind, dry or live, leaves the tree as it is, so the source stays where it
    was, and adds one warning that names the action and the destination. *)
Theorem handle_file_move_skips_existing_destination
        (source_path dest_path : path) (dry_run is_archive : bool) (w : world) :
  Fs.exists_ dest_path (fs w) = true ->
  handle_file_move source_path dest_path dry_run is_archive w
  = (Returned tt,
     World (fs w)
       (trace w ++ [Log WARNING (MsgSkipping (action_of is_archive) dest_path)])).
Proof.
  intros H. unfold handle_file_move, bind, ask. now rewrite H.
Qed.

Lemma handle_file_move_skips_existing_destination_witness :
  handle_file_move ["roms"; "a.zip"] ["sorted"; "a.zip"] false true
    (World (Fs.Dir [("roms", Fs.Dir [("a.zip", Fs.File "new")]);
                    ("sorted", Fs.Dir [("a.zip", Fs.File "old")])]) [])
  = (Returned tt,
     World (Fs.Dir [("roms", Fs.Dir [("a.zip", Fs.File "new")]);
                    ("sorted", Fs.Dir [("a.zip", Fs.File "old")])])
       ([] ++ [Log WARNING (MsgSkipping (action_of true) ["sorted"; "a.zip"])])).
Proof.
  apply (handle_file_move_skips_existing_destination
           ["roms"; "a.zip"] ["sorted"; "a.zip"] false true
           (World (Fs.Dir [("roms", Fs.Dir [("a.zip", Fs.File "new")]);
                           ("sorted", Fs.Dir [("a.zip", Fs.File "old")])]) [])).
  reflexivity.
Defined.

(** C7: when the source directory is missing, [process_roms] records the
    error and returns: the tree is unchanged and the trace gains the two
    opening records and the error, so neither [mkdir] nor the cleaner nor any
    removal or move takes place. *)
Theorem process_roms_stops_on_missing_source
        (config : Config) (dry_run : bool) (w : world) :
  Fs.is_dir (rom_source_dir config) (fs w) = false ->
  Sorter.process_roms config dry_run w
  = (Returned tt,
     World (fs w)
       (trace w ++ [Log INFO MsgStart; Log INFO (MsgDryRunMode dry_run);
                    Log ERROR (MsgSourceNotFound (rom_source_dir config))])).
Proof.
  intros H. rewrite process_roms_unfold. unfold bind, log, emit, ask. simpl.
  rewrite H. simpl. now rewrite <- !app_assoc.
Qed.

Lemma process_roms_stops_on_missing_source_witness :
  Sorter.process_roms CONFIG_DEFAULTS false (World (Fs.Dir [("roms", Fs.File "x")]) [])
  = (Returned tt,
     World (Fs.Dir [("roms", Fs.File "x")])
       ([] ++ [Log INFO MsgStart; Log INFO (MsgDryRunMode false);
               Log ERROR (MsgSourceNotFound (rom_source_dir CONFIG_DEFAULTS))])).
Proof.
  apply (process_roms_stops_on_missing_source CONFIG_DEFAULTS false
           (World (Fs.Dir [("roms", Fs.File "x")]) [])).
  reflexivity.
Defined.

End RelocationTheorems.

(** ** The file system *)

Section FsFacts.

Lemma assoc_alter_entry (k d : string) (f : Fs.node -> option Fs.node)
      (es es' : Fs.entries) :
  Fs.alter_entry k f es = Some es' ->
  Fs.assoc d es'
  = if String.eqb d k then match Fs.assoc k es with Some v => f v | None => None end
    else Fs.assoc d es.
Proof.
  revert es'; induction es as [|[n v] r IH]; intros es'; simpl; [discriminate |].
  destruct (String.eqb_spec n k) as [->|Hnk].
  - destruct (f v) as [v'|] eqn:Ef; [|discriminate]. intros [= <-]. simpl.
    destruct (String.eqb_spec d k) as [->|Hdk].
    + now rewrite String.eqb_refl.
    + destruct (String.eqb_spec k d) as [->|_]; [contradiction | reflexivity].
  - destruct (Fs.alter_entry k f r) as [r'|] eqn:Er; [|discriminate].
    intros [= <-]. simpl. rewrite (IH r' eq_refl).
    destruct (String.eqb_spec n d) as [->|Hnd].
    + destruct (String.eqb_spec d k) as [->|_]; [contradiction | reflexivity].
    + reflexivity.
Qed.

Lemma alter_entry_defined (k : string) (f : Fs.node -> option Fs.node)
      (es es' : Fs.entries) (v : Fs.node) :
  Fs.alter_entry k f es = Some es' -> Fs.assoc k es = Some v ->
  exists v', f v = Some v'.
Proof.
  revert es'; induction es as [|[n x] r IH]; intros es'; simpl; [discriminate |].
  destruct (String.eqb_spec n k) as [->|Hnk].
  - destruct (f x) as [x'|] eqn:Ef; [|discriminate].
    intros _ [= <-]. now exists x'.
  - destruct (Fs.alter_entry k f r) as [r'|]; [|discriminate].
    intros _ Ha. now apply (IH r').
Qed.

Lemma alter_entry_same (k : string) (f : Fs.node -> option Fs.node)
      (es : Fs.entries) (v : Fs.node) :
  Fs.assoc k es = Some v -> f v = Some v -> Fs.alter_entry k f es = Some es.
Proof.
  induction es as [|[n x] r IH]; simpl; [discriminate |].
  destruct (String.eqb_spec n k) as [->|Hnk].
  - intros [= ->] ->. reflexivity.
  - intros Ha Hf. now rewrite (IH Ha Hf).
Qed.

Lemma assoc_app_fresh (k d : string) (v : Fs.node) (es : Fs.entries) :
  Fs.assoc k es = None ->
  Fs.assoc d (es ++ [(k, v)]) = if String.eqb d k then Some v else Fs.assoc d es.
Proof.
  induction es as [|[n x] r IH]; simpl.
  - intros _. rewrite (String.eqb_sym k d). reflexivity.
  - destruct (String.eqb_spec n k) as [->|Hnk]; [discriminate |].
    intros Ha. rewrite (IH Ha).
    destruct (String.eqb_spec n d) as [->|Hnd]; [|reflexivity].
    destruct (String.eqb_spec d k) as [->|_]; [contradiction | reflexivity].
Qed.

(** [mkdir] on a directory that exists changes nothing. *)
Lemma mkdir_existing (p : path) (t : Fs.node) :
  Fs.is_dir p t = true -> Fs.mkdir p t = Some t.
Proof.
  unfold Fs.is_dir. revert t; induction p as [|c p IH]; intros t; simpl.
  - destruct t; [discriminate | reflexivity].
  - destruct t as [|es]; [discriminate |].
    destruct (Fs.assoc c es) as [v|] eqn:Ea; [|discriminate].
    intros H. now rewrite (alter_entry_same c (Fs.mkdir p) es v Ea (IH v H)).
Qed.

(** [mkdir] neither adds, removes nor changes a file. *)
Lemma mkdir_keeps_files (q : path) (t t' : Fs.node) :
  Fs.mkdir q t = Some t' ->
  forall p c, Fs.lookup p t' = Some (Fs.File c) <-> Fs.lookup p t = Some (Fs.File c).
Proof.
  revert t t'; induction q as [|k q IH]; intros t t'; simpl.
  - destruct t; [discriminate |]. now intros [= <-].
  - destruct t as [|es]; [discriminate |].
    destruct (Fs.assoc k es) as [v|] eqn:Ea.
    + destruct (Fs.alter_entry k (Fs.mkdir q) es) as [es'|] eqn:Ealt; [|discriminate].
      intros [= <-] [|d p] c; simpl; [split; discriminate |].
      rewrite (assoc_alter_entry k d _ es es' Ealt), Ea.
      destruct (String.eqb_spec d k) as [->|Hdk]; [|reflexivity].
      rewrite Ea. destruct (Fs.mkdir q v) as [v'|] eqn:Ev.
      * apply (IH v v' Ev).
      * destruct (alter_entry_defined k _ es es' v Ealt Ea) as (v' & Hv').
        congruence.
    + destruct (Fs.mkdir q (Fs.Dir [])) as [v|] eqn:Ev; [|discriminate].
      intros [= <-] [|d p] c; simpl; [split; discriminate |].
      rewrite (assoc_app_fresh k d v es Ea).
      destruct (String.eqb_spec d k) as [->|Hdk]; [|reflexivity].
      rewrite Ea, (IH _ v Ev p c). destruct p; simpl; split; discriminate.
Qed.

Lemma wf_dir (es : Fs.entries) :
  Fs.wf (Fs.Dir es) <-> NoDup (List.map fst es) /\ Forall (fun e => Fs.wf e.2) es.
Proof.
  simpl. apply and_iff_compat_l. induction es as [|e r IH]; simpl.
  - split; [constructor | trivial].
  - rewrite Forall_cons, IH. reflexivity.
Qed.

Lemma assoc_elem (k : string) (es : Fs.entries) (v : Fs.node) :
  Fs.assoc k es = Some v -> (k, v) ∈ es.
Proof.
  induction es as [|[n x] r IH]; simpl; [discriminate |].
  destruct (String.eqb_spec n k) as [->|Hnk].
  - intros [= ->]. left.
  - intros H. right. now apply IH.
Qed.

Lemma assoc_missing (k : string) (es : Fs.entries) :
  k ∉ List.map fst es -> Fs.assoc k es = None.
Proof.
  induction es as [|[n x] r IH]; simpl; [reflexivity |].
  intros H. apply not_elem_of_cons in H as [Hkn Hr].
  destruct (String.eqb_spec n k) as [->|_]; [contradiction | now apply IH].
Qed.

Lemma elem_assoc (k : string) (es : Fs.entries) (v : Fs.node) :
  NoDup (List.map fst es) -> (k, v) ∈ es -> Fs.assoc k es = Some v.
Proof.
  induction es as [|[n x] r IH]; simpl; intros Hnd Hin.
  - now apply elem_of_nil in Hin.
  - apply NoDup_cons in Hnd as [Hn Hnd].
    apply elem_of_cons in Hin as [[= -> ->] | Hin].
    + now rewrite String.eqb_refl.
    + destruct (String.eqb_spec n k) as [->|_]; [|now apply IH].
      exfalso. apply Hn. apply list_elem_of_fmap. now exists (k, v).
Qed.

Lemma assoc_remove_entry (n k : string) (es : Fs.entries) :
  NoDup (List.map fst es) ->
  Fs.assoc k (Fs.remove_entry n es) = if String.eqb k n then None else Fs.assoc k es.
Proof.
  induction es as [|[m x] r IH]; simpl; intros Hnd.
  - now destruct (String.eqb k n).
  - apply NoDup_cons in Hnd as [Hm Hnd].
    destruct (String.eqb_spec m n) as [->|Hmn].
    + destruct (String.eqb_spec k n) as [->|Hkn].
      * now apply assoc_missing.
      * destruct (String.eqb_spec n k) as [->|_]; [contradiction | reflexivity].
    + simpl. rewrite (IH Hnd).
      destruct (String.eqb_spec m k) as [->|_]; [|reflexivity].
      destruct (String.eqb_spec k n) as [->|_]; [contradiction | reflexivity].
Qed.

Lemma remove_entry_sublist (n : string) (es : Fs.entries) :
  sublist (Fs.remove_entry n es) es.
Proof.
  induction es as [|[m x] r IH]; simpl; [constructor |].
  destruct (String.eqb m n); [now apply sublist_cons | now apply sublist_skip].
Qed.

Lemma wf_remove_entry (n : string) (es : Fs.entries) :
  Fs.wf (Fs.Dir es) -> Fs.wf (Fs.Dir (Fs.remove_entry n es)).
Proof.
  rewrite !wf_dir. intros [Hnd Hall].
  pose proof (remove_entry_sublist n es) as Hsub. split.
  - exact (sublist_NoDup _ _ Hnd (fmap_sublist fst _ _ Hsub)).
  - rewrite Forall_forall in Hall |- *. intros e He. apply Hall.
    eapply elem_of_sublist; eauto.
Qed.

Lemma alter_entry_cases (k : string) (f : Fs.node -> option Fs.node) (es : Fs.entries) :
  match Fs.alter_entry k f es with
  | Some es' =>
      List.map fst es' = List.map fst es
      /\ exists v v', Fs.assoc k es = Some v /\ f v = Some v'
                      /\ forall P : Fs.node -> Prop,
                           P v' -> Forall (fun e => P e.2) es ->
                           Forall (fun e => P e.2) es'
  | None =>
      Fs.assoc k es = None \/ exists v, Fs.assoc k es = Some v /\ f v = None
  end.
Proof.
  induction es as [|[n x] r IH]; simpl; [now left |].
  destruct (String.eqb_spec n k) as [->|Hnk].
  - destruct (f x) as [x'|] eqn:Ef.
    + split; [reflexivity |]. exists x, x'. repeat split; auto.
      intros P HP Hall. apply Forall_cons in Hall as [_ Hall]. now constructor.
    + right. now exists x.
  - destruct (Fs.alter_entry k f r) as [r'|].
    + destruct IH as (Hn & v & v' & Ha & Hf & HP). split; [simpl; now rewrite Hn |].
      exists v, v'. repeat split; auto.
      intros P Hv' Hall. apply Forall_cons in Hall as [Hx Hall].
      constructor; [exact Hx | now apply HP].
    + exact IH.
Qed.

Lemma split_last_app (d : path) (n : string) : Fs.split_last (d ++ [n]) = Some (d, n).
Proof.
  induction d as [|c d IH]; simpl; [reflexivity |].
  rewrite IH. now destruct d.
Qed.

Lemma split_last_spec (p d : path) (n : string) :
  Fs.split_last p = Some (d, n) -> p = d ++ [n].
Proof.
  revert d; induction p as [|c p IH]; intros d; simpl; [discriminate |].
  destruct p as [|c' p'].
  - now intros [= <- <-].
  - destruct (Fs.split_last (c' :: p')) as [[d' n']|]; [|discriminate].
    intros [= <- <-]. simpl. now rewrite <- (IH d' eq_refl).
Qed.

Lemma update_dir_unlink (n : string) (d : path) (t t' : Fs.node) :
  Fs.wf t -> Fs.update_dir d (Fs.unlink_entry n) t = Some t' ->
  Fs.wf t'
  /\ forall q c, Fs.lookup q t' = Some (Fs.File c)
                 <-> q <> d ++ [n] /\ Fs.lookup q t = Some (Fs.File c).
Proof.
  revert t t'; induction d as [|k d IH]; intros [c0|es] t' Hwf; simpl; try discriminate.
  - unfold Fs.unlink_entry. destruct (Fs.assoc n es) as [[c1|]|] eqn:Ea; try discriminate.
    intros [= <-]. split; [now apply wf_remove_entry |].
    apply wf_dir in Hwf as [Hnd _].
    intros [|j q] c; simpl; [split; [discriminate | intros [_ H]; discriminate] |].
    rewrite (assoc_remove_entry n j es Hnd).
    destruct (String.eqb_spec j n) as [->|Hjn].
    + rewrite Ea. split; [discriminate |]. intros [Hne H].
      destruct q; simpl in H; [now destruct Hne | discriminate].
    + split; [|tauto]. intros H. split; [congruence | exact H].
  - pose proof (alter_entry_cases k (Fs.update_dir d (Fs.unlink_entry n)) es) as Hc.
    pose proof (assoc_alter_entry k) as Hlook.
    destruct (Fs.alter_entry k (Fs.update_dir d (Fs.unlink_entry n)) es) as [es'|] eqn:Ealt;
      [|discriminate].
    destruct Hc as (Hnames & v & v' & Ha & Hf & HP). intros [= <-].
    apply wf_dir in Hwf as [Hnd Hall].
    assert (Hv : Fs.wf v).
    { rewrite Forall_forall in Hall. apply (Hall (k, v)). now apply assoc_elem. }
    destruct (IH v v' Hv Hf) as [Hwf' Hfiles]. split.
    + apply wf_dir. rewrite Hnames. split; [exact Hnd | now apply HP].
    + intros [|j q] c; simpl; [split; [discriminate | intros [_ H]; discriminate] |].
      rewrite (Hlook j _ es es' Ealt), Ha.
      destruct (String.eqb_spec j k) as [->|Hjk].
      * rewrite Ha, Hf, Hfiles. split; intros [Hne H]; (split; [congruence | exact H]).
      * split; [|tauto]. intros H. split; [congruence | exact H].
Qed.

Lemma update_dir_unlink_fails (n : string) (d : path) (t : Fs.node) :
  Fs.update_dir d (Fs.unlink_entry n) t = None ->
  forall c, Fs.lookup (d ++ [n]) t <> Some (Fs.File c).
Proof.
  revert t; induction d as [|k d IH]; intros [c0|es]; simpl; try discriminate.
  - unfold Fs.unlink_entry.
    destruct (Fs.assoc n es) as [[c1|es1]|] eqn:Ea; discriminate.
  - pose proof (alter_entry_cases k (Fs.update_dir d (Fs.unlink_entry n)) es) as Hc.
    destruct (Fs.alter_entry k (Fs.update_dir d (Fs.unlink_entry n)) es); [discriminate |].
    intros _ c. destruct Hc as [-> | (v & -> & Hf)]; [discriminate |].
    now apply IH.
Qed.

(** [os.remove] on a well-formed tree: when it succeeds, the file at the path
    is gone and every other file is as before. *)
Lemma unlink_files (p : path) (t t' : Fs.node) :
  Fs.wf t -> Fs.unlink p t = Some t' ->
  Fs.wf t'
  /\ forall q c, Fs.lookup q t' = Some (Fs.File c)
                 <-> q <> p /\ Fs.lookup q t = Some (Fs.File c).
Proof.
  unfold Fs.unlink. intros Hwf.
  destruct (Fs.split_last p) as [[d n]|] eqn:E; [|discriminate].
  apply split_last_spec in E as ->. now apply update_dir_unlink.
Qed.

(** When it fails on a path that is not empty, there is no file there. *)
Lemma unlink_fails (p : path) (t : Fs.node) :
  p <> [] -> Fs.unlink p t = None -> forall c, Fs.lookup p t <> Some (Fs.File c).
Proof.
  unfold Fs.unlink. intros Hp.
  destruct p as [|n d _] using rev_ind; [contradiction |].
  rewrite split_last_app. apply update_dir_unlink_fails.
Qed.

(** After a series of [os.remove] calls on a well-formed tree, the files
    that remain are those that no call was about. *)
Lemma unlink_all_files (ps : list path) (t : Fs.node) :
  Fs.wf t -> Forall (fun p => p <> []) ps ->
  Fs.wf (Fs.unlink_all ps t)
  /\ forall q c, Fs.lookup q (Fs.unlink_all ps t) = Some (Fs.File c)
                 <-> (q ∉ ps) /\ Fs.lookup q t = Some (Fs.File c).
Proof.
  revert t; induction ps as [|p ps IH]; intros t Hwf Hne; simpl.
  - split; [exact Hwf |]. intros q c. split; [|tauto].
    intros H. split; [apply not_elem_of_nil | exact H].
  - apply Forall_cons in Hne as [Hp Hne].
    destruct (Fs.unlink p t) as [t1|] eqn:E.
    + destruct (unlink_files p t t1 Hwf E) as [Hwf1 H1].
      destruct (IH t1 Hwf1 Hne) as [Hwf2 H2]. split; [exact Hwf2 |].
      intros q c. rewrite H2, H1, not_elem_of_cons. tauto.
    + destruct (IH t Hwf Hne) as [Hwf2 H2]. split; [exact Hwf2 |].
      intros q c. rewrite H2, not_elem_of_cons. split; [|tauto].
      intros [Hq H]. repeat split; auto. intros ->.
      now apply (unlink_fails p t Hp E c).
Qed.

(** Induction on trees, with the property at hand for every entry of a
    directory. *)
Lemma node_induction (P : Fs.node -> Prop) :
  (forall c, P (Fs.File c)) ->
  (forall es, Forall (fun e => P e.2) es -> P (Fs.Dir es)) ->
  forall t, P t.
Proof.
  intros HF HD. fix IH 1. intros [c|es]; [apply HF | apply HD].
  induction es as [|e r IHr]; constructor; [apply IH | exact IHr].
Qed.

Lemma lookup_app (a b : path) (t : Fs.node) :
  Fs.lookup (a ++ b) t
  = match Fs.lookup a t with Some v => Fs.lookup b v | None => None end.
Proof.
  revert t; induction a as [|c a IH]; intros t; simpl; [reflexivity |].
  destruct t as [|es]; [reflexivity |]. destruct (Fs.assoc c es); [apply IH | reflexivity].
Qed.

Lemma wf_lookup (p : path) (t v : Fs.node) :
  Fs.wf t -> Fs.lookup p t = Some v -> Fs.wf v.
Proof.
  revert t; induction p as [|c p IH]; intros t Hwf; simpl.
  - now intros [= <-].
  - destruct t as [|es]; [discriminate |].
    destruct (Fs.assoc c es) as [x|] eqn:Ea; [|discriminate].
    apply IH. apply wf_dir in Hwf as [_ Hall]. rewrite Forall_forall in Hall.
    apply (Hall (c, x)). now apply assoc_elem.
Qed.

(** On a well-formed tree, [os.walk] yields one triple for each directory
    that a path reaches, with the listing of that directory. *)
Lemma walk_lookup (t : Fs.node) :
  forall top, Fs.wf t ->
  forall d ds fns,
    (d, ds, fns) ∈ Fs.walk top t
    <-> exists rel es,
          d = top ++ rel /\ Fs.lookup rel t = Some (Fs.Dir es)
          /\ ds = Fs.dirnames es /\ fns = Fs.filenames es.
Proof.
  induction t as [c|es IH] using node_induction; intros top Hwf d ds fns; simpl.
  - split; [intros H; now apply elem_of_nil in H |].
    intros ([|k rel] & es & _ & H & _); discriminate.
  - apply wf_dir in Hwf as [Hnd Hall]. rewrite elem_of_cons. split.
    + intros [[= -> -> ->] | Hin].
      * exists [], es. now rewrite app_nil_r.
      * apply list_elem_of_In, in_flat_map in Hin as ([k v] & Hin & Hw).
        apply list_elem_of_In in Hin, Hw. simpl in Hw.
        rewrite Forall_forall in IH, Hall.
        apply (IH (k, v) Hin _ (Hall (k, v) Hin)) in Hw
          as (rel & es' & -> & Hl & -> & ->).
        exists (k :: rel), es'. rewrite <- app_assoc. simpl.
        now rewrite (elem_assoc k es v Hnd Hin).
    + intros ([|k rel] & es' & -> & Hl & -> & ->); simpl in Hl.
      * injection Hl as <-. left. now rewrite app_nil_r.
      * right. destruct (Fs.assoc k es) as [v|] eqn:Ea; [|discriminate].
        apply assoc_elem in Ea. apply list_elem_of_In, in_flat_map.
        exists (k, v). split; [now apply list_elem_of_In |].
        apply list_elem_of_In. simpl. rewrite Forall_forall in IH, Hall.
        apply (IH (k, v) Ea _ (Hall (k, v) Ea)).
        exists rel, es'. now rewrite <- app_assoc.
Qed.

(** The same for the walk from a directory of the tree: the directory
    listings that the cleaner sees are those of the directories at or below
    [top]. *)
Lemma walked_lookup (top : path) (t : Fs.node) :
  Fs.wf t ->
  forall d ds fns,
    (d, ds, fns) ∈ Spec.walked top t
    <-> exists rel es,
          d = top ++ rel /\ Fs.lookup (top ++ rel) t = Some (Fs.Dir es)
          /\ ds = Fs.dirnames es /\ fns = Fs.filenames es.
Proof.
  intros Hwf d ds fns. unfold Spec.walked.
  destruct (Fs.lookup top t) as [v|] eqn:E.
  - rewrite (walk_lookup v top (wf_lookup top t v Hwf E)).
    split; intros (rel & es & H1 & H2 & H3); exists rel, es;
      rewrite lookup_app, E in *; auto.
  - split; [intros H; now apply elem_of_nil in H |].
    intros (rel & es & _ & H & _). rewrite lookup_app, E in H. discriminate.
Qed.

(** The files of a listing are its entries that are files. *)
Lemma elem_of_filenames (f : string) (es : Fs.entries) :
  NoDup (List.map fst es) ->
  f ∈ Fs.filenames es <-> exists c, Fs.assoc f es = Some (Fs.File c).
Proof.
  intros Hnd. unfold Fs.filenames. rewrite list_elem_of_In, in_map_iff. split.
  - intros ([k v] & <- & Hin). apply filter_In in Hin as [Hin Hv]. simpl in *.
    destruct v as [c|]; [|discriminate]. exists c.
    now apply elem_assoc, list_elem_of_In.
  - intros (c & Ha). exists (f, Fs.File c). split; [reflexivity |].
    apply filter_In. split; [|reflexivity]. now apply list_elem_of_In, assoc_elem.
Qed.

End FsFacts.

(** ** The orchestrator *)

Section OrchestratorTheorems.

(** The start of a run, by cases: a missing source, a failing [mkdir], or
    the rest of the run from the tree with both directories. *)
Lemma process_roms_run (config : Config) (dry_run : bool) (w : world) :
  Sorter.process_roms config dry_run w
  = if Fs.is_dir (rom_source_dir config) (fs w) then
      match Fs.mkdir (rom_destination_dir config) (fs w) with
      | None =>
          (Raised (OSError (rom_destination_dir config)),
           World (fs w)
             (trace w ++ [Log INFO MsgStart; Log INFO (MsgDryRunMode dry_run);
                          PathMkdir (rom_destination_dir config)]))
      | Some t1 =>
          match Fs.mkdir (archive_dir config) t1 with
          | None =>
              (Raised (OSError (archive_dir config)),
               World t1
                 (trace w ++ [Log INFO MsgStart; Log INFO (MsgDryRunMode dry_run);
                              PathMkdir (rom_destination_dir config);
                              PathMkdir (archive_dir config)]))
          | Some t2 =>
              Spec.after_setup config dry_run
                (World t2
                   (trace w ++ [Log INFO MsgStart; Log INFO (MsgDryRunMode dry_run);
                                PathMkdir (rom_destination_dir config);
                                PathMkdir (archive_dir config)]))
          end
      end
    else
      (Returned tt,
       World (fs w)
         (trace w ++ [Log INFO MsgStart; Log INFO (MsgDryRunMode dry_run);
                      Log ERROR (MsgSourceNotFound (rom_source_dir config))])).
Proof.
  rewrite process_roms_unfold.
  unfold bind, log, emit, ask, mkdir_parents_exist_ok, mutate, bind, emit. simpl.
  destruct (Fs.is_dir (rom_source_dir config) (fs w)); simpl.
  - destruct (Fs.mkdir (rom_destination_dir config) (fs w)) as [t1|]; simpl.
    + destruct (Fs.mkdir (archive_dir config) t1) as [t2|]; simpl;
        now rewrite <- !app_assoc.
    + now rewrite <- !app_assoc.
  - now rewrite <- !app_assoc.
Qed.

(** C1 (as the specification states it, refuted): a dry run on a tree that
    has the source directory only does not leave the tree as it was. *)
Lemma dry_run_changes_the_tree :
  fs (Sorter.process_roms CONFIG_DEFAULTS true
        (World (Fs.Dir [("roms", Fs.Dir [("Game [!].zip", Fs.File "C")])]) [])).2
  <> Fs.Dir [("roms", Fs.Dir [("Game [!].zip", Fs.File "C")])].
Proof. vm_compute. discriminate. Qed.

(** What the dry run of the refutation leaves: the two directories. *)
Example dry_run_creates_both_directories :
  fs (Sorter.process_roms CONFIG_DEFAULTS true
        (World (Fs.Dir [("roms", Fs.Dir [("Game [!].zip", Fs.File "C")])]) [])).2
  = Fs.Dir [("roms", Fs.Dir [("Game [!].zip", Fs.File "C")]);
            ("sorted", Fs.Dir []); ("archive", Fs.Dir [])].
Proof. vm_compute. reflexivity. Qed.

(** C1 (amended): in a dry run, whatever the tree and the configuration, no
    call of [os.remove] or [shutil.move] is made and every file stays at its
    path with its content; the tree changes at most by the creation of the
    destination directory and then of the archive directory, and not at all
    when both exist. *)
Theorem dry_run_only_creates_directories (config : Config) (w : world) :
  (exists evs,
      trace (Sorter.process_roms config true w).2 = trace w ++ evs
      /\ Forall (fun e => ~ Spec.is_removal_or_move e) evs)
  /\ (forall p c,
        Fs.lookup p (fs (Sorter.process_roms config true w).2) = Some (Fs.File c)
        <-> Fs.lookup p (fs w) = Some (Fs.File c))
  /\ (fs (Sorter.process_roms config true w).2 = fs w
      \/ Fs.mkdir (rom_destination_dir config) (fs w)
         = Some (fs (Sorter.process_roms config true w).2)
      \/ exists t1,
          Fs.mkdir (rom_destination_dir config) (fs w) = Some t1
          /\ Fs.mkdir (archive_dir config) t1
             = Some (fs (Sorter.process_roms config true w).2))
  /\ (Fs.is_dir (rom_destination_dir config) (fs w) = true ->
      Fs.is_dir (archive_dir config) (fs w) = true ->
      fs (Sorter.process_roms config true w).2 = fs w).
Proof.
  rewrite process_roms_run.
  destruct (Fs.is_dir (rom_source_dir config) (fs w)).
  2:{ simpl. split; [|split; [reflexivity | split; [now left | reflexivity]]].
      eexists. split; [reflexivity |]. repeat constructor; simpl; tauto. }
  destruct (Fs.mkdir (rom_destination_dir config) (fs w)) as [t1|] eqn:E1.
  2:{ simpl. split; [|split; [reflexivity | split; [now left | reflexivity]]].
      eexists. split; [reflexivity |]. repeat constructor; simpl; tauto. }
  destruct (Fs.mkdir (archive_dir config) t1) as [t2|] eqn:E2.
  2:{ simpl. split; [|split; [|split; [right; now left |]]].
      - eexists. split; [reflexivity |]. repeat constructor; simpl; tauto.
      - apply (mkdir_keeps_files _ _ _ E1).
      - intros Hd _. rewrite (mkdir_existing _ _ Hd) in E1. congruence. }
  match goal with |- context [Spec.after_setup config true ?w0] =>
    destruct (after_setup_quiet config true w0) as (evs & Ht & HP & HR & _);
    set (w1 := (Spec.after_setup config true w0).2) in *
  end.
  simpl in Ht, HR. specialize (HR eq_refl).
  split; [|split; [|split]].
  - exists ([Log INFO MsgStart; Log INFO (MsgDryRunMode true);
             PathMkdir (rom_destination_dir config);
             PathMkdir (archive_dir config)] ++ evs).
    split; [now rewrite Ht, app_assoc |].
    apply Forall_app. split; [repeat constructor; simpl; tauto |].
    eapply Forall_impl; [exact HP |]. intros e [_ He].
    specialize (He eq_refl). destruct e; simpl in *; tauto.
  - intros p c. rewrite <- HR.
    rewrite (mkdir_keeps_files _ _ _ E2 p c). apply (mkdir_keeps_files _ _ _ E1).
  - right; right. exists t1. now rewrite <- HR.
  - intros Hd Ha. rewrite (mkdir_existing _ _ Hd) in E1. injection E1 as <-.
    rewrite (mkdir_existing _ _ Ha) in E2. injection E2 as <-. now rewrite <- HR.
Qed.

(** No run, whatever the tree, ever records that a best version could not be
    determined: every group that the scan builds has a member. *)
Lemma process_roms_always_finds_best (config : Config) (dry_run : bool) (w : world)
      (e : event) :
  Spec.is_no_best e ->
  e ∈ trace (Sorter.process_roms config dry_run w).2 -> e ∈ trace w.
Proof.
  intros (g & x & ->). rewrite process_roms_run.
  assert (Hfix : forall l : list event,
             Forall (fun e => ~ Spec.is_no_best e) l ->
             Log WARNING (MsgNoBest g x) ∈ trace w ++ l ->
             Log WARNING (MsgNoBest g x) ∈ trace w).
  { intros l Hl Hin. apply elem_of_app in Hin as [Hin | Hin]; [exact Hin |].
    rewrite Forall_forall in Hl. destruct (Hl _ Hin). now exists g, x. }
  assert (Hlog : forall ev, (forall a b, ev <> Log WARNING (MsgNoBest a b)) ->
                            ~ Spec.is_no_best ev).
  { intros ev Hev (a & b & ->). now apply (Hev a b). }
  destruct (Fs.is_dir (rom_source_dir config) (fs w)).
  2:{ simpl. apply Hfix. repeat constructor; apply Hlog; discriminate. }
  destruct (Fs.mkdir (rom_destination_dir config) (fs w)) as [t1|].
  2:{ simpl. apply Hfix. repeat constructor; apply Hlog; discriminate. }
  destruct (Fs.mkdir (archive_dir config) t1) as [t2|].
  2:{ simpl. apply Hfix. repeat constructor; apply Hlog; discriminate. }
  match goal with |- context [Spec.after_setup config dry_run ?w0] =>
    destruct (after_setup_quiet config dry_run w0) as (evs & Ht & HP & _)
  end.
  rewrite Ht. simpl. rewrite <- app_assoc. apply Hfix. apply Forall_app. split.
  - repeat constructor; apply Hlog; discriminate.
  - eapply Forall_impl; [exact HP |]. now intros ev [Hno _].
Qed.

End OrchestratorTheorems.

(** ** The duplicate cleaner *)

Section CleanerTheorems.

Lemma removals_in_app (dry_run : bool) (a b : list event) :
  Spec.removals_in dry_run (a ++ b)
  = Spec.removals_in dry_run a ++ Spec.removals_in dry_run b.
Proof. apply omap_app. Qed.

Lemma elem_of_removals_in (dry_run : bool) (p : path) (evs : list event) :
  p ∈ Spec.removals_in dry_run evs <-> Spec.removal_event dry_run p ∈ evs.
Proof.
  unfold Spec.removals_in. rewrite list_elem_of_omap. split.
  - intros (e & He & Hp).
    destruct dry_run, e as [[] []| | |]; try discriminate; now injection Hp as ->.
  - intros H. exists (Spec.removal_event dry_run p). split; [exact H |].
    now destruct dry_run.
Qed.

Lemma elem_of_removals (p : path) (evs : list event) :
  p ∈ Spec.removals evs <-> OsRemove p ∈ evs.
Proof. apply (elem_of_removals_in false). Qed.

Lemma runs_removing_ret (dry_run : bool) : Spec.runs_removing dry_run (ret tt) [].
Proof.
  intros w. exists []. rewrite app_nil_r. simpl. now destruct dry_run, w.
Qed.

Lemma runs_removing_bind (dry_run : bool) (m k : M unit) (ps qs : list path) :
  Spec.runs_removing dry_run m ps -> Spec.runs_removing dry_run k qs ->
  Spec.runs_removing dry_run (m ;; k)%io (ps ++ qs).
Proof.
  intros Hm Hk w. destruct (Hm w) as (evs1 & E1 & <-).
  match type of E1 with _ = (_, ?w1) =>
    destruct (Hk w1) as (evs2 & E2 & <-)
  end.
  exists (evs1 ++ evs2). unfold bind. rewrite E1, E2. simpl.
  rewrite app_assoc, removals_in_app. split; [|reflexivity].
  unfold Fs.unlink_all. rewrite fold_left_app. now destruct dry_run.
Qed.

Lemma runs_removing_for_each {A} (dry_run : bool) (xs : list A) (body : A -> M unit)
      (g : A -> list path) :
  (forall x, Spec.runs_removing dry_run (body x) (g x)) ->
  Spec.runs_removing dry_run (for_each xs body) (flat_map g xs).
Proof.
  intros Hb. induction xs as [|x r IH]; simpl.
  - apply runs_removing_ret.
  - now apply runs_removing_bind.
Qed.

Lemma flat_map_single {A} (l : list A) : flat_map (fun x => [x]) l = l.
Proof. induction l as [|x l IH]; simpl; [reflexivity | now rewrite IH]. Qed.

(** The removal of a file always returns; it makes one call of [os.remove]
    in a live pass and leaves one record in a dry pass. *)
Lemma remove_file_runs (dry_run : bool) (file_path : path) :
  Spec.runs_removing dry_run (Cleaner.remove_file dry_run file_path) [file_path].
Proof.
  intros w. unfold Cleaner.remove_file. destruct dry_run.
  - now exists [Log INFO (MsgDryRunDelete file_path)].
  - unfold try_except, os_remove, mutate, bind, log, emit.
    simpl. destruct (Fs.unlink file_path (fs w)) as [t|]; simpl.
    + exists [Log INFO (MsgDelete file_path); OsRemove file_path].
      now rewrite <- app_assoc.
    + exists [Log INFO (MsgDelete file_path); OsRemove file_path;
              Log ERROR (MsgDeleteFailed (OSError file_path))].
      now rewrite <- !app_assoc.
Qed.

Lemma elem_of_zip_basenames (filenames : list string) (b : string) :
  b ∈ Cleaner.zip_basenames filenames
  <-> exists z, z ∈ filenames /\ Spec.ends_in (Py.lower z) ".zip" /\ Pathlib.stem z = b.
Proof.
  unfold Cleaner.zip_basenames.
  rewrite elem_of_list_to_set, list_elem_of_In, in_map_iff. split.
  - intros (z & Hz & Hin). apply filter_In in Hin as [Hin Hzip].
    exists z. rewrite list_elem_of_In. repeat split; auto. now apply endswith_spec.
  - intros (z & Hin & Hzip & Hz). exists z. split; [exact Hz |].
    apply filter_In. rewrite <- list_elem_of_In. split; [exact Hin |].
    now apply endswith_spec.
Qed.

(** The test of the cleaner is the condition of the specification. *)
Lemma is_duplicate_spec (filenames excluded : list string) (f : string) :
  f ∈ filenames ->
  Cleaner.is_duplicate (Cleaner.zip_basenames filenames) excluded f = true
  <-> Spec.is_zip_duplicate filenames excluded f.
Proof.
  intros Hf. unfold Cleaner.is_duplicate, Spec.is_zip_duplicate, Spec.has_zip_sibling.
  rewrite !andb_true_iff, !negb_true_iff, bool_decide_eq_true, bool_decide_eq_false.
  rewrite String.eqb_neq, elem_of_zip_basenames. tauto.
Qed.

Lemma elem_of_files_to_remove (dirpath : path) (filenames excluded : list string)
      (p : path) :
  p ∈ Cleaner.files_to_remove dirpath filenames excluded
  <-> exists f, p = Pathlib.child dirpath f
                /\ Spec.is_zip_duplicate filenames excluded f.
Proof.
  unfold Cleaner.files_to_remove. rewrite list_elem_of_In, in_map_iff. split.
  - intros (f & <- & Hin). apply filter_In in Hin as [Hin Hdup].
    apply list_elem_of_In in Hin. exists f. split; [reflexivity |].
    now apply is_duplicate_spec.
  - intros (f & -> & Hdup). exists f. split; [reflexivity |].
    apply filter_In. assert (Hin : f ∈ filenames) by apply Hdup.
    split; [now apply list_elem_of_In | now apply is_duplicate_spec].
Qed.

(** A listing without a name that ends in [.zip] gives nothing to remove. *)
Lemma files_to_remove_without_zip (dirpath : path) (filenames excluded : list string) :
  (forall z, z ∈ filenames -> ~ Spec.ends_in (Py.lower z) ".zip") ->
  Cleaner.zip_basenames filenames = ∅
  /\ Cleaner.files_to_remove dirpath filenames excluded = [].
Proof.
  intros Hno. split.
  - apply set_eq. intros b. rewrite elem_of_zip_basenames. split.
    + intros (z & Hz & Hzip & _). now destruct (Hno z Hz).
    + intros H. now apply not_elem_of_empty in H.
  - destruct (Cleaner.files_to_remove dirpath filenames excluded) as [|p l] eqn:E;
      [reflexivity |].
    assert (Hp : p ∈ Cleaner.files_to_remove dirpath filenames excluded)
      by (rewrite E; left).
    apply elem_of_files_to_remove in Hp as (f & _ & _ & (z & Hz & Hzip & _) & _).
    now destruct (Hno z Hz).
Qed.

Lemma clean_directory_runs (dry_run : bool) (excluded : list string)
      (step : path * list string * list string) :
  Spec.runs_removing dry_run (Cleaner.clean_directory dry_run excluded step)
    (Cleaner.files_to_remove step.1.1 step.2 excluded).
Proof.
  destruct step as [[dirpath dirs] filenames]. simpl.
  unfold Cleaner.clean_directory. case_bool_decide as Hz.
  - replace (Cleaner.files_to_remove dirpath filenames excluded) with (@nil path).
    + apply runs_removing_ret.
    + symmetry. apply files_to_remove_without_zip. intros z Hin Hzip.
      assert (H : Pathlib.stem z ∈ Cleaner.zip_basenames filenames)
        by (apply elem_of_zip_basenames; now exists z).
      rewrite Hz in H. now apply not_elem_of_empty in H.
  - pose proof (runs_removing_for_each dry_run
                  (Cleaner.files_to_remove dirpath filenames excluded)
                  (Cleaner.remove_file dry_run) (fun p => [p])
                  (remove_file_runs dry_run)) as H.
    now rewrite flat_map_single in H.
Qed.

(** A pass of the cleaner always returns; it removes (in a dry pass,
    announces) the files to remove of each walked directory, in the order of
    the walk, and changes the tree by these removals only. *)
Lemma cleanup_runs (source_dir : path) (dry_run : bool) (excluded : list string)
      (w : world) :
  exists evs,
    Cleaner.cleanup_unzipped_duplicates source_dir dry_run excluded w
    = (Returned tt,
       World (if dry_run then fs w
              else Fs.unlink_all
                     (flat_map (fun step => Cleaner.files_to_remove step.1.1 step.2 excluded)
                               (Spec.walked source_dir (fs w)))
                     (fs w))
             (trace w ++ evs))
    /\ Spec.removals_in dry_run evs
       = flat_map (fun step => Cleaner.files_to_remove step.1.1 step.2 excluded)
                  (Spec.walked source_dir (fs w)).
Proof.
  unfold Cleaner.cleanup_unzipped_duplicates.
  pose proof (runs_removing_for_each dry_run (Spec.walked source_dir (fs w)) _ _
                (clean_directory_runs dry_run excluded)) as Hloop.
  destruct (Hloop (World (fs w) (trace w ++ [Log INFO MsgCleanupStart])))
    as (evs1 & E1 & Hr1).
  exists ([Log INFO MsgCleanupStart] ++ evs1 ++ [Log INFO MsgCleanupFinished]).
  split.
  - unfold bind at 1. unfold log at 1, emit. simpl.
    unfold bind at 1, os_walk, ask. simpl. fold (Spec.walked source_dir (fs w)).
    unfold bind at 1. simpl in E1. rewrite E1. unfold log, emit. simpl.
    now rewrite <- !app_assoc.
  - rewrite !removals_in_app, Hr1. destruct dry_run; simpl; now rewrite app_nil_r.
Qed.

Lemma files_to_remove_nonempty (dirpath : path) (filenames excluded : list string) :
  Forall (fun p => p <> []) (Cleaner.files_to_remove dirpath filenames excluded).
Proof.
  apply Forall_forall. intros p Hp.
  apply elem_of_files_to_remove in Hp as (f & -> & _).
  unfold Pathlib.child. now destruct dirpath.
Qed.

(** C5: the cleaner removes a path (calls [os.remove] on it in a live pass,
    records the removal it would make in a dry pass) exactly when the path is
    a file [f] of a walked directory whose own listing has a name with the
    stem of [f] that ends in [.zip] (whatever the case), while the lowered
    extension of [f] is neither [.zip] nor one of the excluded extensions; a
    directory whose listing has no name ending in [.zip] has no file to
    remove. A dry pass leaves the tree as it is; after a live pass on a
    well-formed tree the files that remain are those that were not removed. *)
Theorem cleaner_deletes_exactly_zip_duplicates
        (source_dir : path) (dry_run : bool) (excluded_extensions : list string)
        (w : world) :
  exists evs,
    trace (Cleaner.cleanup_unzipped_duplicates
             source_dir dry_run excluded_extensions w).2
    = trace w ++ evs
    /\ (forall p,
          Spec.removal_event dry_run p ∈ evs
          <-> exists dirpath dirs filenames f,
                (dirpath, dirs, filenames) ∈ Spec.walked source_dir (fs w)
                /\ p = Pathlib.child dirpath f
                /\ Spec.is_zip_duplicate filenames excluded_extensions f)
    /\ (forall dirpath dirs filenames,
          (dirpath, dirs, filenames) ∈ Spec.walked source_dir (fs w) ->
          (forall z, z ∈ filenames -> ~ Spec.ends_in (Py.lower z) ".zip") ->
          Cleaner.files_to_remove dirpath filenames excluded_extensions = [])
    /\ (dry_run = true ->
        fs (Cleaner.cleanup_unzipped_duplicates
              source_dir dry_run excluded_extensions w).2 = fs w)
    /\ (dry_run = false -> Fs.wf (fs w) ->
        forall q c,
          Fs.lookup q (fs (Cleaner.cleanup_unzipped_duplicates
                             source_dir dry_run excluded_extensions w).2)
          = Some (Fs.File c)
          <-> (OsRemove q ∉ evs) /\ Fs.lookup q (fs w) = Some (Fs.File c)).
Proof.
  destruct (cleanup_runs source_dir dry_run excluded_extensions w)
    as (evs & E & Hr).
  exists evs. rewrite E. split; [reflexivity | split; [|split; [|split]]].
  - intros p. rewrite <- elem_of_removals_in, Hr, list_elem_of_In, in_flat_map. split.
    + intros ([[dirpath dirs] filenames] & Hstep & Hp). simpl in Hp.
      apply list_elem_of_In, elem_of_files_to_remove in Hp as (f & -> & Hdup).
      exists dirpath, dirs, filenames, f. now rewrite list_elem_of_In.
    + intros (dirpath & dirs & filenames & f & Hstep & -> & Hdup).
      exists (dirpath, dirs, filenames). split; [now apply list_elem_of_In |].
      simpl. apply list_elem_of_In, elem_of_files_to_remove. now exists f.
  - intros dirpath dirs filenames _ Hno.
    now apply files_to_remove_without_zip.
  - intros ->. reflexivity.
  - intros -> Hwf q c. simpl.
    rewrite <- (elem_of_removals_in false q evs), Hr.
    apply unlink_all_files; [exact Hwf |].
    apply Forall_forall. intros p Hp. apply list_elem_of_In, in_flat_map in Hp.
    destruct Hp as (step & _ & Hp). apply list_elem_of_In in Hp.
    pose proof (files_to_remove_nonempty step.1.1 step.2 excluded_extensions) as Hne.
    rewrite Forall_forall in Hne. now apply Hne.
Qed.

(** On a well-formed tree the files to remove are files of the tree: those
    of the directories at or below the source directory that meet the
    condition in the listing of their own directory. *)
Lemma files_to_remove_in_tree (source_dir : path) (excluded : list string)
      (t : Fs.node) (p : path) :
  Fs.wf t ->
  p ∈ flat_map (fun step => Cleaner.files_to_remove step.1.1 step.2 excluded)
               (Spec.walked source_dir t)
  <-> exists rel es f c,
        Fs.lookup (source_dir ++ rel) t = Some (Fs.Dir es)
        /\ p = (source_dir ++ rel) ++ [f]
        /\ Fs.lookup p t = Some (Fs.File c)
        /\ Spec.is_zip_duplicate (Fs.filenames es) excluded f.
Proof.
  intros Hwf. rewrite list_elem_of_In, in_flat_map. split.
  - intros ([[d ds] fns] & Hstep & Hp). simpl in Hp.
    apply list_elem_of_In in Hstep, Hp.
    apply (walked_lookup source_dir t Hwf) in Hstep as (rel & es & -> & Hl & -> & ->).
    apply elem_of_files_to_remove in Hp as (f & -> & Hdup).
    assert (Hes : Fs.wf (Fs.Dir es)) by (eapply wf_lookup; eauto).
    apply wf_dir in Hes as [Hnd _].
    destruct (proj1 (elem_of_filenames f es Hnd) (proj1 Hdup)) as (c & Hc).
    exists rel, es, f, c. repeat split; auto; try apply Hdup.
    unfold Pathlib.child. rewrite lookup_app, Hl. simpl. now rewrite Hc.
  - intros (rel & es & f & c & Hl & -> & _ & Hdup).
    exists (source_dir ++ rel, Fs.dirnames es, Fs.filenames es).
    split.
    + apply list_elem_of_In, (walked_lookup source_dir t Hwf). now exists rel, es.
    + simpl. apply list_elem_of_In, elem_of_files_to_remove. now exists f.
Qed.

(** The cleaner on a directory with an archive, its unpacked copy, an
    excluded image and an unrelated file. *)
Example cleaner_run :
  (Cleaner.cleanup_unzipped_duplicates ["roms"] false [".png"; ".jpg"]
     (World (Fs.Dir [("roms", Fs.Dir [("a.ZIP", Fs.File "1"); ("a.bin", Fs.File "2");
                                       ("a.png", Fs.File "3"); ("b.bin", Fs.File "4")])])
            [])).2
  = World (Fs.Dir [("roms", Fs.Dir [("a.ZIP", Fs.File "1"); ("a.png", Fs.File "3");
                                    ("b.bin", Fs.File "4")])])
          [Log INFO MsgCleanupStart; Log INFO (MsgDelete ["roms"; "a.bin"]);
           OsRemove ["roms"; "a.bin"]; Log INFO MsgCleanupFinished].
Proof. vm_compute. reflexivity. Qed.

(** C10: the cleaner takes no account of the excluded directories. In a live
    run that gets past the creation of its two directories, a file that the
    cleaner is to delete is handed to [os.remove] also when a component of
    its directory is an excluded directory, although the scan skips every
    file at such a path. *)
Theorem cleaner_ignores_excluded_dirs
        (config : Config) (w : world) (t1 t2 : Fs.node)
        (dirpath : path) (dirs filenames : list string) (f : string) :
  Fs.is_dir (rom_source_dir config) (fs w) = true ->
  Fs.mkdir (rom_destination_dir config) (fs w) = Some t1 ->
  Fs.mkdir (archive_dir config) t1 = Some t2 ->
  (dirpath, dirs, filenames) ∈ Spec.walked (rom_source_dir config) t2 ->
  Spec.is_zip_duplicate filenames (List.map Py.lower (excluded_extensions config)) f ->
  Sorter.in_excluded_dir (List.map Py.lower (excluded_dirs config))
                         (Pathlib.child dirpath f) = true ->
  OsRemove (Pathlib.child dirpath f) ∈ trace (Sorter.process_roms config false w).2
  /\ forall roms_by_game w',
      (Sorter.scan_file (List.map Py.lower (excluded_dirs config))
                        (List.map Py.lower (excluded_extensions config))
                        roms_by_game (Pathlib.child dirpath f) w').1
      = Returned roms_by_game.
Proof.
  intros Hsrc E1 E2 Hstep Hdup Hex. split.
  - rewrite process_roms_run, Hsrc, E1, E2.
    unfold Spec.after_setup. unfold bind at 1 2 3, log, emit. simpl.
    unfold bind.
    match goal with |- context [Cleaner.cleanup_unzipped_duplicates ?s false ?x ?w0] =>
      destruct (cleanup_runs s false x w0) as (evs & E & Hr)
    end.
    rewrite E.
    match goal with |- context [Spec.after_cleanup config false ?w1] =>
      destruct (after_cleanup_quiet config false w1) as (evs' & Ht & _)
    end.
    rewrite Ht. simpl. apply elem_of_app. left. apply elem_of_app. right.
    apply (elem_of_removals_in false). rewrite Hr. apply list_elem_of_In, in_flat_map.
    exists (dirpath, dirs, filenames). split; [now apply list_elem_of_In |].
    simpl. apply list_elem_of_In, elem_of_files_to_remove. now exists f.
  - intros roms_by_game w'. unfold Sorter.scan_file, bind, ask. simpl.
    destruct (Fs.is_file (Pathlib.child dirpath f) (fs w')); [|reflexivity].
    case_bool_decide; [reflexivity |]. now rewrite Hex.
Qed.

Lemma cleaner_ignores_excluded_dirs_witness :
  OsRemove (Pathlib.child ["roms"; "images"] "a.bin")
    ∈ trace (Sorter.process_roms CONFIG_DEFAULTS false
               (World (Fs.Dir [("roms", Fs.Dir [("images",
                                  Fs.Dir [("a.zip", Fs.File "1"); ("a.bin", Fs.File "2")])]);
                               ("sorted", Fs.Dir []); ("archive", Fs.Dir [])]) [])).2
  /\ forall roms_by_game w',
      (Sorter.scan_file (List.map Py.lower (excluded_dirs CONFIG_DEFAULTS))
                        (List.map Py.lower (excluded_extensions CONFIG_DEFAULTS))
                        roms_by_game (Pathlib.child ["roms"; "images"] "a.bin") w').1
      = Returned roms_by_game.
Proof.
  apply (cleaner_ignores_excluded_dirs CONFIG_DEFAULTS
           (World (Fs.Dir [("roms", Fs.Dir [("images",
                              Fs.Dir [("a.zip", Fs.File "1"); ("a.bin", Fs.File "2")])]);
                           ("sorted", Fs.Dir []); ("archive", Fs.Dir [])]) [])
           (Fs.Dir [("roms", Fs.Dir [("images",
                       Fs.Dir [("a.zip", Fs.File "1"); ("a.bin", Fs.File "2")])]);
                    ("sorted", Fs.Dir []); ("archive", Fs.Dir [])])
           (Fs.Dir [("roms", Fs.Dir [("images",
                       Fs.Dir [("a.zip", Fs.File "1"); ("a.bin", Fs.File "2")])]);
                    ("sorted", Fs.Dir []); ("archive", Fs.Dir [])])
           ["roms"; "images"] [] ["a.zip"; "a.bin"] "a.bin").
  - reflexivity.
  - reflexivity.
  - reflexivity.
  - vm_compute. right. left.
  - apply is_duplicate_spec; [right; left | vm_compute; reflexivity].
  - reflexivity.
Defined.

End CleanerTheorems.

(** ** The end-to-end scenario *)

Section Scenario.

Ltac run_scenario :=
  lazymatch goal with
  | |- exists sorting, ?run = _ /\ _ =>
      let r := eval vm_compute in run in
      lazymatch r with
      | (_, {| fs := _; trace := ?tr |}) =>
          let post := eval vm_compute in (drop (length Spec.scenario_cleaning) tr) in
          exists post; repeat split; vm_compute; reflexivity
      end
  end.

(** C8: with the default configuration, whose only criterion is ["[!]"], a
    live run on the three files of the scenario, in whatever order the
    source directory lists them and whether the destination and archive
    directories exist and are empty or do not exist yet, returns with
    [Game (USA).bin] removed during the cleaner pass, [Game [!].zip] in the
    destination directory and [Game (USA).zip] in the archive directory; the
    moves are those two, the winner first. *)
Theorem end_to_end_scenario (listing others : Fs.entries) :
  Permutation Spec.scenario_files listing ->
  others = [] \/ others = Spec.scenario_empty_dirs ->
  exists sorting,
    Sorter.process_roms CONFIG_DEFAULTS false
      (World (Spec.scenario_tree listing others) [])
    = (Returned tt,
       World Spec.scenario_result (Spec.scenario_cleaning ++ sorting))
    /\ Spec.removals sorting = []
    /\ Spec.moves sorting
       = [(["roms"; "Game [!].zip"], ["sorted"; "Game [!].zip"]);
          (["roms"; "Game (USA).zip"], ["archive"; "Game (USA).zip"])].
Proof.
  intros Hperm Hothers. apply permutations_Permutation in Hperm.
  vm_compute in Hperm.
  destruct Hothers as [-> | ->];
    repeat (apply elem_of_cons in Hperm as [-> | Hperm]; [run_scenario |]);
    now apply elem_of_nil in Hperm.
Qed.

Lemma end_to_end_scenario_witness :
  exists sorting,
    Sorter.process_roms CONFIG_DEFAULTS false
      (World (Spec.scenario_tree Spec.scenario_files Spec.scenario_empty_dirs) [])
    = (Returned tt,
       World Spec.scenario_result (Spec.scenario_cleaning ++ sorting))
    /\ Spec.removals sorting = []
    /\ Spec.moves sorting
       = [(["roms"; "Game [!].zip"], ["sorted"; "Game [!].zip"]);
          (["roms"; "Game (USA).zip"], ["archive"; "Game (USA).zip"])].
Proof.
  apply (end_to_end_scenario Spec.scenario_files Spec.scenario_empty_dirs).
  - reflexivity.
  - right. reflexivity.
Defined.

(** The scenario in the listing order of its description, in full. *)
Example end_to_end_scenario_trace :
  trace (Sorter.process_roms CONFIG_DEFAULTS false
           (World (Spec.scenario_tree Spec.scenario_files Spec.scenario_empty_dirs) [])).2
  = Spec.scenario_cleaning
    ++ [Log INFO (MsgScanningFor ["roms"]);
        Log INFO (MsgFound 1);
        Log DEBUG (MsgGroup "game" ".zip" 2);
        Log DEBUG (MsgFoundRom "Game (USA).zip" [0]);
        Log DEBUG (MsgFoundRom "Game [!].zip" [1]);
        Log INFO (MsgBest "game" ".zip" "Game [!].zip" (Some [1]));
        Log INFO (MsgMove MOVE ["roms"; "Game [!].zip"] ["sorted"; "Game [!].zip"]);
        ShutilMove ["roms"; "Game [!].zip"] ["sorted"; "Game [!].zip"];
        Log INFO (MsgMove ARCHIVE ["roms"; "Game (USA).zip"]
                          ["archive"; "Game (USA).zip"]);
        ShutilMove ["roms"; "Game (USA).zip"] ["archive"; "Game (USA).zip"];
        Log INFO MsgFinished].
Proof. vm_compute. reflexivity. Qed.

End Scenario.

(** * Further properties *)

(** ** The name normalizer, continued *)

Section NormalizerShape.

Import Normalizer.

Ltac by_char c := destruct c as [[] [] [] [] [] [] [] []]; vm_compute; congruence.

(** X2: a normalized name is made of lower-case letters, digits, apostrophes
    and spaces only, and has no white space at either end: [strip] leaves it
    as it is. *)
Theorem normalize_name_shape (s : string) :
  Spec.all_chars Spec.normal_char (normalize_name s) = true
  /\ Py.strip (normalize_name s) = normalize_name s.
Proof.
  split; [apply normalize_name_chars |].
  unfold normalize_name. apply strip_idempotent.
Qed.

Lemma prefix_char_no_closer (c : ascii) : is_prefix_char c = true -> closer c = None.
Proof. by_char c. Qed.

Lemma remove_bracketed_no_opener (s : string) :
  Spec.all_chars Notions.not_opener s = true -> remove_bracketed s = s.
Proof.
  induction s as [|c r IH]; simpl; [reflexivity |].
  rewrite andb_true_iff. unfold Notions.not_opener at 1. intros [Hc Hr].
  destruct (closer c); [discriminate |]. now rewrite IH.
Qed.

Lemma remove_numeric_prefix_all (s : string) :
  Spec.all_chars is_prefix_char s = true -> remove_numeric_prefix s = "".
Proof.
  induction s as [|c r IH]; simpl; [reflexivity |].
  rewrite andb_true_iff. intros [-> Hr]. now apply IH.
Qed.

(** X3: a name made of digits, white space and hyphens only normalizes to the
    empty string, so all such names of one extension share a group. *)
Theorem normalize_name_of_numbering (s : string) :
  Spec.all_chars is_prefix_char s = true -> normalize_name s = "".
Proof.
  intros H. unfold normalize_name.
  rewrite remove_bracketed_no_opener.
  - rewrite remove_numeric_prefix_all; [reflexivity |]. now apply all_chars_strip.
  - apply (all_chars_impl is_prefix_char); [|exact H].
    intros c Hc. unfold Notions.not_opener. now rewrite (prefix_char_no_closer c Hc).
Qed.

Lemma normalize_name_of_numbering_witness : normalize_name "007 - 12" = "".
Proof. apply (normalize_name_of_numbering "007 - 12"). reflexivity. Defined.

End NormalizerShape.

Section NormalizerGrouping.

Import Normalizer.

Ltac by_char c := destruct c as [[] [] [] [] [] [] [] []]; vm_compute; congruence.






















Example normalize_name_case :
  normalize_name "SONIC the Hedgehog" = normalize_name "Sonic The HEDGEHOG".
Proof. vm_compute. reflexivity. Qed.

Lemma all_chars_app (P : ascii -> bool) (a b : string) :
  Spec.all_chars P (a +:+ b) = Spec.all_chars P a && Spec.all_chars P b.
Proof.
  induction a as [|c r IH]; [reflexivity |].
  rewrite append_cons. simpl. now rewrite IH, andb_assoc.
Qed.

Lemma space_not_opener (c : ascii) :
  Py.isspace c = true -> Notions.not_opener c = true.
Proof. by_char c. Qed.

Lemma remove_bracketed_app (a b : string) :
  Spec.all_chars Notions.not_opener a = true ->
  remove_bracketed (a +:+ b) = a +:+ remove_bracketed b.
Proof.
  induction a as [|c r IH]; [reflexivity |]. simpl.
  rewrite andb_true_iff. unfold Notions.not_opener at 1. intros [Hc Hr].
  rewrite !append_cons. simpl. destruct (closer c); [discriminate |].
  now rewrite IH.
Qed.

Lemma closes_tag (cl : ascii) (body rest : string) :
  Spec.all_chars (Notions.tag_char cl) body = true ->
  closes cl (body +:+ String cl rest) = true
  /\ after_close cl (body +:+ String cl rest) = rest.
Proof.
  induction body as [|c r IH].
  - intros _. rewrite append_nil. simpl. now rewrite Ascii.eqb_refl.
  - simpl. rewrite andb_true_iff. unfold Notions.tag_char at 1.
    rewrite andb_true_iff, !negb_true_iff. intros [[Hc Hn] Hr].
    rewrite Hc, Hn. now apply IH.
Qed.

(** The first pattern leaves white space only of a run of tags. *)
Lemma remove_bracketed_tags (t : string) :
  Notions.tags t -> Spec.all_chars Py.isspace (remove_bracketed t) = true.
Proof.
  induction 1 as [ws Hws | ws op cl body rest Hws Hop Hbody _ IH].
  - rewrite remove_bracketed_no_opener; [exact Hws |].
    apply (all_chars_impl Py.isspace); [apply space_not_opener | exact Hws].
  - rewrite remove_bracketed_app
      by (apply (all_chars_impl Py.isspace); [apply space_not_opener | exact Hws]).
    rewrite all_chars_app, Hws. simpl. rewrite Hop.
    destruct (closes_tag cl body rest Hbody) as [-> ->]. exact IH.
Qed.

Lemma lstrip_all_space (w : string) :
  Spec.all_chars Py.isspace w = true -> Py.lstrip w = "".
Proof.
  induction w as [|c r IH]; simpl; [reflexivity |].
  rewrite andb_true_iff. intros [-> Hr]. now apply IH.
Qed.

Lemma rstrip_all_space (w : string) :
  Spec.all_chars Py.isspace w = true -> Py.rstrip w = "".
Proof.
  induction w as [|c r IH]; simpl; [reflexivity |].
  rewrite andb_true_iff. intros [-> Hr]. now rewrite IH.
Qed.

Lemma rstrip_app_space (s w : string) :
  Spec.all_chars Py.isspace w = true -> Py.rstrip (s +:+ w) = Py.rstrip s.
Proof.
  intros Hw. induction s as [|c r IH].
  - rewrite append_nil. now apply rstrip_all_space.
  - rewrite append_cons. simpl. now rewrite IH.
Qed.

Lemma lstrip_app_space (s w : string) :
  Spec.all_chars Py.isspace w = true ->
  exists w', Spec.all_chars Py.isspace w' = true
             /\ Py.lstrip (s +:+ w) = Py.lstrip s +:+ w'.
Proof.
  intros Hw. induction s as [|c r IH].
  - exists "". rewrite append_nil. split; [reflexivity | now apply lstrip_all_space].
  - rewrite append_cons. simpl. destruct (Py.isspace c); [exact IH |].
    exists w. now rewrite append_cons.
Qed.

Lemma strip_app_space (s w : string) :
  Spec.all_chars Py.isspace w = true -> Py.strip (s +:+ w) = Py.strip s.
Proof.
  intros Hw. unfold Py.strip.
  destruct (lstrip_app_space s w Hw) as (w' & Hw' & ->).
  now apply rstrip_app_space.
Qed.

(** X5: release tags at the end of a name do not count. A name without
    opening brackets, followed by any run of bracketed tags and white space,
    normalizes to what the name alone normalizes to. *)
Theorem normalize_name_ignores_tags (s t : string) :
  Spec.all_chars Notions.not_opener s = true -> Notions.tags t ->
  normalize_name (s +:+ t) = normalize_name s.
Proof.
  intros Hs Ht. unfold normalize_name.
  rewrite (remove_bracketed_app s t Hs), (remove_bracketed_no_opener s Hs).
  now rewrite (strip_app_space s _ (remove_bracketed_tags t Ht)).
Qed.

Lemma normalize_name_ignores_tags_witness :
  normalize_name ("Super Mario Bros." +:+ " (USA) [!]")
  = normalize_name "Super Mario Bros.".
Proof.
  apply (normalize_name_ignores_tags "Super Mario Bros." " (USA) [!]").
  - reflexivity.
  - apply (Notions.tags_more " " "(" ")" "USA" " [!]"); try reflexivity.
    apply (Notions.tags_more " " "[" "]" "!" ""); try reflexivity.
    apply Notions.tags_end. reflexivity.
Defined.

End NormalizerGrouping.

(** ** The choice of the best version, continued *)

Section RankingPriorities.

(** The outcome of the ranking loop on a group that has a member. *)
Lemma rank_group_result (criteria : list string) (rom_paths : list path) (w : world) :
  rom_paths <> [] ->
  exists i winner,
    (Sorter.rank_group criteria rom_paths w).1
    = Returned (Some winner, Some (Spec.rank_of criteria winner))
    /\ rom_paths !! i = Some winner
    /\ (forall p, p ∈ rom_paths ->
          Spec.lex_le (Spec.rank_of criteria p) (Spec.rank_of criteria winner))
    /\ (forall j p, j < i -> rom_paths !! j = Some p ->
          Spec.lex_lt (Spec.rank_of criteria p) (Spec.rank_of criteria winner)).
Proof.
  intros Hne.
  pose proof (rank_group_run criteria rom_paths (None, None) w) as Hrun.
  destruct (best_after_fold criteria rom_paths [] (None, None)) as [[H _] | H].
  - now left.
  - simpl in H. contradiction.
  - destruct H as (i & winner & Hb & Hi & Hmax & Hfirst). simpl in Hi, Hmax, Hfirst.
    exists i, winner. split; [|auto].
    unfold Sorter.rank_group. unfold Spec.rank_of in Hrun. rewrite Hrun. simpl.
    now rewrite Hb.
Qed.

Lemma lex_lt_irreflexive (a : list nat) : ~ Spec.lex_lt a a.
Proof.
  induction a as [|x a IH]; inversion 1; subst; [lia | now apply IH].
Qed.

(** X6: the first member of a group is its best version unless a later
    member has a strictly greater rank vector; in particular it is with an
    empty list of criteria, which gives every member the empty vector. *)
Theorem first_member_wins_unless_beaten
        (criteria : list string) (first : path) (others : list path) (w : world) :
  (forall p, p ∈ others ->
     ~ Spec.lex_lt (Spec.rank_of criteria first) (Spec.rank_of criteria p)) ->
  (Sorter.rank_group criteria (first :: others) w).1
  = Returned (Some first, Some (Spec.rank_of criteria first)).
Proof.
  intros Hbeat.
  destruct (rank_group_result criteria (first :: others) w)
    as (i & winner & Hrun & Hi & _ & Hfirst); [discriminate |].
  destruct i as [|i].
  - injection Hi as <-. exact Hrun.
  - exfalso. simpl in Hi. apply (Hbeat winner).
    + apply list_elem_of_lookup. now exists i.
    + apply (Hfirst 0 first); [lia | reflexivity].
Qed.

Lemma first_member_wins_unless_beaten_witness :
  (Sorter.rank_group [] [["roms"; "b.zip"]; ["roms"; "a [!].zip"]]
                     (World (Fs.Dir []) [])).1
  = Returned (Some ["roms"; "b.zip"], Some (Spec.rank_of [] ["roms"; "b.zip"])).
Proof.
  apply (first_member_wins_unless_beaten [] ["roms"; "b.zip"] [["roms"; "a [!].zip"]]).
  intros p _ H. inversion H.
Defined.

(** X7: the first criterion has priority over all others: when the name of
    some member of a group contains it, so does the name of the best
    version. *)
Theorem winner_has_first_criterion
        (criterion : string) (criteria : list string) (rom_paths : list path)
        (member : path) (w : world) :
  member ∈ rom_paths ->
  Spec.substring criterion (Pathlib.name member) ->
  exists winner v,
    (Sorter.rank_group (criterion :: criteria) rom_paths w).1
    = Returned (Some winner, v)
    /\ winner ∈ rom_paths
    /\ Spec.substring criterion (Pathlib.name winner).
Proof.
  intros Hin Hsub.
  destruct (rank_group_result (criterion :: criteria) rom_paths w)
    as (i & winner & Hrun & Hi & Hmax & _).
  { intros ->. now apply elem_of_nil in Hin. }
  exists winner, (Some (Spec.rank_of (criterion :: criteria) winner)).
  split; [exact Hrun | split].
  - apply list_elem_of_lookup. now exists i.
  - specialize (Hmax member Hin). unfold Spec.rank_of, get_rom_rank_vector in Hmax.
    simpl in Hmax. apply contains_spec in Hsub. rewrite Hsub in Hmax.
    apply contains_spec.
    destruct (Py.contains (Pathlib.name winner) criterion); [reflexivity |].
    destruct Hmax as [Heq | Hlt]; [discriminate |].
    inversion Hlt; subst; lia.
Qed.

Lemma winner_has_first_criterion_witness :
  exists winner v,
    (Sorter.rank_group ("[!]" :: ["(USA)"])
       [["roms"; "Game (USA).zip"]; ["roms"; "Game (E) [!].zip"]]
       (World (Fs.Dir []) [])).1
    = Returned (Some winner, v)
    /\ winner ∈ [["roms"; "Game (USA).zip"]; ["roms"; "Game (E) [!].zip"]]
    /\ Spec.substring "[!]" (Pathlib.name winner).
Proof.
  apply (winner_has_first_criterion "[!]" ["(USA)"]
           [["roms"; "Game (USA).zip"]; ["roms"; "Game (E) [!].zip"]]
           ["roms"; "Game (E) [!].zip"]).
  - right. left.
  - apply contains_spec. vm_compute. reflexivity.
Defined.

End RankingPriorities.

(** ** The duplicate cleaner, continued *)

Section CleanerSafety.

Lemma name_child (d : path) (f : string) : Pathlib.name (Pathlib.child d f) = f.
Proof. unfold Pathlib.name, Pathlib.child. apply List.last_last. Qed.

Lemma wfb_wf (t : Fs.node) : Notions.wfb t = true -> Fs.wf t.
Proof.
  induction t as [c|es IH] using node_induction; [intros _; exact I |].
  intros H. change (bool_decide (NoDup (List.map fst es))
                    && forallb (fun e => Notions.wfb (snd e)) es = true) in H.
  apply andb_true_iff in H as [Hnd Hall]. apply bool_decide_eq_true in Hnd.
  apply wf_dir. split; [exact Hnd |].
  rewrite forallb_forall in Hall. rewrite Forall_forall in IH |- *.
  intros e He. apply (IH e He), Hall. now apply list_elem_of_In.
Qed.

Lemma cleaned_extension (source_dir : path) (excluded : list string) (t : Fs.node)
      (p : path) :
  p ∈ Notions.cleaned source_dir excluded t ->
  Py.lower (Pathlib.suffix (Pathlib.name p)) <> ".zip"
  /\ Py.lower (Pathlib.suffix (Pathlib.name p)) ∉ excluded.
Proof.
  unfold Notions.cleaned. rewrite list_elem_of_In, in_flat_map.
  intros ([[d ds] fns] & _ & Hp). simpl in Hp.
  apply list_elem_of_In, elem_of_files_to_remove in Hp as (f & -> & Hdup).
  rewrite name_child. split; apply Hdup.
Qed.

(** X8: a live pass of the cleaner on a well-formed tree never removes an
    archive or a file of an excluded extension: every file whose lowered
    extension is [.zip] or is in the excluded list is still there, with its
    content. *)
Theorem cleaner_spares_archives_and_excluded
        (source_dir : path) (excluded_extensions : list string) (w : world)
        (q : path) (c : string) :
  Fs.wf (fs w) ->
  Fs.lookup q (fs w) = Some (Fs.File c) ->
  Py.lower (Pathlib.suffix (Pathlib.name q)) = ".zip"
  \/ Py.lower (Pathlib.suffix (Pathlib.name q)) ∈ excluded_extensions ->
  Fs.lookup q (fs (Cleaner.cleanup_unzipped_duplicates
                     source_dir false excluded_extensions w).2)
  = Some (Fs.File c).
Proof.
  intros Hwf Hq Hext.
  destruct (cleanup_runs source_dir false excluded_extensions w) as (evs & E & _).
  rewrite E. simpl. fold (Notions.cleaned source_dir excluded_extensions (fs w)).
  apply unlink_all_files; [exact Hwf | | split; [|exact Hq]].
  - apply Forall_forall. intros p Hp. apply list_elem_of_In, in_flat_map in Hp.
    destruct Hp as (step & _ & Hp). apply list_elem_of_In in Hp.
    pose proof (files_to_remove_nonempty step.1.1 step.2 excluded_extensions) as Hne.
    rewrite Forall_forall in Hne. now apply Hne.
  - intros Hin. apply cleaned_extension in Hin as [Hzip Hex].
    destruct Hext; contradiction.
Qed.

Lemma cleaner_spares_archives_and_excluded_witness :
  Fs.lookup ["roms"; "a.ZIP"]
    (fs (Cleaner.cleanup_unzipped_duplicates ["roms"] false [".png"]
           (World (Fs.Dir [("roms", Fs.Dir [("a.ZIP", Fs.File "1");
                                            ("a.bin", Fs.File "2")])]) [])).2)
  = Some (Fs.File "1").
Proof.
  apply (cleaner_spares_archives_and_excluded ["roms"] [".png"]
           (World (Fs.Dir [("roms", Fs.Dir [("a.ZIP", Fs.File "1");
                                            ("a.bin", Fs.File "2")])]) [])
           ["roms"; "a.ZIP"] "1").
  - apply wfb_wf. vm_compute. reflexivity.
  - reflexivity.
  - left. reflexivity.
Defined.

End CleanerSafety.

Section CleanerReach.

Lemma walk_prefix (t : Fs.node) :
  forall top d ds fns, (d, ds, fns) ∈ Fs.walk top t -> exists rel, d = top ++ rel.
Proof.
  induction t as [c|es IH] using node_induction; intros top d ds fns; simpl.
  - intros H. now apply elem_of_nil in H.
  - rewrite elem_of_cons. intros [[= -> _ _] | Hin].
    + exists []. now rewrite app_nil_r.
    + apply list_elem_of_In, in_flat_map in Hin as (e & He & Hw).
      apply list_elem_of_In in He, Hw. rewrite Forall_forall in IH.
      destruct (IH e He _ _ _ _ Hw) as (rel & ->).
      exists (e.1 :: rel). now rewrite <- app_assoc.
Qed.

Lemma walked_prefix (top : path) (t : Fs.node) (d : path) (ds fns : list string) :
  (d, ds, fns) ∈ Spec.walked top t -> exists rel, d = top ++ rel.
Proof.
  unfold Spec.walked. destruct (Fs.lookup top t) as [v|].
  - apply walk_prefix.
  - intros H. now apply elem_of_nil in H.
Qed.

Lemma cleanup_events (source_dir : path) (dry_run : bool) (excluded : list string) :
  Spec.satisfies (Spec.frame false) (Notions.cleaner_event source_dir) (fun _ => True)
    (Cleaner.cleanup_unzipped_duplicates source_dir dry_run excluded).
Proof.
  unfold Cleaner.cleanup_unzipped_duplicates.
  apply (satisfies_bind (fun _ => True)); [apply satisfies_log; now left |].
  intros _ _. unfold os_walk. fold (Spec.walked source_dir).
  intros w0. unfold bind at 1, ask. cbn [fst snd].
  assert (Hs : Spec.satisfies (Spec.frame false) (Notions.cleaner_event source_dir)
                 (fun _ => True)
                 (for_each (Spec.walked source_dir (fs w0))
                    (Cleaner.clean_directory dry_run excluded) ;;
                  log INFO MsgCleanupFinished)%io).
  { apply (satisfies_bind (fun _ => True)).
    - apply satisfies_for_each. intros [[d ds] fns] Hstep.
      apply walked_prefix in Hstep as (rel & ->).
      unfold Cleaner.clean_directory. case_bool_decide; [now apply satisfies_ret |].
      apply satisfies_for_each. intros p Hp.
      apply elem_of_files_to_remove in Hp as (f & -> & _).
      unfold Cleaner.remove_file. destruct dry_run; [apply satisfies_log; now left |].
      apply satisfies_try_except.
      + apply (satisfies_bind (fun _ => True)); [apply satisfies_log; now left |].
        intros _ _. apply satisfies_mutate; [|discriminate].
        right. now exists rel, f.
      + intros e. apply satisfies_log. now left.
    - intros _ _. apply satisfies_log. now left. }
  apply (Hs w0).
Qed.

(** X9: whatever the tree, a pass of the cleaner makes no call that changes
    the file system other than [os.remove], and only on paths below its
    source directory. *)
Theorem cleaner_stays_in_source
        (source_dir : path) (dry_run : bool) (excluded_extensions : list string)
        (w : world) :
  exists evs,
    trace (Cleaner.cleanup_unzipped_duplicates
             source_dir dry_run excluded_extensions w).2
    = trace w ++ evs
    /\ Forall (Notions.cleaner_event source_dir) evs.
Proof.
  destruct (cleanup_events source_dir dry_run excluded_extensions w)
    as (evs & Ht & HP & _).
  now exists evs.
Qed.

Lemma lookup_snoc_file (d : path) (f c : string) (t : Fs.node) :
  Fs.lookup (d ++ [f]) t = Some (Fs.File c)
  <-> exists es, Fs.lookup d t = Some (Fs.Dir es) /\ Fs.assoc f es = Some (Fs.File c).
Proof.
  rewrite lookup_app. destruct (Fs.lookup d t) as [[c0|es]|]; simpl.
  - split; [discriminate | intros (es & H & _); discriminate].
  - destruct (Fs.assoc f es) as [v|] eqn:E.
    + split; [intros H; exists es; now rewrite E, H |].
      intros (es' & [= <-] & H). now rewrite E in H.
    + split; [discriminate |]. intros (es' & [= <-] & H). now rewrite E in H.
  - split; [discriminate | intros (es & H & _); discriminate].
Qed.

Lemma cleaned_nonempty (source_dir : path) (excluded : list string) (t : Fs.node) :
  Forall (fun p => p <> []) (Notions.cleaned source_dir excluded t).
Proof.
  apply Forall_forall. intros p Hp. apply list_elem_of_In, in_flat_map in Hp.
  destruct Hp as (step & _ & Hp). apply list_elem_of_In in Hp.
  pose proof (files_to_remove_nonempty step.1.1 step.2 excluded) as Hne.
  rewrite Forall_forall in Hne. now apply Hne.
Qed.

(** After a live pass on a well-formed tree nothing is left to remove. *)
Lemma cleaned_twice (source_dir : path) (excluded : list string) (t : Fs.node) :
  Fs.wf t ->
  Notions.cleaned source_dir excluded
    (Fs.unlink_all (Notions.cleaned source_dir excluded t) t) = [].
Proof.
  intros Hwf.
  destruct (unlink_all_files (Notions.cleaned source_dir excluded t) t Hwf
              (cleaned_nonempty source_dir excluded t)) as [Hwf1 Hfiles].
  set (t1 := Fs.unlink_all (Notions.cleaned source_dir excluded t) t) in *.
  destruct (Notions.cleaned source_dir excluded t1) as [|p l] eqn:E; [reflexivity |].
  exfalso.
  assert (Hp : p ∈ Notions.cleaned source_dir excluded t1) by (rewrite E; left).
  apply (files_to_remove_in_tree source_dir excluded t1 p Hwf1) in Hp
    as (rel & es1 & f & c & Hd1 & -> & Hp1 & Hf & (z & Hz & Hzip & Hstem) & Hext).
  apply Hfiles in Hp1 as [Hnot Hp0]. apply Hnot.
  apply (files_to_remove_in_tree source_dir excluded t _ Hwf).
  apply lookup_snoc_file in Hp0 as Hes. destruct Hes as (es & Hd & Hfa).
  assert (Hnd : NoDup (List.map fst es)).
  { apply (wf_lookup _ _ _ Hwf) in Hd. now apply wf_dir in Hd. }
  assert (Hnd1 : NoDup (List.map fst es1)).
  { apply (wf_lookup _ _ _ Hwf1) in Hd1. now apply wf_dir in Hd1. }
  exists rel, es, f, c.
  split; [exact Hd | split; [reflexivity | split; [exact Hp0 |]]].
  split; [|split; [|exact Hext]].
  - apply (elem_of_filenames f es Hnd). now exists c.
  - exists z. repeat split; auto.
    apply (elem_of_filenames z es1 Hnd1) in Hz as (cz & Hz).
    assert (Hz1 : Fs.lookup ((source_dir ++ rel) ++ [z]) t1 = Some (Fs.File cz))
      by (apply lookup_snoc_file; now exists es1).
    apply Hfiles in Hz1 as [_ Hz0].
    apply lookup_snoc_file in Hz0 as (es' & Hd' & Hz0).
    rewrite Hd in Hd'. injection Hd' as <-.
    apply (elem_of_filenames z es Hnd). now exists cz.
Qed.

(** X10: on a well-formed tree, a second live pass of the cleaner finds
    nothing to do: it makes no call of [os.remove] and leaves the tree as
    the first pass left it. *)
Theorem cleaner_second_pass_removes_nothing
        (source_dir : path) (excluded_extensions : list string) (w : world) :
  Fs.wf (fs w) ->
  exists evs,
    Cleaner.cleanup_unzipped_duplicates source_dir false excluded_extensions
      (Cleaner.cleanup_unzipped_duplicates source_dir false excluded_extensions w).2
    = (Returned tt,
       World (fs (Cleaner.cleanup_unzipped_duplicates
                    source_dir false excluded_extensions w).2)
             (trace (Cleaner.cleanup_unzipped_duplicates
                       source_dir false excluded_extensions w).2 ++ evs))
    /\ Spec.removals evs = [].
Proof.
  intros Hwf.
  destruct (cleanup_runs source_dir false excluded_extensions w) as (evs1 & E1 & _).
  rewrite E1. cbn [snd fs trace].
  match goal with |- context [Cleaner.cleanup_unzipped_duplicates _ _ _ ?w1] =>
    destruct (cleanup_runs source_dir false excluded_extensions w1) as (evs2 & E2 & Hr2)
  end.
  cbn [fs trace] in E2, Hr2.
  fold (Notions.cleaned source_dir excluded_extensions (fs w)) in E2, Hr2 |- *.
  match type of Hr2 with _ = ?r =>
    change r with (Notions.cleaned source_dir excluded_extensions
                     (Fs.unlink_all (Notions.cleaned source_dir excluded_extensions (fs w))
                                    (fs w))) in Hr2, E2
  end.
  rewrite (cleaned_twice source_dir excluded_extensions (fs w) Hwf) in E2, Hr2.
  exists evs2. split; [exact E2 | exact Hr2].
Qed.

Lemma cleaner_second_pass_removes_nothing_witness :
  exists evs,
    Cleaner.cleanup_unzipped_duplicates ["roms"] false []
      (Cleaner.cleanup_unzipped_duplicates ["roms"] false []
         (World (Fs.Dir [("roms", Fs.Dir [(".zip", Fs.File "1");
                                          ("a.zip", Fs.File "2");
                                          ("a.bin", Fs.File "3")])]) [])).2
    = (Returned tt,
       World (fs (Cleaner.cleanup_unzipped_duplicates ["roms"] false []
                    (World (Fs.Dir [("roms", Fs.Dir [(".zip", Fs.File "1");
                                                     ("a.zip", Fs.File "2");
                                                     ("a.bin", Fs.File "3")])]) [])).2)
             (trace (Cleaner.cleanup_unzipped_duplicates ["roms"] false []
                       (World (Fs.Dir [("roms", Fs.Dir [(".zip", Fs.File "1");
                                                        ("a.zip", Fs.File "2");
                                                        ("a.bin", Fs.File "3")])]) [])).2
              ++ evs))
    /\ Spec.removals evs = [].
Proof.
  apply (cleaner_second_pass_removes_nothing ["roms"] []
           (World (Fs.Dir [("roms", Fs.Dir [(".zip", Fs.File "1");
                                            ("a.zip", Fs.File "2");
                                            ("a.bin", Fs.File "3")])]) [])).
  apply wfb_wf. vm_compute. reflexivity.
Defined.

(** A file named [.zip] has no extension and is its own archive sibling:
    the cleaner removes it. *)
Example cleaner_removes_dot_zip :
  fs (Cleaner.cleanup_unzipped_duplicates ["roms"] false []
        (World (Fs.Dir [("roms", Fs.Dir [(".zip", Fs.File "1");
                                         ("a.zip", Fs.File "2");
                                         ("a.bin", Fs.File "3")])]) [])).2
  = Fs.Dir [("roms", Fs.Dir [("a.zip", Fs.File "2")])].
Proof. vm_compute. reflexivity. Qed.

End CleanerReach.

(** ** Creating the directories *)

Section MkdirFacts.

Lemma mkdir_fresh (p : path) : exists v, Fs.mkdir p (Fs.Dir []) = Some v.
Proof.
  induction p as [|k p [v IH]]; simpl; [now eexists |]. rewrite IH. now eexists.
Qed.

Lemma mkdir_is_dir (p : path) (t t' : Fs.node) :
  Fs.mkdir p t = Some t' -> Fs.is_dir p t' = true.
Proof.
  unfold Fs.is_dir.
  revert t t'; induction p as [|k p IH]; intros [c|es] t'; simpl; try discriminate.
  - now intros [= <-].
  - destruct (Fs.assoc k es) as [v|] eqn:Ea.
    + pose proof (alter_entry_cases k (Fs.mkdir p) es) as Hc.
      destruct (Fs.alter_entry k (Fs.mkdir p) es) as [es'|] eqn:Ealt; [|discriminate].
      destruct Hc as (_ & v0 & v' & Ha & Hf & _). intros [= <-]. simpl.
      rewrite (assoc_alter_entry k k _ es es' Ealt), String.eqb_refl, Ha, Hf.
      now apply (IH v0).
    + destruct (Fs.mkdir p (Fs.Dir [])) as [v|] eqn:Ev; [|discriminate].
      intros [= <-]. simpl. rewrite (assoc_app_fresh k k v es Ea), String.eqb_refl.
      now apply (IH (Fs.Dir [])).
Qed.

Lemma mkdir_keeps_kinds (p : path) (t t' : Fs.node) :
  Fs.mkdir p t = Some t' ->
  forall q, Notions.kind_at q t <> Notions.Missing ->
            Notions.kind_at q t' = Notions.kind_at q t.
Proof.
  unfold Notions.kind_at.
  revert t t'; induction p as [|k p IH]; intros [c|es] t'; simpl; try discriminate.
  - now intros [= <-].
  - destruct (Fs.assoc k es) as [v|] eqn:Ea.
    + pose proof (alter_entry_cases k (Fs.mkdir p) es) as Hc.
      destruct (Fs.alter_entry k (Fs.mkdir p) es) as [es'|] eqn:Ealt; [|discriminate].
      destruct Hc as (_ & v0 & v' & Ha & Hf & _). intros [= <-] [|j q]; [reflexivity |].
      simpl. rewrite (assoc_alter_entry k j _ es es' Ealt).
      destruct (String.eqb_spec j k) as [->|Hjk]; [|tauto].
      rewrite Ha, Hf. apply (IH v0 v' Hf).
    + destruct (Fs.mkdir p (Fs.Dir [])) as [v|] eqn:Ev; [|discriminate].
      intros [= <-] [|j q]; [reflexivity |]. simpl.
      rewrite (assoc_app_fresh k j v es Ea).
      destruct (String.eqb_spec j k) as [->|Hjk]; [|tauto].
      rewrite Ea. simpl. tauto.
Qed.

(** X11: when [mkdir] with [parents=True, exist_ok=True] succeeds, the path
    is a directory afterwards, a second call changes nothing, and whatever
    was in the tree before is still there: every file with its content and
    every directory. *)
Theorem mkdir_makes_the_directory (p : path) (t t' : Fs.node) :
  Fs.mkdir p t = Some t' ->
  Fs.is_dir p t' = true
  /\ Fs.mkdir p t' = Some t'
  /\ forall q, Notions.kind_at q t <> Notions.Missing ->
               Notions.kind_at q t' = Notions.kind_at q t.
Proof.
  intros H. pose proof (mkdir_is_dir p t t' H) as Hd.
  split; [exact Hd | split; [now apply mkdir_existing | now apply (mkdir_keeps_kinds p)]].
Qed.

Lemma mkdir_makes_the_directory_witness :
  Fs.is_dir ["out"; "sorted"]
    (Fs.Dir [("roms", Fs.Dir [("a.zip", Fs.File "1")]);
             ("out", Fs.Dir [("sorted", Fs.Dir [])])]) = true
  /\ Fs.mkdir ["out"; "sorted"]
       (Fs.Dir [("roms", Fs.Dir [("a.zip", Fs.File "1")]);
                ("out", Fs.Dir [("sorted", Fs.Dir [])])])
     = Some (Fs.Dir [("roms", Fs.Dir [("a.zip", Fs.File "1")]);
                     ("out", Fs.Dir [("sorted", Fs.Dir [])])])
  /\ forall q,
       Notions.kind_at q (Fs.Dir [("roms", Fs.Dir [("a.zip", Fs.File "1")])])
       <> Notions.Missing ->
       Notions.kind_at q (Fs.Dir [("roms", Fs.Dir [("a.zip", Fs.File "1")]);
                                  ("out", Fs.Dir [("sorted", Fs.Dir [])])])
       = Notions.kind_at q (Fs.Dir [("roms", Fs.Dir [("a.zip", Fs.File "1")])]).
Proof.
  apply (mkdir_makes_the_directory ["out"; "sorted"]
           (Fs.Dir [("roms", Fs.Dir [("a.zip", Fs.File "1")])])).
  reflexivity.
Defined.

(** [mkdir] fails exactly when the path runs through a file: some prefix of
    it, possibly the whole path, names a regular file. *)
Lemma mkdir_fails_on_files (p : path) (t : Fs.node) :
  Fs.mkdir p t = None
  <-> exists q c, q `prefix_of` p /\ Fs.lookup q t = Some (Fs.File c).
Proof.
  revert t; induction p as [|k p IH]; intros [c0|es]; simpl.
  - split; [intros _ | reflexivity]. exists [], c0. split; [apply prefix_nil | reflexivity].
  - split; [discriminate |]. intros (q & c & Hq & Hl).
    apply prefix_nil_inv in Hq as ->. discriminate.
  - split; [intros _ | reflexivity]. exists [], c0. split; [apply prefix_nil | reflexivity].
  - destruct (Fs.assoc k es) as [v|] eqn:Ea.
    + pose proof (alter_entry_cases k (Fs.mkdir p) es) as Hc.
      destruct (Fs.alter_entry k (Fs.mkdir p) es) as [es'|] eqn:Ealt.
      * destruct Hc as (_ & v0 & v' & Ha & Hf & _). rewrite Ea in Ha. injection Ha as <-.
        split; [discriminate |]. intros (q & c & Hq & Hl). exfalso.
        destruct q as [|j q]; [discriminate |].
        apply prefix_cons_inv_1 in Hq as Hj. subst j.
        apply prefix_cons_inv_2 in Hq. simpl in Hl. rewrite Ea in Hl.
        assert (Hnone : Fs.mkdir p v = None) by (apply IH; now exists q, c).
        congruence.
      * split; [intros _ | reflexivity].
        destruct Hc as [Hc | (v0 & Ha & Hf)]; [congruence |].
        rewrite Ea in Ha. injection Ha as <-.
        apply IH in Hf as (q & c & Hq & Hl). exists (k :: q), c. split.
        -- now apply prefix_cons.
        -- simpl. now rewrite Ea.
    + destruct (mkdir_fresh p) as (v & ->). split; [discriminate |].
      intros (q & c & Hq & Hl). destruct q as [|j q]; [discriminate |].
      apply prefix_cons_inv_1 in Hq as Hj. subst j. simpl in Hl. now rewrite Ea in Hl.
Qed.

End MkdirFacts.

(** ** What can stop a run *)

Section NeverRaises.

Lemma returns_ret {A} (a : A) : Notions.returns (ret a).
Proof. intros w. now exists a, w. Qed.

Lemma returns_bind {A B} (m : M A) (k : A -> M B) :
  Notions.returns m -> (forall a, Notions.returns (k a)) -> Notions.returns (bind m k).
Proof.
  intros Hm Hk w. destruct (Hm w) as (a & w1 & E).
  destruct (Hk a w1) as (b & w2 & E2). exists b, w2. unfold bind. now rewrite E.
Qed.

Lemma returns_log (l : level) (m : message) : Notions.returns (log l m).
Proof. intros w. now eexists _, _. Qed.

Lemma returns_ask {A} (f : Fs.node -> A) : Notions.returns (ask f).
Proof. intros w. now eexists _, _. Qed.

(** A [try] whose handler returns does, whatever its body raises. *)
Lemma returns_try_except {A} (m : M A) (h : exn -> M A) :
  (forall e, Notions.returns (h e)) -> Notions.returns (try_except m h).
Proof.
  intros Hh w. unfold try_except. destruct (m w) as [[a|e] w1].
  - now exists a, w1.
  - apply Hh.
Qed.

Lemma returns_for_each {A} (xs : list A) (body : A -> M unit) :
  (forall x, Notions.returns (body x)) -> Notions.returns (for_each xs body).
Proof.
  intros Hb. induction xs as [|x r IH]; simpl; [apply returns_ret |].
  now apply returns_bind.
Qed.

Lemma returns_for_fold {A S} (xs : list A) (body : S -> A -> M S) (acc : S) :
  (forall s x, Notions.returns (body s x)) -> Notions.returns (for_fold xs body acc).
Proof.
  intros Hb. revert acc; induction xs as [|x r IH]; intros acc; simpl;
    [apply returns_ret |].
  apply returns_bind; auto.
Qed.

(** A relocation never raises: a move that fails is recorded as an error
    and the caller goes on. *)
Lemma handle_file_move_returns
        (source_path dest_path : path) (dry_run is_archive : bool) :
  Notions.returns (handle_file_move source_path dest_path dry_run is_archive).
Proof.
  unfold handle_file_move. apply returns_bind; [apply returns_ask |].
  intros [|]; [apply returns_log |].
  destruct dry_run; [apply returns_log |].
  apply returns_try_except. intros e. apply returns_log.
Qed.

Lemma cleanup_returns (source_dir : path) (dry_run : bool) (excluded : list string) :
  Notions.returns (Cleaner.cleanup_unzipped_duplicates source_dir dry_run excluded).
Proof.
  intros w. destruct (cleanup_runs source_dir dry_run excluded w) as (evs & E & _).
  rewrite E. now eexists _, _.
Qed.

Lemma process_group_returns (config : Config) (dry_run : bool)
      (group : (string * string) * list path) :
  Notions.returns (Sorter.process_group config dry_run group).
Proof.
  destruct group as [[game_name ext] rom_paths]. unfold Sorter.process_group.
  assert (Hmulti : Notions.returns
    (log DEBUG (MsgGroup game_name ext (length rom_paths)) ;;
     b <- Sorter.rank_group (ranking_criteria config) rom_paths ;;
     match b with
     | (Some best_rom, best_rank_vector) =>
         log INFO (MsgBest game_name ext (Pathlib.name best_rom) best_rank_vector) ;;
         handle_file_move best_rom
           (Pathlib.child (rom_destination_dir config) (Pathlib.name best_rom))
           dry_run false ;;
         for_each rom_paths
           (fun rom_path =>
              if decide (rom_path <> best_rom)
              then handle_file_move rom_path
                     (Pathlib.child (archive_dir config) (Pathlib.name rom_path))
                     dry_run true
              else ret tt)
     | (None, _) => log WARNING (MsgNoBest game_name ext)
     end)%io).
  { apply returns_bind; [apply returns_log |]. intros _. apply returns_bind.
    - unfold Sorter.rank_group. apply returns_for_fold. intros s x.
      apply returns_bind; [apply returns_log | intros _; apply returns_ret].
    - intros [[best_rom|] v]; [|apply returns_log].
      apply returns_bind; [apply returns_log |]. intros _.
      apply returns_bind; [apply handle_file_move_returns |]. intros _.
      apply returns_for_each. intros rom_path.
      case_decide; [apply handle_file_move_returns | apply returns_ret]. }
  destruct rom_paths as [|p [|q r]]; [exact Hmulti | | exact Hmulti].
  apply returns_bind; [apply returns_log | intros _; apply handle_file_move_returns].
Qed.

Lemma after_setup_returns (config : Config) (dry_run : bool) :
  Notions.returns (Spec.after_setup config dry_run).
Proof.
  unfold Spec.after_setup, Spec.after_cleanup.
  repeat (apply returns_bind; [apply returns_log | intros _]).
  apply returns_bind; [apply cleanup_returns | intros _].
  apply returns_bind; [apply returns_log | intros _].
  apply returns_bind; [apply returns_ask | intros found].
  apply returns_bind.
  - apply returns_for_fold. intros s x. unfold Sorter.scan_file.
    apply returns_bind; [apply returns_ask |]. intros [|]; [|apply returns_ret].
    case_bool_decide.
    + apply returns_bind; [apply returns_log | intros _; apply returns_ret].
    + destruct (Sorter.in_excluded_dir _ _); [|apply returns_ret].
      apply returns_bind; [apply returns_log | intros _; apply returns_ret].
  - intros roms_by_game. apply returns_bind; [apply returns_log | intros _].
    apply returns_bind; [|intros _; apply returns_log].
    apply returns_for_each. intros g. apply process_group_returns.
Qed.

(** How a run ends: in an exception only when the source directory exists
    and the destination or the archive directory cannot be created; no
    removal and no move that fails stops it. *)
Lemma process_roms_raises_only_on_mkdir (config : Config) (dry_run : bool) (w : world) :
  (Sorter.process_roms config dry_run w).1
  = if Fs.is_dir (rom_source_dir config) (fs w) then
      match Fs.mkdir (rom_destination_dir config) (fs w) with
      | None => Raised (OSError (rom_destination_dir config))
      | Some t1 =>
          match Fs.mkdir (archive_dir config) t1 with
          | None => Raised (OSError (archive_dir config))
          | Some _ => Returned tt
          end
      end
    else Returned tt.
Proof.
  rewrite process_roms_run.
  destruct (Fs.is_dir (rom_source_dir config) (fs w)); [|reflexivity].
  destruct (Fs.mkdir (rom_destination_dir config) (fs w)) as [t1|]; [|reflexivity].
  destruct (Fs.mkdir (archive_dir config) t1) as [t2|]; [|reflexivity].
  match goal with |- context [Spec.after_setup config dry_run ?w0] =>
    destruct (after_setup_returns config dry_run w0) as ([] & w' & ->)
  end.
  reflexivity.
Qed.

(** X12: a run ends in an exception exactly when the source directory
    exists and the path of the destination or of the archive directory runs
    through a regular file of the tree: some prefix of it, possibly the
    whole path, names one. Nothing else stops a run: no removal and no move
    that fails does. *)
Theorem process_roms_raises_when_blocked (config : Config) (dry_run : bool) (w : world) :
  (exists e, (Sorter.process_roms config dry_run w).1 = Raised e)
  <-> Fs.is_dir (rom_source_dir config) (fs w) = true
      /\ exists q c,
           (q `prefix_of` rom_destination_dir config \/ q `prefix_of` archive_dir config)
           /\ Fs.lookup q (fs w) = Some (Fs.File c).
Proof.
  rewrite process_roms_raises_only_on_mkdir.
  destruct (Fs.is_dir (rom_source_dir config) (fs w)).
  - destruct (Fs.mkdir (rom_destination_dir config) (fs w)) as [t1|] eqn:Hd.
    + pose proof (mkdir_keeps_files _ _ _ Hd) as Hkeep.
      destruct (Fs.mkdir (archive_dir config) t1) as [t2|] eqn:Ha.
      * split; [intros (e & He); discriminate |].
        intros (_ & q & c & [Hq | Hq] & Hl); exfalso.
        -- assert (Hn : Fs.mkdir (rom_destination_dir config) (fs w) = None)
             by (apply mkdir_fails_on_files; now exists q, c).
           congruence.
        -- assert (Hn : Fs.mkdir (archive_dir config) t1 = None).
           { apply mkdir_fails_on_files. exists q, c. split; [exact Hq |].
             now apply Hkeep. }
           congruence.
      * split; [|intros _; now eexists]. intros _. split; [reflexivity |].
        apply mkdir_fails_on_files in Ha as (q & c & Hq & Hl).
        exists q, c. split; [now right | now apply Hkeep].
    + split; [|intros _; now eexists]. intros _. split; [reflexivity |].
      apply mkdir_fails_on_files in Hd as (q & c & Hq & Hl).
      exists q, c. split; [now left | exact Hl].
  - split; [intros (e & He); discriminate | intros [H _]; discriminate].
Qed.

(** A destination that is a regular file stops the run before any cleaning. *)
Example process_roms_raises :
  Sorter.process_roms CONFIG_DEFAULTS false
    (World (Fs.Dir [("roms", Fs.Dir [("a.zip", Fs.File "1"); ("a.bin", Fs.File "2")]);
                    ("sorted", Fs.File "not a directory")]) [])
  = (Raised (OSError ["sorted"]),
     World (Fs.Dir [("roms", Fs.Dir [("a.zip", Fs.File "1"); ("a.bin", Fs.File "2")]);
                    ("sorted", Fs.File "not a directory")])
           [Log INFO MsgStart; Log INFO (MsgDryRunMode false); PathMkdir ["sorted"]]).
Proof. vm_compute. reflexivity. Qed.

End NeverRaises.

(** ** The groups *)

Section GroupFacts.

Variables excluded_dirs excluded_extensions : list string.

Abbreviation kept := (Notions.kept excluded_dirs excluded_extensions).
Abbreviation scan_step := (Notions.scan_step excluded_dirs excluded_extensions).
Abbreviation members := (Notions.members excluded_dirs excluded_extensions).

(** One round of the scanning loop: the tree stays as it is and at most a
    debug record is added. *)
Lemma scan_file_run (roms_by_game : Sorter.groups) (p : path) (w : world) :
  exists evs,
    Sorter.scan_file excluded_dirs excluded_extensions roms_by_game p w
    = (Returned (scan_step (fs w) roms_by_game p), World (fs w) (trace w ++ evs))
    /\ Forall Spec.is_log evs.
Proof.
  unfold Sorter.scan_file, Notions.scan_step, Notions.kept, bind, ask, log, emit, ret.
  destruct (Fs.is_file p (fs w)); simpl.
  - case_bool_decide; simpl.
    + exists [Log DEBUG (MsgSkipType p)]. split; [reflexivity | now repeat constructor].
    + destruct (Sorter.in_excluded_dir excluded_dirs p); simpl.
      * exists [Log DEBUG (MsgSkipDir p)]. split; [reflexivity | now repeat constructor].
      * exists []. rewrite app_nil_r. split; [now destruct w | constructor].
  - exists []. rewrite app_nil_r. split; [now destruct w | constructor].
Qed.

(** The scanning loop returns the fold of its step over the tree it starts
    from, which it leaves as it is. *)
Lemma scan_run (found : list path) (roms_by_game : Sorter.groups) (w : world) :
  exists evs,
    for_fold found (Sorter.scan_file excluded_dirs excluded_extensions) roms_by_game w
    = (Returned (fold_left (scan_step (fs w)) found roms_by_game),
       World (fs w) (trace w ++ evs))
    /\ Forall Spec.is_log evs.
Proof.
  revert roms_by_game w; induction found as [|p l IH]; intros g w; simpl.
  - exists []. rewrite app_nil_r. split; [now destruct w | constructor].
  - destruct (scan_file_run g p w) as (evs1 & E1 & H1).
    destruct (IH (scan_step (fs w) g p) (World (fs w) (trace w ++ evs1)))
      as (evs2 & E2 & H2).
    exists (evs1 ++ evs2). unfold bind. rewrite E1, E2. simpl.
    split; [now rewrite app_assoc | now apply Forall_app].
Qed.

Lemma group_of_add (key k : string * string) (p : path) (g : Sorter.groups) :
  Notions.group_of key (Sorter.add_to_group k p g)
  = if decide (k = key) then Notions.group_of key g ++ [p] else Notions.group_of key g.
Proof.
  induction g as [|[k0 l] r IH]; simpl.
  - now destruct (decide (k = key)).
  - destruct (decide (k0 = k)) as [->|Hk0]; simpl.
    + now destruct (decide (k = key)).
    + rewrite IH. destruct (decide (k0 = key)) as [->|]; [|reflexivity].
      destruct (decide (k = key)); [congruence | reflexivity].
Qed.

Lemma keys_add (k : string * string) (p : path) (g : Sorter.groups) :
  List.map fst (Sorter.add_to_group k p g)
  = if decide (k ∈ List.map fst g) then List.map fst g else List.map fst g ++ [k].
Proof.
  induction g as [|[k0 l] r IH]; simpl.
  - destruct (decide (k ∈ [])) as [H|_]; [now apply elem_of_nil in H | reflexivity].
  - destruct (decide (k0 = k)) as [->|Hk0]; simpl.
    + destruct (decide (k ∈ k :: List.map fst r)) as [_|H]; [reflexivity |].
      destruct H. left.
    + rewrite IH. destruct (decide (k ∈ List.map fst r)) as [Hin|Hnin].
      * destruct (decide (k ∈ k0 :: List.map fst r)) as [_|H]; [reflexivity |].
        destruct H. now right.
      * destruct (decide (k ∈ k0 :: List.map fst r)) as [H|_]; [|reflexivity].
        apply elem_of_cons in H as [->|H]; [congruence | contradiction].
Qed.

Lemma well_grouped_add (k : string * string) (p : path) (g : Sorter.groups) :
  Notions.well_grouped g -> Notions.well_grouped (Sorter.add_to_group k p g).
Proof.
  intros [Hnd Hne]. split; [|now apply add_to_group_nonempty].
  rewrite keys_add. destruct (decide (k ∈ List.map fst g)); [exact Hnd |].
  apply NoDup_app. repeat split; auto.
  - intros x Hx Hk. apply list_elem_of_singleton in Hk as ->. contradiction.
  - apply NoDup_singleton.
Qed.

Lemma scan_fold (t : Fs.node) (found : list path) (g : Sorter.groups) :
  Notions.well_grouped g ->
  Notions.well_grouped (fold_left (scan_step t) found g)
  /\ forall key,
       Notions.group_of key (fold_left (scan_step t) found g)
       = Notions.group_of key g ++ members t key found.
Proof.
  revert g; induction found as [|p l IH]; intros g Hg; simpl.
  - split; [exact Hg |]. intros key. now rewrite app_nil_r.
  - assert (Hg' : Notions.well_grouped (scan_step t g p)).
    { unfold Notions.scan_step. destruct (kept t p); [now apply well_grouped_add | exact Hg]. }
    destruct (IH _ Hg') as [Hw Hgroups]. split; [exact Hw |].
    intros key. rewrite Hgroups. unfold Notions.scan_step, Notions.members. simpl.
    destruct (kept t p); simpl; [|reflexivity].
    rewrite group_of_add. destruct (decide (Sorter.game_key p = key)) as [He|Hne].
    + rewrite bool_decide_eq_true_2 by exact He. now rewrite <- app_assoc.
    + rewrite bool_decide_eq_false_2 by exact Hne. reflexivity.
Qed.

Lemma group_of_elem (key : string * string) (g : Sorter.groups) :
  Notions.group_of key g <> [] -> (key, Notions.group_of key g) ∈ g.
Proof.
  induction g as [|[k l] r IH]; simpl; [congruence |].
  destruct (decide (k = key)) as [->|Hk]; [intros _; left | intros H; right; auto].
Qed.

Lemma elem_group_of (key : string * string) (paths : list path) (g : Sorter.groups) :
  NoDup (List.map fst g) -> (key, paths) ∈ g -> Notions.group_of key g = paths.
Proof.
  induction g as [|[k l] r IH]; simpl; intros Hnd Hin.
  - now apply elem_of_nil in Hin.
  - apply NoDup_cons in Hnd as [Hk Hnd].
    apply elem_of_cons in Hin as [[= -> ->] | Hin].
    + now rewrite decide_True.
    + destruct (decide (k = key)) as [->|Hne]; [|now apply IH].
      exfalso. apply Hk. apply list_elem_of_fmap. now exists (key, paths).
Qed.

(** X13: the scanning loop leaves the tree as it is and builds one group for
    each key that occurs: the group of a key (normalized stem, extension)
    holds the regular files of the scan that are not excluded and have this
    key, in the order of the scan, and no key has two groups. So two files
    share a group exactly when their stems normalize alike and their
    extensions are equal. *)
Theorem scan_groups_by_key (found : list path) (w : world) :
  exists roms_by_game evs,
    for_fold found (Sorter.scan_file excluded_dirs excluded_extensions) [] w
    = (Returned roms_by_game, World (fs w) (trace w ++ evs))
    /\ NoDup (List.map fst roms_by_game)
    /\ forall key paths,
         (key, paths) ∈ roms_by_game
         <-> paths <> [] /\ paths = members (fs w) key found.
Proof.
  destruct (scan_run found [] w) as (evs & E & _).
  destruct (scan_fold (fs w) found []) as [[Hnd Hne] Hgroups].
  { split; constructor. }
  exists (fold_left (scan_step (fs w)) found []), evs.
  split; [exact E | split; [exact Hnd |]].
  intros key paths. split.
  - intros Hin. split.
    + unfold Spec.all_nonempty in Hne. rewrite Forall_forall in Hne.
      apply (Hne (key, paths) Hin).
    + rewrite <- (elem_group_of key paths _ Hnd Hin). apply Hgroups.
  - intros [Hne' ->]. specialize (Hgroups key). simpl in Hgroups.
    rewrite <- Hgroups in Hne' |- *. now apply group_of_elem.
Qed.

End GroupFacts.

(** The groups of a scan: two releases of one game, another game, an image
    and a file of an excluded directory. *)
Example scan_groups_example :
  (for_fold [["roms"; "Game (USA).zip"]; ["roms"; "Other.zip"];
             ["roms"; "GAME [!].zip"]; ["roms"; "Game.png"];
             ["roms"; "images"; "Game.zip"]]
            (Sorter.scan_file ["images"] [".png"]) []
            (World (Fs.Dir [("roms", Fs.Dir [("Game (USA).zip", Fs.File "1");
                                             ("Other.zip", Fs.File "2");
                                             ("GAME [!].zip", Fs.File "3");
                                             ("Game.png", Fs.File "4");
                                             ("images", Fs.Dir [("Game.zip", Fs.File "5")])])])
                   [])).1
  = Returned [(("game", ".zip"), [["roms"; "Game (USA).zip"]; ["roms"; "GAME [!].zip"]]);
              (("other", ".zip"), [["roms"; "Other.zip"]])].
Proof. vm_compute. reflexivity. Qed.


(** ** What a whole run may do *)

Section RunDiscipline.

Variable config : Config.

Abbreviation in_order := (Notions.in_order config).
Abbreviation movable := (Notions.movable config).
Abbreviation live := (Spec.frame false).

Lemma satisfies_events {A} (R : Fs.node -> Fs.node -> Prop) (P P' : event -> Prop)
      (Q : A -> Prop) (m : M A) :
  (forall e, P e -> P' e) -> Spec.satisfies R P Q m -> Spec.satisfies R P' Q m.
Proof.
  intros HPP Hm w. destruct (Hm w) as (evs & Ht & HP & HR & HQ).
  exists evs. split; [exact Ht | split; [|split; [exact HR | exact HQ]]].
  eapply Forall_impl; [exact HP | exact HPP].
Qed.

Lemma satisfies_ask_result {A} (R : Fs.node -> Fs.node -> Prop) `{!PreOrder R}
      (P : event -> Prop) (Q : A -> Prop) (f : Fs.node -> A) :
  (forall t, Q (f t)) -> Spec.satisfies R P Q (ask f).
Proof.
  intros HQ w. exists []. simpl. rewrite app_nil_r.
  split; [reflexivity | split; [constructor | split; [reflexivity |]]].
  intros a [= <-]. apply HQ.
Qed.

Lemma satisfies_for_fold_elem {A S} (R : Fs.node -> Fs.node -> Prop) `{!PreOrder R}
      (P : event -> Prop) (I : S -> Prop) (xs : list A)
      (body : S -> A -> M S) (acc : S) :
  I acc -> (forall s x, x ∈ xs -> I s -> Spec.satisfies R P I (body s x)) ->
  Spec.satisfies R P I (for_fold xs body acc).
Proof.
  revert acc. induction xs as [|x r IH]; intros acc Hacc Hb; simpl.
  - now apply satisfies_ret.
  - apply (satisfies_bind I).
    + apply Hb; [left | exact Hacc].
    + intros s Hs. apply IH; [exact Hs |].
      intros s' y Hy. apply Hb. now right.
Qed.

Lemma rglob_below (t : Fs.node) :
  forall top p, p ∈ Fs.rglob top t -> Notions.below top p.
Proof.
  induction t as [c|es IH] using node_induction; intros top p; simpl.
  - intros H. now apply elem_of_nil in H.
  - rewrite elem_of_app. intros [Hin | Hin].
    + apply list_elem_of_fmap in Hin as (e & -> & _).
      exists [], e.1. now rewrite app_nil_r.
    + apply list_elem_of_In, in_flat_map in Hin as (e & He & Hr).
      apply list_elem_of_In in He, Hr. rewrite Forall_forall in IH.
      destruct (IH e He _ _ Hr) as (rel & f & ->).
      exists (e.1 :: rel), f. f_equal. now rewrite <- (app_assoc top).
Qed.

Lemma add_to_group_movable (key : string * string) (p : path) (g : Sorter.groups) :
  movable p -> Notions.all_movable config g ->
  Notions.all_movable config (Sorter.add_to_group key p g).
Proof.
  intros Hp. unfold Notions.all_movable.
  induction g as [|[k paths] r IH]; intros Hg; simpl.
  - constructor; [|constructor]. simpl. constructor; [exact Hp | constructor].
  - apply Forall_cons in Hg as [Hpaths Hr]. case_decide.
    + constructor; [|exact Hr]. simpl. apply Forall_app. split; [exact Hpaths |].
      constructor; [exact Hp | constructor].
    + constructor; [exact Hpaths | now apply IH].
Qed.

Lemma scan_file_in_order (g : Sorter.groups) (p : path) :
  Notions.below (rom_source_dir config) p -> Notions.all_movable config g ->
  Spec.satisfies live in_order (Notions.all_movable config)
    (Sorter.scan_file (List.map Py.lower (excluded_dirs config))
                      (List.map Py.lower (excluded_extensions config)) g p).
Proof.
  intros Hp Hg. unfold Sorter.scan_file.
  apply (satisfies_bind (fun _ => True)); [apply satisfies_ask |].
  intros [|] _; [|now apply satisfies_ret].
  case_bool_decide as Hext.
  - apply (satisfies_bind (fun _ => True)); [now apply satisfies_log |].
    intros _ _. now apply satisfies_ret.
  - destruct (Sorter.in_excluded_dir _ _) eqn:Hdir.
    + apply (satisfies_bind (fun _ => True)); [now apply satisfies_log |].
      intros _ _. now apply satisfies_ret.
    + apply satisfies_ret. apply add_to_group_movable; [|exact Hg].
      split; [exact Hp | split; [exact Hext | exact Hdir]].
Qed.

Lemma handle_file_move_in_order (s d : path) (dry_run is_archive : bool) :
  in_order (ShutilMove s d) ->
  Spec.satisfies live in_order (fun _ => True) (handle_file_move s d dry_run is_archive).
Proof.
  intros Hmove. unfold handle_file_move.
  apply (satisfies_bind (fun _ => True)); [apply satisfies_ask |].
  intros [|] _; [now apply satisfies_log |].
  destruct dry_run; [now apply satisfies_log |].
  apply satisfies_try_except.
  - apply (satisfies_bind (fun _ => True)); [now apply satisfies_log |].
    intros _ _. apply satisfies_mutate; [exact Hmove | discriminate].
  - intros e. now apply satisfies_log.
Qed.

Lemma rank_group_member (criteria : list string) (rom_paths : list path) :
  Spec.satisfies live in_order
    (fun b => forall winner v, b = (Some winner, v) -> winner ∈ rom_paths)
    (Sorter.rank_group criteria rom_paths).
Proof.
  unfold Sorter.rank_group. apply satisfies_for_fold_elem; [apply _ | discriminate |].
  intros b p Hp Hb.
  apply (satisfies_bind (fun _ => True)); [now apply satisfies_log |].
  intros _ _. apply satisfies_ret. unfold Sorter.rank_step.
  destruct (Sorter.improves _ b); [|exact Hb].
  now intros winner v [= <- _].
Qed.

Lemma process_group_in_order (dry_run : bool) (key : string * string)
      (rom_paths : list path) :
  Forall movable rom_paths ->
  Spec.satisfies live in_order (fun _ => True)
    (Sorter.process_group config dry_run (key, rom_paths)).
Proof.
  intros Hall. rewrite Forall_forall in Hall.
  destruct key as [game_name ext]. unfold Sorter.process_group.
  assert (Hmulti : Spec.satisfies live in_order (fun _ => True)
    (log DEBUG (MsgGroup game_name ext (length rom_paths)) ;;
     b <- Sorter.rank_group (ranking_criteria config) rom_paths ;;
     match b with
     | (Some best_rom, best_rank_vector) =>
         log INFO (MsgBest game_name ext (Pathlib.name best_rom) best_rank_vector) ;;
         handle_file_move best_rom
           (Pathlib.child (rom_destination_dir config) (Pathlib.name best_rom))
           dry_run false ;;
         for_each rom_paths
           (fun rom_path =>
              if decide (rom_path <> best_rom)
              then handle_file_move rom_path
                     (Pathlib.child (archive_dir config) (Pathlib.name rom_path))
                     dry_run true
              else ret tt)
     | (None, _) => log WARNING (MsgNoBest game_name ext)
     end)%io).
  { apply (satisfies_bind (fun _ => True)); [now apply satisfies_log |].
    intros _ _. eapply satisfies_bind; [apply rank_group_member |].
    intros [[winner|] v] Hb; [|now apply satisfies_log].
    specialize (Hb winner v eq_refl).
    apply (satisfies_bind (fun _ => True)); [now apply satisfies_log |].
    intros _ _. apply (satisfies_bind (fun _ => True)).
    - apply handle_file_move_in_order. split; [now apply Hall | now left].
    - intros _ _. apply satisfies_for_each. intros rom_path Hin.
      case_decide; [|now apply satisfies_ret].
      apply handle_file_move_in_order. split; [now apply Hall | now right]. }
  destruct rom_paths as [|p [|q r]]; [exact Hmulti | | exact Hmulti].
  apply (satisfies_bind (fun _ => True)); [now apply satisfies_log |].
  intros _ _. apply handle_file_move_in_order.
  split; [apply Hall; left | now left].
Qed.

Lemma after_cleanup_in_order (dry_run : bool) :
  Spec.satisfies live in_order (fun _ => True) (Spec.after_cleanup config dry_run).
Proof.
  unfold Spec.after_cleanup.
  apply (satisfies_bind (fun _ => True)); [now apply satisfies_log |].
  intros _ _.
  apply (satisfies_bind
           (fun found => forall p, p ∈ found -> Notions.below (rom_source_dir config) p)).
  { unfold path_rglob. apply satisfies_ask_result; [apply _ |]. intros t p.
    destruct (Fs.lookup (rom_source_dir config) t) as [v|].
    - apply rglob_below.
    - intros H. now apply elem_of_nil in H. }
  intros found Hfound. apply (satisfies_bind (Notions.all_movable config)).
  - apply satisfies_for_fold_elem; [apply _ | constructor |].
    intros g p Hp Hg. apply scan_file_in_order; [now apply Hfound | exact Hg].
  - intros roms_by_game Hg.
    apply (satisfies_bind (fun _ => True)); [now apply satisfies_log |].
    intros _ _. apply (satisfies_bind (fun _ => True)).
    + apply satisfies_for_each. intros [key rom_paths] Hin.
      apply process_group_in_order.
      unfold Notions.all_movable in Hg. rewrite Forall_forall in Hg.
      apply (Hg (key, rom_paths) Hin).
    + intros _ _. now apply satisfies_log.
Qed.

Lemma cleaner_event_in_order (e : event) :
  Notions.cleaner_event (rom_source_dir config) e -> in_order e.
Proof.
  intros [Hlog | (rel & f & ->)].
  - destruct e; simpl in Hlog; try contradiction. exact I.
  - now exists rel, f.
Qed.

Lemma process_roms_in_order (dry_run : bool) :
  Spec.satisfies live in_order (fun _ => True) (Sorter.process_roms config dry_run).
Proof.
  rewrite process_roms_unfold.
  apply (satisfies_bind (fun _ => True)); [now apply satisfies_log |].
  intros _ _. apply (satisfies_bind (fun _ => True)); [now apply satisfies_log |].
  intros _ _. apply (satisfies_bind (fun _ => True)); [apply satisfies_ask |].
  intros source_is_dir _. destruct (negb source_is_dir); [now apply satisfies_log |].
  apply (satisfies_bind (fun _ => True)).
  { apply satisfies_mutate; [now left | discriminate]. }
  intros _ _. apply (satisfies_bind (fun _ => True)).
  { apply satisfies_mutate; [now right | discriminate]. }
  intros _ _. unfold Spec.after_setup.
  apply (satisfies_bind (fun _ => True)); [now apply satisfies_log |].
  intros _ _. apply (satisfies_bind (fun _ => True)); [now apply satisfies_log |].
  intros _ _. apply (satisfies_bind (fun _ => True)); [now apply satisfies_log |].
  intros _ _. apply (satisfies_bind (fun _ => True)).
  - eapply satisfies_events; [apply cleaner_event_in_order | apply cleanup_events].
  - intros _ _. apply after_cleanup_in_order.
Qed.

(** X14: whatever the tree and the mode, a run of [process_roms] creates no
    directory but the destination and the archive directory, removes no
    path that is not below the source directory, and moves only paths below
    the source directory whose extension and directories are not excluded,
    each to the entry of its own name in the destination or in the archive
    directory. *)
Theorem process_roms_keeps_to_its_directories (dry_run : bool) (w : world) :
  exists evs,
    trace (Sorter.process_roms config dry_run w).2 = trace w ++ evs
    /\ Forall (Notions.in_order config) evs.
Proof.
  destruct (process_roms_in_order dry_run w) as (evs & Ht & HP & _).
  now exists evs.
Qed.

End RunDiscipline.


(** ** Moving a file *)

Section MoveFacts.

Abbreviation kind_at := Notions.kind_at.

Lemma update_dir_defined (d : path) (f : Fs.entries -> option Fs.entries)
      (t : Fs.node) (es es' : Fs.entries) :
  Fs.lookup d t = Some (Fs.Dir es) -> f es = Some es' ->
  exists t', Fs.update_dir d f t = Some t'.
Proof.
  revert t; induction d as [|k d IH]; intros [c|es0]; simpl; try discriminate.
  - intros [= ->] ->. now eexists.
  - destruct (Fs.assoc k es0) as [v|] eqn:Ea; [|discriminate].
    intros Hl Hf. destruct (IH v Hl Hf) as (v' & Hv').
    pose proof (alter_entry_cases k (Fs.update_dir d f) es0) as Hc.
    destruct (Fs.alter_entry k (Fs.update_dir d f) es0) as [es0'|]; [now eexists |].
    destruct Hc as [Hc | (v0 & Hc & Hn)]; congruence.
Qed.

(** What a change of the listing of one directory does to the tree: below
    that directory the paths run through the new listing, and every other
    path names what it named. *)
Lemma update_dir_lookup (d : path) (f : Fs.entries -> option Fs.entries)
      (t t' : Fs.node) :
  Fs.update_dir d f t = Some t' ->
  exists es es',
    Fs.lookup d t = Some (Fs.Dir es) /\ f es = Some es'
    /\ (forall r, Fs.lookup (d ++ r) t' = Fs.lookup r (Fs.Dir es'))
    /\ (forall q, (forall r, q <> d ++ r) -> kind_at q t' = kind_at q t).
Proof.
  unfold Notions.kind_at.
  revert t t'; induction d as [|k d IH]; intros [c|es0] t'; simpl; try discriminate.
  - destruct (f es0) as [es0'|] eqn:Ef; [|discriminate]. intros [= <-].
    exists es0, es0'. split; [reflexivity | split; [exact Ef | split; [reflexivity |]]].
    intros q Hq. now destruct (Hq q).
  - pose proof (alter_entry_cases k (Fs.update_dir d f) es0) as Hc.
    destruct (Fs.alter_entry k (Fs.update_dir d f) es0) as [es0'|] eqn:Ealt;
      [|discriminate].
    destruct Hc as (_ & v & v' & Ha & Hf & _). intros [= <-].
    destruct (IH v v' Hf) as (es & es' & Hl & Hes & Hin & Hout).
    exists es, es'. rewrite Ha.
    split; [exact Hl | split; [exact Hes | split]].
    + intros r. simpl.
      rewrite (assoc_alter_entry k k _ es0 es0' Ealt), String.eqb_refl, Ha, Hf.
      apply Hin.
    + intros [|j q] Hq; [reflexivity |]. simpl.
      rewrite (assoc_alter_entry k j _ es0 es0' Ealt).
      destruct (String.eqb_spec j k) as [->|Hjk]; [|reflexivity].
      rewrite Ha, Hf. apply Hout. intros r ->. now apply (Hq r).
Qed.

Lemma update_dir_wf (d : path) (f : Fs.entries -> option Fs.entries) (t t' : Fs.node) :
  (forall es es', Fs.wf (Fs.Dir es) -> f es = Some es' -> Fs.wf (Fs.Dir es')) ->
  Fs.wf t -> Fs.update_dir d f t = Some t' -> Fs.wf t'.
Proof.
  intros Hfwf.
  revert t t'; induction d as [|k d IH]; intros [c|es0] t' Hwf; simpl; try discriminate.
  - destruct (f es0) as [es0'|] eqn:Ef; [|discriminate]. intros [= <-].
    now apply (Hfwf es0).
  - pose proof (alter_entry_cases k (Fs.update_dir d f) es0) as Hc.
    destruct (Fs.alter_entry k (Fs.update_dir d f) es0) as [es0'|]; [|discriminate].
    destruct Hc as (Hnames & v & v' & Ha & Hf & HP). intros [= <-].
    apply wf_dir in Hwf as [Hnd Hall]. apply wf_dir. rewrite Hnames.
    split; [exact Hnd |]. apply HP; [|exact Hall].
    apply (IH v); [|exact Hf]. rewrite Forall_forall in Hall.
    apply (Hall (k, v)). now apply assoc_elem.
Qed.

Lemma assoc_names (k : string) (es : Fs.entries) :
  Fs.assoc k es = None -> k ∉ List.map fst es.
Proof.
  induction es as [|[n x] r IH]; simpl; [intros _ H; now apply elem_of_nil in H |].
  destruct (String.eqb_spec n k) as [->|Hnk]; [discriminate |].
  intros Ha. apply not_elem_of_cons. split; [congruence | now apply IH].
Qed.

Lemma lookup_child (d : path) (n : string) (t : Fs.node) (es : Fs.entries) :
  Fs.lookup d t = Some (Fs.Dir es) -> Fs.lookup (d ++ [n]) t = Fs.assoc n es.
Proof.
  intros Hl. rewrite lookup_app, Hl. simpl. now destruct (Fs.assoc n es).
Qed.

Lemma lookup_parent (d : path) (n : string) (t v : Fs.node) :
  Fs.lookup (d ++ [n]) t = Some v ->
  exists es, Fs.lookup d t = Some (Fs.Dir es) /\ Fs.assoc n es = Some v.
Proof.
  rewrite lookup_app. destruct (Fs.lookup d t) as [[c|es]|]; simpl; try discriminate.
  destruct (Fs.assoc n es) as [x|] eqn:Ea; [|discriminate].
  intros [= ->]. now exists es.
Qed.

Lemma not_below (q d : path) (n : string) :
  (forall r, q <> d ++ r) -> q <> d ++ [n].
Proof. intros H. apply H. Qed.

(** The first half of a move of a file: its entry leaves the listing of its
    directory. *)
Lemma detach_file (sd : path) (sn c : string) (t : Fs.node) :
  Fs.wf t -> Fs.lookup (sd ++ [sn]) t = Some (Fs.File c) ->
  exists t1,
    Fs.update_dir sd (fun es => Some (Fs.remove_entry sn es)) t = Some t1
    /\ Fs.wf t1
    /\ kind_at (sd ++ [sn]) t1 = Notions.Missing
    /\ forall q, q <> sd ++ [sn] -> kind_at q t1 = kind_at q t.
Proof.
  intros Hwf Hsrc. destruct (lookup_parent _ _ _ _ Hsrc) as (es & Hsd & Ha).
  destruct (update_dir_defined sd (fun es => Some (Fs.remove_entry sn es)) t es
              (Fs.remove_entry sn es) Hsd eq_refl) as (t1 & Ht1).
  exists t1. split; [exact Ht1 |].
  destruct (update_dir_lookup _ _ _ _ Ht1) as (es0 & es' & Hl & [= <-] & Hin & Hout).
  rewrite Hsd in Hl. injection Hl as <-.
  assert (Hnd : NoDup (List.map fst es)).
  { apply (wf_lookup sd t (Fs.Dir es) Hwf) in Hsd. now apply wf_dir in Hsd. }
  split; [|split].
  - apply (update_dir_wf sd (fun es => Some (Fs.remove_entry sn es)) t t1);
      [|exact Hwf | exact Ht1].
    intros l l' Hl [= <-]. now apply wf_remove_entry.
  - unfold Notions.kind_at. rewrite Hin. simpl.
    now rewrite (assoc_remove_entry sn sn es Hnd), String.eqb_refl.
  - intros q Hq. destruct (decide (sd `prefix_of` q)) as [(r & ->)|Hno].
    + unfold Notions.kind_at. rewrite Hin, lookup_app, Hsd.
      destruct r as [|j r]; [reflexivity |]. simpl.
      rewrite (assoc_remove_entry sn j es Hnd).
      destruct (String.eqb_spec j sn) as [->|Hj]; [|reflexivity].
      rewrite Ha. destruct r; [now destruct Hq | reflexivity].
    + apply Hout. intros r ->. apply Hno. now exists r.
Qed.

(** The second half: the file ends the listing of a directory that has no
    entry of that name. *)
Lemma attach_file (dd : path) (dn c : string) (t : Fs.node) :
  Fs.wf t -> kind_at dd t = Notions.IsDir -> kind_at (dd ++ [dn]) t = Notions.Missing ->
  exists t2,
    Fs.update_dir dd (fun es => match Fs.assoc dn es with
                                | None => Some (es ++ [(dn, Fs.File c)])
                                | Some _ => None
                                end) t = Some t2
    /\ Fs.wf t2
    /\ kind_at (dd ++ [dn]) t2 = Notions.IsFile c
    /\ forall q, q <> dd ++ [dn] -> kind_at q t2 = kind_at q t.
Proof.
  unfold Notions.kind_at at 1 2. intros Hwf Hdir Hmiss.
  destruct (Fs.lookup dd t) as [[c0|es]|] eqn:Hdd; try discriminate. clear Hdir.
  rewrite (lookup_child dd dn t es Hdd) in Hmiss.
  destruct (Fs.assoc dn es) as [[c0|es0]|] eqn:Ea; try discriminate. clear Hmiss.
  set (ins := fun es => match Fs.assoc dn es with
                        | None => Some (es ++ [(dn, Fs.File c)])
                        | Some _ => None
                        end).
  assert (Hins : ins es = Some (es ++ [(dn, Fs.File c)])) by (unfold ins; now rewrite Ea).
  destruct (update_dir_defined dd ins t es _ Hdd Hins) as (t2 & Ht2).
  exists t2. split; [exact Ht2 |].
  destruct (update_dir_lookup _ _ _ _ Ht2) as (es1 & es' & Hl & Hes' & Hin & Hout).
  rewrite Hdd in Hl. injection Hl as <-. rewrite Hins in Hes'. injection Hes' as <-.
  split; [|split].
  - apply (update_dir_wf dd ins t t2); [|exact Hwf | exact Ht2].
    intros l l' Hl. unfold ins. destruct (Fs.assoc dn l) eqn:El; [discriminate |].
    intros [= <-]. apply wf_dir in Hl as [Hnd Hall]. apply wf_dir. split.
    + rewrite map_app. simpl. apply NoDup_app. split; [exact Hnd | split].
      * intros x Hx Hk. apply list_elem_of_singleton in Hk as ->.
        now apply (assoc_names dn l El).
      * apply NoDup_singleton.
    + apply Forall_app. split; [exact Hall |]. constructor; [exact I | constructor].
  - unfold Notions.kind_at. rewrite Hin. simpl.
    now rewrite (assoc_app_fresh dn dn _ es Ea), String.eqb_refl.
  - intros q Hq. destruct (decide (dd `prefix_of` q)) as [(r & ->)|Hno].
    + unfold Notions.kind_at. rewrite Hin, lookup_app, Hdd.
      destruct r as [|j r]; [reflexivity |]. simpl.
      rewrite (assoc_app_fresh dn j _ es Ea).
      destruct (String.eqb_spec j dn) as [->|Hj]; [|reflexivity].
      rewrite Ea. destruct r; [now destruct Hq | reflexivity].
    + apply Hout. intros r ->. apply Hno. now exists r.
Qed.

Lemma kind_at_root_file (p : path) (c : string) (t : Fs.node) :
  kind_at p t = Notions.IsFile c -> Fs.lookup p t = Some (Fs.File c).
Proof.
  unfold Notions.kind_at. destruct (Fs.lookup p t) as [[c0|es]|]; simpl; congruence.
Qed.

Lemma path_snoc (p : path) :
  p <> [] -> p = Pathlib.parent p ++ [Pathlib.name p].
Proof. intros Hp. now apply app_removelast_last. Qed.

(** [os.rename] of a file to a missing entry of a directory, on a
    well-formed tree. *)
Lemma rename_file (src dst : path) (c : string) (t : Fs.node) :
  Fs.wf t ->
  kind_at src t = Notions.IsFile c ->
  kind_at dst t = Notions.Missing ->
  kind_at (Pathlib.parent dst) t = Notions.IsDir ->
  exists t',
    Fs.rename src dst t = Some t'
    /\ Fs.wf t'
    /\ kind_at dst t' = Notions.IsFile c
    /\ kind_at src t' = Notions.Missing
    /\ forall q, q <> src -> q <> dst -> kind_at q t' = kind_at q t.
Proof.
  intros Hwf Hsrc Hdst Hpar.
  assert (Hd : dst <> []) by (intros ->; simpl in Hpar; congruence).
  assert (Hs : src <> []).
  { intros ->. destruct dst as [|k dst]; [congruence |].
    unfold Notions.kind_at in Hsrc, Hpar. simpl in Hsrc.
    destruct t as [c0|es]; [|discriminate].
    destruct (Pathlib.parent (k :: dst)); discriminate. }
  assert (Hsd : src <> dst) by congruence.
  assert (Hsp : src <> Pathlib.parent dst) by congruence.
  rewrite (path_snoc dst Hd) in Hdst, Hsd |- *.
  rewrite (path_snoc src Hs) in Hsrc, Hsd, Hsp |- *.
  set (sd := Pathlib.parent src) in *. set (sn := Pathlib.name src) in *.
  set (dd := Pathlib.parent dst) in *. set (dn := Pathlib.name dst) in *.
  apply kind_at_root_file in Hsrc.
  destruct (detach_file sd sn c t Hwf Hsrc) as (t1 & Ht1 & Hwf1 & Hgone & Hkeep1).
  assert (Hpar1 : kind_at dd t1 = Notions.IsDir) by (rewrite Hkeep1; auto).
  assert (Hdst1 : kind_at (dd ++ [dn]) t1 = Notions.Missing) by (rewrite Hkeep1; auto).
  destruct (attach_file dd dn c t1 Hwf1 Hpar1 Hdst1) as (t2 & Ht2 & Hwf2 & Hnew & Hkeep2).
  exists t2. split.
  - unfold Fs.rename. rewrite Hsrc, !split_last_app, Ht1. exact Ht2.
  - split; [exact Hwf2 | split; [exact Hnew | split]].
    + rewrite Hkeep2; [exact Hgone | exact Hsd].
    + intros q Hqs Hqd. rewrite Hkeep2, Hkeep1; auto.
Qed.

(** X15: a live [handle_file_move] of a regular file to a path that does
    not exist, in a directory that does, on a tree where no directory lists
    a name twice: the call returns after the record of the move and the
    call of [shutil.move], without an error record; the destination holds
    the file with its content, the source is gone, and every other path
    names what it named before. *)
Theorem handle_file_move_moves_the_file
        (source_path dest_path : path) (is_archive : bool) (c : string) (w : world) :
  Fs.wf (fs w) ->
  Notions.kind_at source_path (fs w) = Notions.IsFile c ->
  Notions.kind_at dest_path (fs w) = Notions.Missing ->
  Notions.kind_at (Pathlib.parent dest_path) (fs w) = Notions.IsDir ->
  exists t',
    handle_file_move source_path dest_path false is_archive w
    = (Returned tt,
       World t' (trace w ++ [Log INFO (MsgMove (action_of is_archive)
                                         source_path dest_path);
                             ShutilMove source_path dest_path]))
    /\ Fs.wf t'
    /\ Notions.kind_at dest_path t' = Notions.IsFile c
    /\ Notions.kind_at source_path t' = Notions.Missing
    /\ forall q, q <> source_path -> q <> dest_path ->
                 Notions.kind_at q t' = Notions.kind_at q (fs w).
Proof.
  intros Hwf Hsrc Hdst Hpar.
  destruct (rename_file source_path dest_path c (fs w) Hwf Hsrc Hdst Hpar)
    as (t' & Hren & Hrest).
  exists t'. split; [|exact Hrest].
  unfold handle_file_move, bind, ask, Fs.exists_. simpl.
  unfold Notions.kind_at in Hdst.
  destruct (Fs.lookup dest_path (fs w)) as [[c0|es]|]; try discriminate. simpl.
  unfold try_except, bind, log, emit, shutil_move, mutate, bind, emit. simpl.
  rewrite Hren. simpl. now rewrite <- app_assoc.
Qed.

Lemma handle_file_move_moves_the_file_witness :
  exists t',
    handle_file_move ["roms"; "a.zip"] ["sorted"; "a.zip"] false false
      (World (Fs.Dir [("roms", Fs.Dir [("a.zip", Fs.File "1"); ("b.zip", Fs.File "2")]);
                      ("sorted", Fs.Dir [])]) [])
    = (Returned tt,
       World t' ([] ++ [Log INFO (MsgMove (action_of false)
                                    ["roms"; "a.zip"] ["sorted"; "a.zip"]);
                        ShutilMove ["roms"; "a.zip"] ["sorted"; "a.zip"]]))
    /\ Fs.wf t'
    /\ Notions.kind_at ["sorted"; "a.zip"] t' = Notions.IsFile "1"
    /\ Notions.kind_at ["roms"; "a.zip"] t' = Notions.Missing
    /\ forall q, q <> ["roms"; "a.zip"] -> q <> ["sorted"; "a.zip"] ->
                 Notions.kind_at q t'
                 = Notions.kind_at q
                     (Fs.Dir [("roms", Fs.Dir [("a.zip", Fs.File "1");
                                               ("b.zip", Fs.File "2")]);
                              ("sorted", Fs.Dir [])]).
Proof.
  apply (handle_file_move_moves_the_file ["roms"; "a.zip"] ["sorted"; "a.zip"] false "1"
           (World (Fs.Dir [("roms", Fs.Dir [("a.zip", Fs.File "1");
                                            ("b.zip", Fs.File "2")]);
                           ("sorted", Fs.Dir [])]) [])).
  - apply wfb_wf. vm_compute. reflexivity.
  - reflexivity.
  - reflexivity.
  - reflexivity.
Defined.

End MoveFacts.
